(** * Tour-construction heuristics of the TSP visualizer

    A shallow embedding of [components/tsp-visualizer.tsx] and, in module
    [Jsx], of the two strategies of the older untyped copy of the component
    that the typed one rewrote ([arbitraryInsertion], [furthestInsertion]).

    Each strategy is an [async] function that builds its tour in a loop,
    shows a snapshot after every step, waits for a timer and reads the
    shared [stopped] flag at the head of the loop.  It is modelled as a
    function of the point set, of the random draw it makes, and of the
    values the flag holds after each wait; a loop takes a bound on its
    number of turns ([fuel]), and the theorems show that the size of the
    point set is always bound enough.

    Numbers.  A JavaScript [number] is an IEEE-754 binary64 value, which is
    what Rocq's primitive [float] is.  Distances, path costs, insertion
    costs, cross products, the comparator of the hull's sort and all their
    comparisons are computed on [float], one kernel operation for each
    operation of the source, so that rounding, overflow to [Infinity] and
    [NaN] are those of the program.  A coordinate is an integer held in [Z]
    and read as the [number] nearest to it ([toNumber]).

    The grid.  [randomizeVerticesCallback] only produces
    [Math.floor(..) * 20] and [Math.floor(..) * 15] inside the canvas
    ([onGrid]).  On the grid every difference, square and product of the
    source is exact; this is checked by evaluation over the whole grid and
    lets the geometry of the hull be proved on integers (module [Exact]) and
    carried over to the [float] code.  Off the grid the strategies are still
    defined, and behave as the source does: [farRow], [farColumn] and
    [farTriangle] are point sets whose squares overflow, on which a scan
    finds no candidate or the hull keeps a point twice.  Statements about a
    whole run are made for point sets on the grid.

    Identity.  The source compares points by reference ([p !== startPoint],
    [includes], [indexOf]).  The generator never creates two points at the
    same position, so on a point set reference identity and equality of
    coordinates coincide; a point set is a duplicate-free list of [Point].

    Randomness.  [Math.random] is outside the program.  The index a strategy
    draws for its start point, and the grid cells the generator draws, are
    arguments of the model ([k], [draw]); a theorem that needs them in their
    range says so. *)

From Stdlib Require Import String Ascii DecimalString DecimalZ.
From Stdlib Require Import ZArith List Lia Bool Arith Permutation Sorted.
From Stdlib Require Import Floats.
Import ListNotations.


(** ** Numbers *)

Definition number := float.

Definition Infinity : number := infinity.

(** The [number] that an integer literal or an integer coordinate is: the
    integer itself up to 2^53 in absolute value, beyond that the nearest
    binary64 number (ties to even), [Infinity] or [-Infinity] from 2^1024
    on. *)
Definition toNumber (z : Z) : number :=
  SF2Prim (binary_normalize prec emax z 0 false).

(** ** Points and the utility functions *)

Record Point := mkPoint { x : Z; y : Z }.

Definition Point_eq_dec (a b : Point) : {a = b} + {a <> b}.
Proof. decide equality; apply Z.eq_dec. Defined.

(** [a === b] on references to points of a point set. *)
Definition same (a b : Point) : bool :=
  if Point_eq_dec a b then true else false.

(** [distance = (a, b) => Math.sqrt((a.x - b.x) ** 2 + (a.y - b.y) ** 2)],
    every operation in binary64; [d ** 2] is the product [d * d]. *)
Definition distance (a b : Point) : number :=
  let dx := (toNumber (x a) - toNumber (x b))%float in
  let dy := (toNumber (y a) - toNumber (y b))%float in
  sqrt (dx * dx + dy * dy).

(** [pathCost]: the loop adds the consecutive distances from left to right,
    starting from [cost = 0]. *)
Fixpoint pathCost_from (cost : number) (path : list Point) : number :=
  match path with
  | a :: (b :: _) as rest => pathCost_from (cost + distance a b)%float rest
  | _ => cost
  end.

Definition pathCost (path : list Point) : number := pathCost_from 0%float path.

(** [factorial], called on the vertex count: [1] on [0] and [1], else
    [n * factorial(n - 1)] in binary64. *)
Fixpoint factorial (n : nat) : number :=
  match n with
  | O => 1%float
  | S m => match m with
           | O => 1%float
           | S _ => (toNumber (Z.of_nat n) * factorial m)%float
           end
  end.

Record Metrics := mkMetrics {
  possiblePaths : number;
  elapsedTime : number;
  currentDistance : number;
  minDistance : number
}.

(** The metrics [randomizeVerticesCallback] installs for [vertices] points. *)
Definition randomizeVertices_metrics (vertices : nat) : Metrics :=
  {| possiblePaths := factorial vertices;
     elapsedTime := 0%float;
     currentDistance := 0%float;
     minDistance := Infinity |}.

(** ** Array primitives of the source *)

(** A read that is never out of range in the source gets this default. *)
Definition origin : Point := mkPoint 0 0.

Definition at_ (l : list Point) (i : nat) : Point := nth i l origin.

Definition includes (l : list Point) (p : Point) : bool := existsb (same p) l.

(** [l.indexOf(p)], [-1] when absent. *)
Fixpoint indexOf_from (i : Z) (l : list Point) (p : Point) : Z :=
  match l with
  | [] => (-1)%Z
  | q :: rest => if same q p then i else indexOf_from (i + 1)%Z rest p
  end.

Definition indexOf (l : list Point) (p : Point) : Z := indexOf_from 0%Z l p.

(** [l.splice(start, 1)]: a negative [start] counts from the end. *)
Definition splice1 (start : Z) (l : list Point) : list Point :=
  let len := Z.of_nat (length l) in
  let s := if (start <? 0)%Z then Z.max (len + start) 0 else Z.min start len in
  firstn (Z.to_nat s) l ++ skipn (S (Z.to_nat s)) l.

(** [[...l.slice(0, i), p, ...l.slice(i)]], which is also what
    [l.splice(i, 0, p)] leaves in [l]. *)
Definition insertAt (i : nat) (p : Point) (l : list Point) : list Point :=
  firstn i l ++ p :: skipn i l.

(** [[...path, path[0]]] (on an empty path the source appends [undefined],
    shown here as nothing). *)
Definition closing (path : list Point) : list Point :=
  path ++ firstn 1 path.

(** [l.sort(cmp)]: a stable sort; [after a b] says that the comparator
    returned a positive number on [(a, b)], so that [b] goes first. *)
Section Sort.
Variable after : Point -> Point -> bool.

Fixpoint sort_insert (a : Point) (l : list Point) : list Point :=
  match l with
  | [] => [a]
  | b :: rest => if after a b then b :: sort_insert a rest else a :: l
  end.

Fixpoint sort (l : list Point) : list Point :=
  match l with
  | [] => []
  | a :: rest => sort_insert a (sort rest)
  end.
End Sort.

(** ** Runs *)

(** The arrays a strategy works on, and the snapshots it has passed to
    [setCurrentPath] so far (latest first). *)
Record State := mkState {
  path : list Point;
  remainingPoints : list Point;
  currentPath : list (list Point)
}.

(** One turn of a construction loop: it placed a point and awaited the
    timer, it left the loop with [break], it changed nothing and did not
    await either (the loop then spins on the same state), or it read a
    property of [null]. *)
Inductive Iteration :=
| Next (st : State)
| Break
| Idle
| Throw.

(** How a call ends: it returns, it throws a [TypeError], it never leaves
    its loop, or the bound on the number of loop turns that the model takes
    ([fuel]) was too small. *)
Inductive Completion (A : Type) :=
| Returned (a : A)
| TypeError
| Hangs
| OutOfFuel.

Arguments Returned {A} a.
Arguments TypeError {A}.
Arguments Hangs {A}.
Arguments OutOfFuel {A}.

(** [algorithmRef.current?.stopped] as a strategy reads it.  [startAlgorithm]
    installs [{ stopped: false }] and calls the strategy at once, so before
    the first [await] the flag is down; [flag n] is what the reference holds
    when the strategy resumes from its [n+1]-th [await]. *)
Definition stoppedAfter (flag : nat -> bool) (awaits : nat) : bool :=
  match awaits with
  | O => false
  | S n => flag n
  end.

(** [while (remainingPoints.length > 0 && !algorithmRef.current?.stopped)],
    entered after [awaits] timer waits.  The result is the state at the exit
    and the number of waits so far. *)
Fixpoint while_ (body : State -> Iteration) (flag : nat -> bool)
    (fuel awaits : nat) (st : State) : Completion (State * nat) :=
  match remainingPoints st with
  | [] => Returned (st, awaits)
  | _ :: _ =>
      if stoppedAfter flag awaits then Returned (st, awaits)
      else match fuel with
           | O => OutOfFuel
           | S fuel' =>
               match body st with
               | Next st' => while_ body flag fuel' (S awaits) st'
               | Break => Returned (st, awaits)
               | Idle => Hangs
               | Throw => TypeError
               end
           end
  end.

(** What a run leaves behind: the local arrays, the argument of
    [setBestPath] and the final cost when the closing block ran, the flag as
    read by the closing test, and the [points] array of the component.  (The
    metrics shown at each step play no part in the construction and are left
    out.) *)
Record Outcome := mkOutcome {
  locals : State;
  bestPath : option (list Point);
  finalCost : option number;
  stopped : bool;
  points : list Point
}.

(** [distance(a, p) + distance(p, b) - distance(a, b)], the expression the
    three insertion scans share. *)
Definition insertionCost (a p b : Point) : number :=
  (distance a p + distance p b - distance a b)%float.

(** *** nearestNeighbor *)

Definition nearestNeighbor_body (st : State) : Iteration :=
  let lastPoint := last (path st) origin in
  let sorted :=
    sort (fun a b => (0 <? distance lastPoint a - distance lastPoint b)%float)
         (remainingPoints st) in
  match sorted with
  | nextPoint :: rest =>
      let path' := path st ++ [nextPoint] in
      Next (mkState path' rest (path' :: currentPath st))
  | [] => Next (mkState (path st) [] (path st :: currentPath st))
  end.

(** [k] is [Math.floor(Math.random() * points.length)]; [points[k]] is
    [undefined] on the empty array only, where [pathCost] then reads
    [undefined.x]. *)
Definition nearestNeighbor (k : nat) (flag : nat -> bool) (fuel : nat)
    (points : list Point) : Completion Outcome :=
  match nth_error points k with
  | None => TypeError
  | Some startPoint =>
      let start :=
        mkState [startPoint]
                (filter (fun p => negb (same p startPoint)) points) [] in
      match while_ nearestNeighbor_body flag fuel 0 start with
      | Returned (st, awaits) =>
          if stoppedAfter flag awaits
          then Returned (mkOutcome st None None true points)
          else
            let closed := path st ++ [startPoint] in
            Returned (mkOutcome
                        (mkState closed (remainingPoints st) (currentPath st))
                        (Some closed) (Some (pathCost closed)) false points)
      | TypeError => TypeError
      | Hangs => Hangs
      | OutOfFuel => OutOfFuel
      end
  end.

(** *** arbitraryInsertion *)

(** The scan [for (let i = 0; i <= path.length; i++)]: the position and the
    cost it ends with. *)
Definition arbitraryInsertion_scan (path : list Point) (nextPoint : Point)
    : nat * number :=
  fold_left
    (fun (best : nat * number) (i : nat) =>
       let (bestPosition, bestCost) := best in
       let newPath := insertAt i nextPoint path in
       let cost := pathCost newPath in
       if (cost <? bestCost)%float then (i, cost) else (bestPosition, bestCost))
    (seq 0 (S (length path))) (0, Infinity).

Definition arbitraryInsertion_body (st : State) : Iteration :=
  match remainingPoints st with
  | [] => Break
  | nextPoint :: rest =>
      let (bestPosition, bestCost) := arbitraryInsertion_scan (path st) nextPoint in
      let path' := insertAt bestPosition nextPoint (path st) in
      Next (mkState path' rest (closing path' :: currentPath st))
  end.

(** When [points.find] finds no second point, every point is [startPoint]:
    [path] is [[startPoint, undefined]], nothing remains, the loop is not
    entered, the flag is still down, and [pathCost(finalPath)] reads
    [undefined.x]. *)
Definition arbitraryInsertion (k : nat) (flag : nat -> bool) (fuel : nat)
    (points : list Point) : Completion Outcome :=
  match nth_error points k with
  | None => TypeError
  | Some startPoint =>
      match find (fun p => negb (same p startPoint)) points with
      | None => TypeError
      | Some second =>
          let initial := [startPoint; second] in
          let start :=
            mkState initial
                    (filter (fun p => negb (includes initial p)) points) [] in
          match while_ arbitraryInsertion_body flag fuel 0 start with
          | Returned (st, awaits) =>
              if stoppedAfter flag awaits
              then Returned (mkOutcome st None None true points)
              else
                let finalPath := closing (path st) in
                Returned (mkOutcome st (Some finalPath)
                                    (Some (pathCost finalPath)) false points)
          | TypeError => TypeError
          | Hangs => Hangs
          | OutOfFuel => OutOfFuel
          end
      end
  end.

(** *** nearestInsertion *)

(** The nested scan over the remaining points and the edges
    [(path[i], path[(i + 1) % path.length])], written twice in the source
    (in [nearestInsertion] and in [convexHull]). *)
Definition nearest_scan (path remainingPoints : list Point)
    : option Point * number * nat :=
  fold_left
    (fun nearest point =>
       fold_left
         (fun (nearest : option Point * number * nat) (i : nat) =>
            let '(nearestPoint, nearestDistance, insertPosition) := nearest in
            let d := insertionCost (at_ path i) point
                                   (at_ path ((i + 1) mod length path)) in
            if (d <? nearestDistance)%float then (Some point, d, i + 1)
            else (nearestPoint, nearestDistance, insertPosition))
         (seq 0 (length path)) nearest)
    remainingPoints (None, Infinity, 0).

Definition nearestInsertion_body (st : State) : Iteration :=
  match nearest_scan (path st) (remainingPoints st) with
  | (Some nearestPoint, _, insertPosition) =>
      let path' := insertAt insertPosition nearestPoint (path st) in
      let remaining' :=
        splice1 (indexOf (remainingPoints st) nearestPoint) (remainingPoints st) in
      Next (mkState path' remaining' (closing path' :: currentPath st))
  | (None, _, _) => Idle
  end.

Definition nearestInsertion (k : nat) (flag : nat -> bool) (fuel : nat)
    (points : list Point) : Completion Outcome :=
  match nth_error points k with
  | None => TypeError
  | Some startPoint =>
      match find (fun p => negb (same p startPoint)) points with
      | None => TypeError
      | Some second =>
          let initial := [startPoint; second] in
          let start :=
            mkState initial
                    (filter (fun p => negb (includes initial p)) points) [] in
          match while_ nearestInsertion_body flag fuel 0 start with
          | Returned (st, awaits) =>
              if stoppedAfter flag awaits
              then Returned (mkOutcome st None None true points)
              else
                let closed := closing (path st) in
                Returned (mkOutcome
                            (mkState closed (remainingPoints st) (currentPath st))
                            (Some closed) (Some (pathCost closed)) false points)
          | TypeError => TypeError
          | Hangs => Hangs
          | OutOfFuel => OutOfFuel
          end
      end
  end.

(** *** furthestInsertion *)

(** The inner loop of the selection: the least distance from [freePoint] to
    a point of the path, [Infinity] on an empty path. *)
Definition minDistanceToPath (path : list Point) (freePoint : Point) : number :=
  fold_left
    (fun (minDistance : number) pathPoint =>
       let dist := distance freePoint pathPoint in
       if (dist <? minDistance)%float then dist else minDistance)
    path Infinity.

Definition furthest_select (path remainingPoints : list Point)
    : option Point * number :=
  fold_left
    (fun (selected : option Point * number) freePoint =>
       let (selectedPoint, selectedDistance) := selected in
       let m := minDistanceToPath path freePoint in
       if (selectedDistance <? m)%float then (Some freePoint, m)
       else (selectedPoint, selectedDistance))
    remainingPoints (None, 0%float).

Definition furthest_position (path : list Point) (selectedPoint : Point)
    : number * nat :=
  fold_left
    (fun (best : number * nat) (i : nat) =>
       let (bestCost, bestIdx) := best in
       let cost := insertionCost (at_ path i) selectedPoint
                                 (at_ path ((i + 1) mod length path)) in
       if (cost <? bestCost)%float then (cost, i + 1) else (bestCost, bestIdx))
    (seq 0 (length path)) (Infinity, 0).

Definition furthestInsertion_body (st : State) : Iteration :=
  match furthest_select (path st) (remainingPoints st) with
  | (Some selectedPoint, _) =>
      let (bestCost, bestIdx) := furthest_position (path st) selectedPoint in
      let path' := insertAt bestIdx selectedPoint (path st) in
      let remaining' :=
        filter (fun p => negb (same p selectedPoint)) (remainingPoints st) in
      Next (mkState path' remaining' (path' :: currentPath st))
  | (None, _) => Idle
  end.

(** The state when the main loop is reached: [[points[0]]], then the point
    the descending sort puts first, and the first snapshot. *)
Definition furthestInsertion_init (p0 : Point) (rest : list Point) : State :=
  let sorted :=
    sort (fun a b => (0 <? distance p0 b - distance p0 a)%float) rest in
  match sorted with
  | furthestPoint :: remaining =>
      mkState [p0; furthestPoint] remaining [[p0; furthestPoint]]
  | [] => mkState [p0] [] [[p0]]
  end.

(** On the empty array (for which the Start button is disabled) [path] is
    [[undefined]], shown here as the empty list. *)
Definition furthestInsertion (flag : nat -> bool) (fuel : nat)
    (points : list Point) : Completion Outcome :=
  match points with
  | [] =>
      if stoppedAfter flag 1
      then Returned (mkOutcome (mkState [] [] [[]]) None None true points)
      else TypeError
  | p0 :: rest =>
      match while_ furthestInsertion_body flag fuel 1
                   (furthestInsertion_init p0 rest) with
      | Returned (st, awaits) =>
          if stoppedAfter flag awaits
          then Returned (mkOutcome st None None true points)
          else
            let closed := closing (path st) in
            Returned (mkOutcome
                        (mkState closed (remainingPoints st) (currentPath st))
                        (Some closed) (Some (pathCost closed)) false points)
      | TypeError => TypeError
      | Hangs => Hangs
      | OutOfFuel => OutOfFuel
      end
  end.

(** *** convexHull *)

(** [cross = (o, a, b) =>
      (a.x - o.x) * (b.y - o.y) - (a.y - o.y) * (b.x - o.x)], in binary64. *)
Definition cross (o a b : Point) : number :=
  ((toNumber (x a) - toNumber (x o)) * (toNumber (y b) - toNumber (y o))
   - (toNumber (y a) - toNumber (y o)) * (toNumber (x b) - toNumber (x o)))%float.

(** [(a, b) => a.x - b.x || a.y - b.y]: the first difference unless it is
    [0] or [NaN]. *)
Definition lexicographic (a b : Point) : number :=
  let dx := (toNumber (x a) - toNumber (x b))%float in
  if (dx =? 0)%float || negb (dx =? dx)%float
  then (toNumber (y a) - toNumber (y b))%float
  else dx.

(** A half hull under construction is kept with its last element first.
    [while (hull.length >= 2 && cross(hull[hull.length - 2],
    hull[hull.length - 1], point) <= 0) hull.pop()] *)
Fixpoint hull_pop (hull : list Point) (point : Point) : list Point :=
  match hull with
  | b :: (a :: _) as rest =>
      if (cross a b point <=? 0)%float then hull_pop rest point else hull
  | _ => hull
  end.

Definition hull_push (hull : list Point) (point : Point) : list Point :=
  point :: hull_pop hull point.

Definition halfHull (sortedPoints : list Point) : list Point :=
  rev (fold_left hull_push sortedPoints []).

Definition sortedPoints (points : list Point) : list Point :=
  sort (fun a b => (0 <? lexicographic a b)%float) points.

Definition lowerHull (points : list Point) : list Point :=
  halfHull (sortedPoints points).

Definition upperHull (points : list Point) : list Point :=
  halfHull (rev (sortedPoints points)).

(** [[...lowerHull.slice(0, -1), ...upperHull.slice(0, -1)]] *)
Definition hullPoints (points : list Point) : list Point :=
  removelast (lowerHull points) ++ removelast (upperHull points).

Definition convexHull_body (st : State) : Iteration :=
  match nearest_scan (path st) (remainingPoints st) with
  | (Some nearestPoint, _, insertPosition) =>
      let path' := insertAt insertPosition nearestPoint (path st) in
      let remaining' :=
        filter (fun p => negb (same p nearestPoint)) (remainingPoints st) in
      Next (mkState path' remaining' (closing path' :: currentPath st))
  | (None, _, _) => Idle
  end.

Definition convexHull (flag : nat -> bool) (fuel : nat)
    (points : list Point) : Completion Outcome :=
  let hull := hullPoints points in
  let start :=
    mkState hull (filter (fun p => negb (includes hull p)) points)
            [closing hull] in
  match while_ convexHull_body flag fuel 1 start with
  | Returned (st, awaits) =>
      if stoppedAfter flag awaits
      then Returned (mkOutcome st None None true points)
      else
        let finalPath := closing (path st) in
        Returned (mkOutcome st (Some finalPath)
                            (Some (pathCost finalPath)) false points)
  | TypeError => TypeError
  | Hangs => Hangs
  | OutOfFuel => OutOfFuel
  end.

(** ** The run controller *)

Inductive Strategy :=
| NearestNeighbor
| ArbitraryInsertion
| NearestInsertion
| FurthestInsertion
| ConvexHull.

(** A run of one strategy; [k] is the random start index drawn by the three
    strategies that call [Math.random]. *)
Definition run (s : Strategy) (k : nat) (flag : nat -> bool) (fuel : nat)
    (points : list Point) : Completion Outcome :=
  match s with
  | NearestNeighbor => nearestNeighbor k flag fuel points
  | ArbitraryInsertion => arbitraryInsertion k flag fuel points
  | NearestInsertion => nearestInsertion k flag fuel points
  | FurthestInsertion => furthestInsertion flag fuel points
  | ConvexHull => convexHull flag fuel points
  end.

(** The state of the component that [startAlgorithm] reads and writes: the
    selected name, [isRunning], the two paths on display, the [stopped]
    flag of the token in [algorithmRef] (if any), and the console. *)
Record Controller := mkController {
  algorithm : string;
  isRunning : bool;
  shownPath : list Point;
  shownBest : list Point;
  algorithmRef : option bool;
  console : list string
}.

(** The [case] labels of the [switch]. *)
Definition strategyNamed (name : string) : option Strategy :=
  if String.eqb name "nearest-neighbor"%string then Some NearestNeighbor
  else if String.eqb name "arbitrary-insertion"%string then Some ArbitraryInsertion
  else if String.eqb name "nearest-insertion"%string then Some NearestInsertion
  else if String.eqb name "furthest-insertion"%string then Some FurthestInsertion
  else if String.eqb name "convex-hull"%string then Some ConvexHull
  else None.

(** [startAlgorithm] sets [isRunning], clears both paths, installs a fresh
    token and calls the strategy the name selects; on any other name it
    writes to the console and clears [isRunning] again.  It returns nothing
    and throws nothing: the result is the component after the call and the
    strategy launched, if any. *)
Definition startAlgorithm (ui : Controller)
    : Completion (Controller * option Strategy) :=
  let ui1 := mkController (algorithm ui) true [] [] (Some false) (console ui) in
  match strategyNamed (algorithm ui) with
  | Some s => Returned (ui1, Some s)
  | None =>
      Returned (mkController (algorithm ui) false [] [] (Some false)
                             (console ui ++ ["Algorithm not implemented"%string]),
                None)
  end.

(** ** The generator *)

(** [`${x},${y}`] on two integers. *)
Definition posKey (x y : Z) : string :=
  (NilEmpty.string_of_int (Z.to_int x) ++ ","
   ++ NilEmpty.string_of_int (Z.to_int y))%string.

(** The loop of [randomizeVerticesCallback].  [draw n] is the value of
    [Math.floor(Math.random() * 38 + 1)] at the [n]-th call of
    [Math.random]; every turn makes two calls.  [usedPositions] is the set of
    keys, kept in insertion order. *)
Fixpoint randomizeVertices_loop (vertices : nat) (draw : nat -> Z)
    (fuel turn : nat) (newPoints : list Point) (usedPositions : list string)
    : Completion (list Point) :=
  if length newPoints <? vertices then
    match fuel with
    | O => OutOfFuel
    | S fuel' =>
        let x := (draw (2 * turn)%nat * 20)%Z in
        let y := (draw (2 * turn + 1)%nat * 15)%Z in
        let key := posKey x y in
        if existsb (String.eqb key) usedPositions
        then randomizeVertices_loop vertices draw fuel' (S turn)
               newPoints usedPositions
        else randomizeVertices_loop vertices draw fuel' (S turn)
               (newPoints ++ [mkPoint x y]) (usedPositions ++ [key])
    end
  else Returned newPoints.

(** What [randomizeVerticesCallback] installs: the points and the metrics
    (both paths on display are emptied). *)
Definition randomizeVertices (vertices : nat) (draw : nat -> Z) (fuel : nat)
    : Completion (list Point * Metrics) :=
  match randomizeVertices_loop vertices draw fuel 0 [] [] with
  | Returned newPoints =>
      Returned (newPoints, randomizeVertices_metrics vertices)
  | TypeError => TypeError
  | Hangs => Hangs
  | OutOfFuel => OutOfFuel
  end.

(** ** The numbers on display *)

(** What [formatLargeNumber] returns: the result of one of two methods of
    the number, left uninterpreted. *)
Inductive Formatted :=
| toExponential (num : number) (fractionDigits : nat)
| toLocaleString (num : number).

Definition formatLargeNumber (num : number) : Formatted :=
  if (1000000 <? num)%float then toExponential num 2 else toLocaleString num.

(** [Math.min] on two numbers: [NaN] if one of them is, and [-0] below
    [+0]. *)
Definition Math_min (a b : number) : number :=
  if is_nan a || is_nan b then nan
  else if (a <? b)%float then a
  else if (b <? a)%float then b
  else if get_sign a then a else b.

(** The calls of [setMetrics] after [randomizeVertices]: the updater of a
    turn of a loop (and of the snapshot before it), the updater of a closing
    block, and the one of [resetVisualization].  [elapsed] is the reading of
    the clock. *)
Inductive MetricsUpdate :=
| StepShown (elapsed current : number)
| RunClosed (elapsed finalCost : number)
| ResetPressed.

Definition setMetrics (prev : Metrics) (update : MetricsUpdate) : Metrics :=
  match update with
  | StepShown elapsed current =>
      {| possiblePaths := possiblePaths prev;
         elapsedTime := elapsed;
         currentDistance := current;
         minDistance := minDistance prev |}
  | RunClosed elapsed finalCost =>
      {| possiblePaths := possiblePaths prev;
         elapsedTime := elapsed;
         currentDistance := finalCost;
         minDistance := Math_min finalCost (minDistance prev) |}
  | ResetPressed =>
      {| possiblePaths := possiblePaths prev;
         elapsedTime := 0%float;
         currentDistance := 0%float;
         minDistance := Infinity |}
  end.

(** ** The older untyped copy of the component *)

Module Jsx.

(** [for (let i = 0; i < path.length; i++)]: the position after the last
    point is not a candidate here. *)
Definition arbitraryInsertion_scan (path : list Point) (nextPoint : Point)
    : nat * number :=
  fold_left
    (fun (best : nat * number) (i : nat) =>
       let (bestPosition, bestCost) := best in
       let newPath := insertAt i nextPoint path in
       let cost := pathCost newPath in
       if (cost <? bestCost)%float then (i, cost) else (bestPosition, bestCost))
    (seq 0 (length path)) (0, Infinity).

(** No [break] here: an [undefined] next point would reach [pathCost]. *)
Definition arbitraryInsertion_body (st : State) : Iteration :=
  match remainingPoints st with
  | [] => Throw
  | nextPoint :: rest =>
      let (bestPosition, bestCost) := arbitraryInsertion_scan (path st) nextPoint in
      let path' := insertAt bestPosition nextPoint (path st) in
      Next (mkState path' rest (closing path' :: currentPath st))
  end.

Definition arbitraryInsertion (k : nat) (flag : nat -> bool) (fuel : nat)
    (points : list Point) : Completion Outcome :=
  match nth_error points k with
  | None => TypeError
  | Some startPoint =>
      match find (fun p => negb (same p startPoint)) points with
      | None => TypeError
      | Some second =>
          let initial := [startPoint; second] in
          let start :=
            mkState initial
                    (filter (fun p => negb (includes initial p)) points) [] in
          match while_ arbitraryInsertion_body flag fuel 0 start with
          | Returned (st, awaits) =>
              if stoppedAfter flag awaits
              then Returned (mkOutcome st None None true points)
              else
                let closed := closing (path st) in
                Returned (mkOutcome
                            (mkState closed (remainingPoints st) (currentPath st))
                            (Some closed) (Some (pathCost closed)) false points)
          | TypeError => TypeError
          | Hangs => Hangs
          | OutOfFuel => OutOfFuel
          end
      end
  end.

(** No test of [selectedPoint] here: on [null] the insertion scan reads
    [null.x] in its first turn. *)
Definition furthestInsertion_body (st : State) : Iteration :=
  match furthest_select (path st) (remainingPoints st) with
  | (Some selectedPoint, _) =>
      let (bestCost, bestIdx) := furthest_position (path st) selectedPoint in
      let path' := insertAt bestIdx selectedPoint (path st) in
      let remaining' :=
        filter (fun p => negb (same p selectedPoint)) (remainingPoints st) in
      Next (mkState path' remaining' (path' :: currentPath st))
  | (None, _) => Throw
  end.

(** [let path = [points.shift()]] takes the first point out of the
    component's own [points] array; [remainingPoints] is a copy of what is
    left.  With fewer than two points [path] holds [undefined] (shown as
    nothing) and the closing block reads [undefined.x]. *)
Definition furthestInsertion (flag : nat -> bool) (fuel : nat)
    (points : list Point) : Completion Outcome :=
  match points with
  | [] =>
      if stoppedAfter flag 1
      then Returned (mkOutcome (mkState [] [] [[]]) None None true [])
      else TypeError
  | p0 :: shifted =>
      match sort (fun a b => (0 <? distance p0 b - distance p0 a)%float)
                 shifted with
      | [] =>
          if stoppedAfter flag 1
          then Returned (mkOutcome (mkState [p0] [] [[p0]]) None None true
                                   shifted)
          else TypeError
      | furthestPoint :: remaining =>
          let start :=
            mkState [p0; furthestPoint] remaining [[p0; furthestPoint]] in
          match while_ furthestInsertion_body flag fuel 1 start with
          | Returned (st, awaits) =>
              if stoppedAfter flag awaits
              then Returned (mkOutcome st None None true shifted)
              else
                let closed := closing (path st) in
                Returned (mkOutcome
                            (mkState closed (remainingPoints st) (currentPath st))
                            (Some closed) (Some (pathCost closed)) false shifted)
          | TypeError => TypeError
          | Hangs => Hangs
          | OutOfFuel => OutOfFuel
          end
      end
  end.

End Jsx.

(** * The vocabulary of the statements

    Everything above is read off the source.  The definitions below only
    serve to state and prove facts about it. *)

(** ** Numbers *)

(** A number that compares equal to itself is not [NaN]. *)
Definition defined (a : number) : bool := (a =? a)%float.

(** [n!] in binary integers. *)
Fixpoint factorialZ (n : nat) : Z :=
  match n with
  | O => 1%Z
  | S m => (Z.of_nat n * factorialZ m)%Z
  end.

(** The integer a number holds, when it holds one. *)
Definition integerOf (a : number) : option Z :=
  match Prim2SF a with
  | S754_zero _ => Some 0%Z
  | S754_finite s m e =>
      if (0 <=? e)%Z then Some (cond_Zopp s (Zpos m * 2 ^ e))%Z
      else if (Zpos m mod 2 ^ (- e) =? 0)%Z
           then Some (cond_Zopp s (Zpos m / 2 ^ (- e)))%Z
           else None
  | _ => None
  end.

(** [factorial n] against [n!]: the same integer up to [22], another one
    within [n! / 2^45] of it beyond, and never [(n-1)!] from [2] on. *)
Definition factorial_against_exact (n : nat) : bool :=
  match integerOf (factorial n) with
  | Some v =>
      (if n <=? 22 then (v =? factorialZ n)%Z
       else negb (v =? factorialZ n)%Z
            && (Z.abs (v - factorialZ n) * 2 ^ 45 <=? factorialZ n)%Z)
      && (if 2 <=? n then negb (v =? factorialZ (n - 1))%Z else true)
  | None => false
  end.

(** ** Scans that keep the first best candidate

    The selection loops of the source share one shape: a running best value
    that a candidate replaces when it is strictly better.  [better] is
    [lower] for the minimising scans and [higher] for the maximising one. *)
Definition firstBest {A : Type} (key : A -> number)
    (better : number -> number -> bool) (l : list A)
    (start : option A * number) : option A * number :=
  fold_left
    (fun (best : option A * number) a =>
       if better (key a) (snd best) then (Some a, key a) else best)
    l start.

Definition lower (a b : number) : bool := (a <? b)%float.

Definition higher (a b : number) : bool := (b <? a)%float.

(** The cost of inserting [p] after [path[i]], as the insertion scans
    compute it. *)
Definition edgeCost (path : list Point) (p : Point) (i : nat) : number :=
  insertionCost (at_ path i) p (at_ path ((i + 1) mod length path)).

(** One turn of the inner loop of [nearest_scan]. *)
Definition nearest_step (path : list Point) (point : Point)
    (nearest : option Point * number * nat) (i : nat) :=
  let '(nearestPoint, nearestDistance, insertPosition) := nearest in
  let d := insertionCost (at_ path i) point
                         (at_ path ((i + 1) mod length path)) in
  if (d <? nearestDistance)%float then (Some point, d, i + 1)
  else (nearestPoint, nearestDistance, insertPosition).

(** The scan holds a remaining point and a position inside the path. *)
Definition chosen (path remaining : list Point)
    (nearest : option Point * number * nat) : Prop :=
  exists p d pos, nearest = (Some p, d, pos) /\ In p remaining /\
                  1 <= pos <= length path.

(** ** Point sets on which the costs are ordinary numbers

    The scans start from [Infinity] (or [0]) and only accept a candidate that
    is strictly below (above) it.  [regular] says that, as the program
    computes them, every insertion cost on the point set is below
    [Infinity] and two distinct points are a positive distance apart.
    [signsAgree] says that the difference the descending comparator of
    [furthestInsertion] returns has the sign of the comparison of the two
    distances.  Both are closed computations on a concrete point set; both
    hold on every point set of the grid ([regular_onGrid],
    [signsAgree_onGrid]) and [regular] fails on [farRow], where every
    distance from the first point is [Infinity]. *)

Definition regular (pts : list Point) : bool :=
  forallb
    (fun a =>
       forallb
         (fun p =>
            (same a p || (0 <? distance a p)%float)
            && forallb (fun b => (insertionCost a p b <? Infinity)%float) pts)
         pts)
    pts.

Definition signsAgree (p0 : Point) (rest : list Point) : bool :=
  forallb
    (fun a =>
       forallb
         (fun b =>
            Bool.eqb (0 <? distance p0 b - distance p0 a)%float
                     (distance p0 a <? distance p0 b)%float)
         rest)
    rest.

(** ** Runs *)

(** The loop body of each strategy. *)
Definition body_of (s : Strategy) : State -> Iteration :=
  match s with
  | NearestNeighbor => nearestNeighbor_body
  | ArbitraryInsertion => arbitraryInsertion_body
  | NearestInsertion => nearestInsertion_body
  | FurthestInsertion => furthestInsertion_body
  | ConvexHull => convexHull_body
  end.

(** What a strategy hands to [setCurrentPath] for the path it holds. *)
Definition snapshot (s : Strategy) (path : list Point) : list Point :=
  match s with
  | NearestNeighbor | FurthestInsertion => path
  | ArbitraryInsertion | NearestInsertion | ConvexHull => closing path
  end.

(** The path and the remaining points together are the point set. *)
Definition placed (pts : list Point) (st : State) : Prop :=
  Permutation (path st ++ remainingPoints st) pts /\ path st <> [].

(** One point went from the remaining ones into the path. *)
Definition moves_one (st st' : State) : Prop :=
  exists p, Permutation (remainingPoints st) (p :: remainingPoints st') /\
            Permutation (path st') (p :: path st).

(** The number of waits before the first loop test: none in
    [nearestNeighbor], [arbitraryInsertion] and [nearestInsertion], the one
    that follows the first snapshot in the two others. *)
Definition firstTest (s : Strategy) : nat :=
  match s with
  | NearestNeighbor | ArbitraryInsertion | NearestInsertion => 0
  | FurthestInsertion | ConvexHull => 1
  end.

(** [nearestNeighbor], [nearestInsertion] and [furthestInsertion] push the
    closing point onto [path] itself; the two others build [finalPath]. *)
Definition closesInPlace (s : Strategy) : bool :=
  match s with
  | NearestNeighbor | NearestInsertion | FurthestInsertion => true
  | ArbitraryInsertion | ConvexHull => false
  end.

(** The outcome of a run whose loop left the state [st] after [n] turns. *)
Definition finish (s : Strategy) (flag : nat -> bool) (pts : list Point)
    (st : State) (n : nat) : Outcome :=
  if stoppedAfter flag (firstTest s + n)
  then mkOutcome st None None true pts
  else
    let closed := closing (path st) in
    mkOutcome (if closesInPlace s
               then mkState closed (remainingPoints st) (currentPath st)
               else st)
              (Some closed) (Some (pathCost closed)) false pts.

(** The latest snapshot, when there is one, shows the path. *)
Definition shows (s : Strategy) (st : State) : Prop :=
  forall snap, hd_error (currentPath st) = Some snap ->
               snap = snapshot s (path st).

(** The number of points the loop of [s] finds to place. *)
Definition toPlace (s : Strategy) (pts : list Point) : nat :=
  match s with
  | NearestNeighbor => length pts - 1
  | ArbitraryInsertion | NearestInsertion | FurthestInsertion => length pts - 2
  | ConvexHull => length pts - length (hullPoints pts)
  end.

(** ** The hull in exact arithmetic

    The construction of the hull once more, with the cross product and the
    comparison of the coordinates computed on the integers.  On a point set
    on the grid it is the construction of the source (lemma
    [hullPoints_exact]); the geometry of the hull is proved on it. *)

Module Exact.

Definition cross (o a b : Point) : Z :=
  ((x a - x o) * (y b - y o) - (y a - y o) * (x b - x o))%Z.

Definition lexicographic (a b : Point) : Z :=
  if (x a - x b =? 0)%Z then (y a - y b)%Z else (x a - x b)%Z.

Fixpoint hull_pop (hull : list Point) (point : Point) : list Point :=
  match hull with
  | b :: (a :: _) as rest =>
      if (cross a b point <=? 0)%Z then hull_pop rest point else hull
  | _ => hull
  end.

Definition hull_push (hull : list Point) (point : Point) : list Point :=
  point :: hull_pop hull point.

Definition halfHull (sortedPoints : list Point) : list Point :=
  rev (fold_left hull_push sortedPoints []).

Definition sortedPoints (points : list Point) : list Point :=
  sort (fun a b => (0 <? lexicographic a b)%Z) points.

Definition lowerHull (points : list Point) : list Point :=
  halfHull (sortedPoints points).

Definition upperHull (points : list Point) : list Point :=
  halfHull (rev (sortedPoints points)).

Definition hullPoints (points : list Point) : list Point :=
  removelast (lowerHull points) ++ removelast (upperHull points).

End Exact.

(** ** Half hulls *)

(** The order in which a half hull takes the points: [sigma] is [1] for the
    lower half (increasing [x], then [y]) and [-1] for the upper half. *)
Definition before (sigma : Z) (a b : Point) : Prop :=
  (0 < sigma * (x b - x a) \/ (x a = x b /\ 0 < sigma * (y b - y a)))%Z.

(** A half hull, last element first: any three of its points, taken
    upwards, turn left. *)
Fixpoint turnsLeft (hull : list Point) : Prop :=
  match hull with
  | [] => True
  | c :: rest =>
      ForallOrdPairs (fun b a => (0 < Exact.cross a b c)%Z) rest /\ turnsLeft rest
  end.

(** Moreover every element comes after the ones below it. *)
Definition chain (sigma : Z) (hull : list Point) : Prop :=
  StronglySorted (fun q p => before sigma p q) hull /\ turnsLeft hull.

(** ** Inputs on which the theorems are exercised *)

Definition triangle : list Point :=
  [mkPoint 20 15; mkPoint 100 15; mkPoint 100 90].

Definition kite : list Point :=
  [mkPoint 80 15; mkPoint 100 30; mkPoint 100 15; mkPoint 120 15].

Definition scattered : list Point :=
  [mkPoint 60 75; mkPoint 20 75; mkPoint 40 45; mkPoint 40 60; mkPoint 100 90].

(** Point sets far off the canvas, on which the squares and the products
    of the differences of coordinates overflow to [Infinity]. *)
Definition farRow : list Point :=
  [mkPoint 0 0; mkPoint (2 ^ 600) 1; mkPoint (2 ^ 600) 3].

Definition farColumn : list Point :=
  [mkPoint 0 0; mkPoint (2 ^ 600) 3; mkPoint (2 ^ 600) 1].

Definition farTriangle : list Point :=
  [mkPoint 0 0; mkPoint (2 ^ 600) (2 ^ 600); mkPoint (2 ^ 601) (2 ^ 600)].

Definition neverStopped (n : nat) : bool := false.

(** The flag goes up during the second wait. *)
Definition stoppedInSecondWait (n : nat) : bool := Nat.leb 1 n.

(** [NoDup] on a concrete list, by computation. *)
Fixpoint distinct (l : list Point) : bool :=
  match l with
  | [] => true
  | a :: rest => negb (includes rest a) && distinct rest
  end.

(** The component at rest, with [name] selected. *)
Definition idle (name : string) : Controller :=
  mkController name false [] [] None [].

(** ** Further vocabulary *)

(** The position drawn in turn [t]. *)
Definition drawn (draw : nat -> Z) (t : nat) : Point :=
  mkPoint (draw (2 * t)%nat * 20)%Z (draw (2 * t + 1)%nat * 15)%Z.

(** A crossing of the grid that is not on the border of the canvas
    (800 by 600, lines every 20 and every 15). *)
Definition onGrid (p : Point) : Prop :=
  exists i j, (1 <= i <= 38 /\ 1 <= j <= 38 /\ x p = i * 20 /\ y p = j * 15)%Z.

Definition keyOf (p : Point) : string := posKey (x p) (y p).

(** [onGrid], as a test. *)
Definition onGridb (p : Point) : bool :=
  ((x p mod 20 =? 0) && (20 <=? x p) && (x p <=? 760)
   && (y p mod 15 =? 0) && (15 <=? y p) && (y p <=? 570))%Z.

Definition allOnGrid (pts : list Point) : bool := forallb onGridb pts.

(** The 38 x 38 positions. *)
Definition gridPoints : list Point :=
  flat_map (fun i => map (fun j => mkPoint (Z.of_nat i * 20)%Z (Z.of_nat j * 15)%Z)
                         (seq 1 38))
           (seq 1 38).

Fixpoint hasComma (s : string) : bool :=
  match s with
  | EmptyString => false
  | String c rest => Ascii.eqb c ","%char || hasComma rest
  end.

(** Eight draws, two in a turn: the second turn draws the position of the first again. *)
Definition eightDraws (n : nat) : Z :=
  nth n [4; 1; 4; 1; 5; 6; 2; 3]%Z 1%Z.

(** A random source that walks along the diagonal of the grid. *)
Definition diagonal (n : nat) : Z := Z.of_nat (1 + (n / 2) mod 38).

(** The count is a positive number below [Infinity], and it is above [1e6]
    exactly from 10 vertices on. *)
Definition factorial_ordinary (n : nat) : bool :=
  (0 <? factorial n)%float && (factorial n <? Infinity)%float
  && Bool.eqb (1000000 <? factorial n)%float (10 <=? n).

(** The final costs reported since the last reset, latest first. *)
Fixpoint closedCosts (updates : list MetricsUpdate) (costs : list number)
    : list number :=
  match updates with
  | [] => costs
  | StepShown _ _ :: rest => closedCosts rest costs
  | RunClosed _ finalCost :: rest => closedCosts rest (finalCost :: costs)
  | ResetPressed :: rest => closedCosts rest []
  end.

(** The distance between two crossings that are [i] columns and [j] rows
    apart. *)
Definition gridDistance (i j : nat) : number :=
  sqrt (toNumber ((Z.of_nat i * 20) ^ 2 + (Z.of_nat j * 15) ^ 2)).

(** It is a positive number below [Infinity], unless the two crossings
    are one. *)
Definition gridDistance_ordinary (i j : nat) : bool :=
  (Nat.eqb i 0 && Nat.eqb j 0)
  || ((0 <? gridDistance i j)%float && (gridDistance i j <? Infinity)%float).

(** The distances from [lastPoint] to the remaining points are numbers, and
    the difference that the ascending comparator of [nearestNeighbor]
    returns has the sign of their comparison. *)
Definition comparable (lastPoint : Point) (remaining : list Point) : bool :=
  forallb
    (fun a =>
       defined (distance lastPoint a)
       && forallb
            (fun b =>
               Bool.eqb (0 <? distance lastPoint a - distance lastPoint b)%float
                        (distance lastPoint b <? distance lastPoint a)%float)
            remaining)
    remaining.

(** The pairs the nested scan of [nearest_scan] visits, in its order. *)
Definition candidates (path remaining : list Point) : list (Point * nat) :=
  flat_map (fun point => map (pair point) (seq 0 (length path))) remaining.

(** The consecutive pairs of a sequence. *)
Definition edges (l : list Point) : list (Point * Point) := combine l (tl l).

(** [p] is on or to the left of every edge of a half hull under
    construction (kept last element first). *)
Definition leftOfStack (hull : list Point) (p : Point) : Prop :=
  forall b a, In (b, a) (edges hull) -> (0 <= Exact.cross a b p)%Z.

(** The invariant of the construction of a half hull: the stack is a chain
    of points already seen, that ends at the first of them and has the last
    of them on top, and every point seen is on or to the left of every edge
    of the stack. *)
Definition encloses (sigma : Z) (hull seen : list Point) : Prop :=
  chain sigma hull /\ incl hull seen /\ (hull = [] -> seen = []) /\
  (forall p, In p seen -> leftOfStack hull p) /\
  (forall p, In p seen -> p = hd origin hull \/ before sigma p (hd origin hull)) /\
  (forall p, In p seen ->
     p = last hull origin \/ before sigma (last hull origin) p).

(** Three points on one line. *)
Definition aligned : list Point :=
  [mkPoint 20 15; mkPoint 60 45; mkPoint 40 30].

(** The state in which a strategy reaches its loop. *)
Definition initial (s : Strategy) (k : nat) (points : list Point) : option State :=
  match s with
  | NearestNeighbor =>
      match nth_error points k with
      | Some startPoint =>
          Some (mkState [startPoint]
                        (filter (fun p => negb (same p startPoint)) points) [])
      | None => None
      end
  | ArbitraryInsertion | NearestInsertion =>
      match nth_error points k with
      | Some startPoint =>
          match find (fun p => negb (same p startPoint)) points with
          | Some second =>
              Some (mkState [startPoint; second]
                      (filter (fun p => negb (includes [startPoint; second] p))
                              points) [])
          | None => None
          end
      | None => None
      end
  | FurthestInsertion =>
      match points with
      | p0 :: rest => Some (furthestInsertion_init p0 rest)
      | [] => None
      end
  | ConvexHull =>
      Some (mkState (hullPoints points)
                    (filter (fun p => negb (includes (hullPoints points) p)) points)
                    [closing (hullPoints points)])
  end.

(** The point a strategy starts its path with: the point it draws, the
    first point of the array, or the first point of the hull. *)
Definition startOf (s : Strategy) (k : nat) (points : list Point) : Point :=
  match s with
  | NearestNeighbor | ArbitraryInsertion | NearestInsertion => nth k points origin
  | FurthestInsertion => hd origin points
  | ConvexHull => hd origin (sortedPoints points)
  end.

(** The state after [n] turns of a loop, each of which placed a point. *)
Fixpoint turns (body : State -> Iteration) (n : nat) (st : State) : option State :=
  match n with
  | O => Some st
  | S n' =>
      match body st with
      | Next st' => turns body n' st'
      | _ => None
      end
  end.

(** The flag goes up during the fourth wait. *)
Definition stoppedInFourthWait (n : nat) : bool := Nat.leb 3 n.

(** [l1] is [l2] with some elements left out: the elements of [l1] are met
    in [l2], in the same order. *)
Inductive Subsequence : list Point -> list Point -> Prop :=
| Subsequence_nil l : Subsequence [] l
| Subsequence_keep a l1 l2 : Subsequence l1 l2 -> Subsequence (a :: l1) (a :: l2)
| Subsequence_skip b l1 l2 : Subsequence l1 l2 -> Subsequence l1 (b :: l2).

(** ** The arithmetic of the source on the grid

    The differences of two coordinates of the grid, their products, the
    sums of their squares and the differences of two such products are
    integers that binary64 holds exactly.  Each of these facts is a check
    on the finitely many values concerned. *)

(** The integers from [lo] on, [n] of them. *)
Definition zrange (lo : Z) (n : nat) : list Z :=
  map (fun k => (lo + Z.of_nat k)%Z) (seq 0 n).

(** The columns (or rows) of the grid, and the differences of two of them. *)
Definition gridCells : list Z := zrange 1 38.

Definition gridSteps : list Z := zrange (-37) 75.

(** [a.x - b.x] and [a.y - b.y] in columns [i], [i'] (rows [i], [i']). *)
Definition differencesHold (i i' : Z) : bool :=
  Leibniz.eqb (toNumber (i * 20) - toNumber (i' * 20))%float
              (toNumber ((i - i') * 20))
  && Leibniz.eqb (toNumber (i * 15) - toNumber (i' * 15))%float
                 (toNumber ((i - i') * 15)).

(** [Math.sqrt(dx ** 2 + dy ** 2)] on two differences. *)
Definition rootHolds (di dj : Z) : bool :=
  Leibniz.eqb
    (sqrt (toNumber (di * 20) * toNumber (di * 20)
           + toNumber (dj * 15) * toNumber (dj * 15)))%float
    (gridDistance (Z.to_nat (Z.abs di)) (Z.to_nat (Z.abs dj))).

(** [p] is the number [300 * k]; when [k] is [0] it may be [-0]. *)
Definition holds300 (k : Z) (p : number) : bool :=
  Leibniz.eqb p (toNumber (300 * k))
  || ((k =? 0)%Z && Leibniz.eqb p (-0)%float).

(** The two products of [cross]. *)
Definition productsHold (di dj : Z) : bool :=
  holds300 (di * dj) (toNumber (di * 20) * toNumber (dj * 15))%float
  && holds300 (dj * di) (toNumber (dj * 15) * toNumber (di * 20))%float.

(** The products of a difference of columns and a difference of rows. *)
Definition productTable : list (Z * number) :=
  (0%Z, (-0)%float)
  :: map (fun k => (k, toNumber (300 * k))) (zrange (-1369) 2739).

(** [p - q <= 0] on two products. *)
Definition signHolds (a b : Z * number) : bool :=
  Bool.eqb (snd a - snd b <=? 0)%float (fst a <=? fst b)%Z.

(** The tests of [lexicographic] on a difference. *)
Definition stepHolds (d : Z) : bool :=
  Bool.eqb (toNumber (d * 20) =? 0)%float (d =? 0)%Z
  && (toNumber (d * 20) =? toNumber (d * 20))%float
  && Bool.eqb (0 <? toNumber (d * 20))%float (0 <? d)%Z
  && Bool.eqb (0 <? toNumber (d * 15))%float (0 <? d)%Z.

(** ** The size of the costs *)

(** A number of ordinary size: zero, or a finite number below [2^V] in
    absolute value. *)
Definition below (V : Z) (a : spec_float) : Prop :=
  match a with
  | S754_zero _ => True
  | S754_finite _ m e => (Zpos (digits2_pos m) + e <= V)%Z
  | _ => False
  end.

Definition belowb (V : Z) (a : spec_float) : bool :=
  match a with
  | S754_zero _ => true
  | S754_finite _ m e => (Zpos (digits2_pos m) + e <=? V)%Z
  | _ => false
  end.

(** The distances between two crossings of the grid. *)
Definition gridDistanceList : list number :=
  flat_map (fun i => map (gridDistance i) (seq 0 38)) (seq 0 38).

(** The difference [b - a] is positive exactly when [a < b]. *)
Definition signOfDifference (a b : number) : bool :=
  Bool.eqb (0 <? b - a)%float (a <? b)%float.

(** A distance is a number below [2^10]. *)
Definition smallNumber (d : number) : bool :=
  defined d && belowb 10 (Prim2SF d).

(** * Facts *)

(** ** The order of binary64 numbers

    [<] on [number] is the IEEE comparison; its laws are derived from the
    specification of the primitive, case by case on the two operands. *)

Module NumberOrder.

Ltac compare_cases :=
  repeat match goal with
  | |- context [Z.compare ?a ?b] => destruct (Z.compare_spec a b)
  | H : context [Z.compare ?a ?b] |- _ => destruct (Z.compare_spec a b)
  | |- context [Pos.compare_cont Eq ?a ?b] =>
      change (Pos.compare_cont Eq a b) with (Pos.compare a b);
      destruct (Pos.compare_spec a b)
  | H : context [Pos.compare_cont Eq ?a ?b] |- _ =>
      change (Pos.compare_cont Eq a b) with (Pos.compare a b) in H;
      destruct (Pos.compare_spec a b)
  end.

Ltac spec_order a b c :=
  unfold SFltb, SFeqb;
  destruct a as [[]|[]| |[] ? ?], b as [[]|[]| |[] ? ?], c as [[]|[]| |[] ? ?];
  simpl; try discriminate; try reflexivity; intros; compare_cases;
  simpl in *; try discriminate; try reflexivity; try lia.

Lemma SFltb_trans a b c :
  SFltb a b = true -> SFltb b c = true -> SFltb a c = true.
Proof. spec_order a b c. Qed.

Lemma SFltb_irrefl a : SFltb a a = false.
Proof.
  unfold SFltb. destruct a as [[]|[]| |[] m e]; simpl; try reflexivity;
    rewrite Z.compare_refl;
    change (Pos.compare_cont Eq m m) with (Pos.compare m m);
    rewrite Pos.compare_refl; reflexivity.
Qed.

Lemma SFltb_below a b c :
  SFltb a b = false -> SFeqb b b = true -> SFltb a c = true ->
  SFltb b c = true.
Proof. spec_order a b c. Qed.

Lemma SFeqb_ltb a b c :
  SFeqb a b = true -> SFltb b c = true -> SFltb a c = true.
Proof. spec_order a b c. Qed.

Lemma SFltb_eqb a b c :
  SFeqb a b = true -> SFltb c b = true -> SFltb c a = true.
Proof. spec_order a b c. Qed.

Lemma SFltb_defined a b : SFltb a b = true -> SFeqb a a = true.
Proof.
  unfold SFltb, SFeqb.
  destruct a as [[]|[]| |[] m e], b as [[]|[]| |[] ? ?]; simpl;
    try discriminate; try reflexivity; intros _;
    rewrite Z.compare_refl;
    change (Pos.compare_cont Eq m m) with (Pos.compare m m);
    rewrite Pos.compare_refl; reflexivity.
Qed.

Lemma SFltb_defined_r a b : SFltb a b = true -> SFeqb b b = true.
Proof.
  unfold SFltb, SFeqb.
  destruct a as [[]|[]| |[] ma ea], b as [[]|[]| |[] m e]; simpl;
    try discriminate; try reflexivity; intros _;
    rewrite Z.compare_refl;
    change (Pos.compare_cont Eq m m) with (Pos.compare m m);
    rewrite Pos.compare_refl; reflexivity.
Qed.

Lemma SFltb_top a b :
  SFltb a (S754_infinity false) = false ->
  SFltb b (S754_infinity false) = false -> SFltb b a = false.
Proof.
  unfold SFltb.
  destruct a as [[]|[]| |[] ? ?], b as [[]|[]| |[] ? ?]; simpl;
    try discriminate; try reflexivity.
Qed.

Lemma ltb_trans (a b c : number) :
  (a <? b)%float = true -> (b <? c)%float = true -> (a <? c)%float = true.
Proof. rewrite !ltb_spec. apply SFltb_trans. Qed.

Lemma ltb_irrefl (a : number) : (a <? a)%float = false.
Proof. rewrite ltb_spec. apply SFltb_irrefl. Qed.

Lemma ltb_asym (a b : number) :
  (a <? b)%float = true -> (b <? a)%float = false.
Proof.
  intros Hab. destruct (b <? a)%float eqn:Hba; [|reflexivity].
  rewrite <- (ltb_irrefl a). symmetry. exact (ltb_trans _ _ _ Hab Hba).
Qed.

Lemma ltb_defined (a b : number) : (a <? b)%float = true -> defined a = true.
Proof. unfold defined. rewrite ltb_spec, eqb_spec. apply SFltb_defined. Qed.

(** What is not above a defined [b] and below [c] puts [b] below [c]. *)
Lemma ltb_below (a b c : number) :
  (a <? b)%float = false -> defined b = true -> (a <? c)%float = true ->
  (b <? c)%float = true.
Proof. unfold defined. rewrite !ltb_spec, eqb_spec. apply SFltb_below. Qed.

Lemma eqb_ltb (a b c : number) :
  (a =? b)%float = true -> (b <? c)%float = true -> (a <? c)%float = true.
Proof. rewrite !ltb_spec, eqb_spec. apply SFeqb_ltb. Qed.

Lemma ltb_defined_r (a b : number) : (a <? b)%float = true -> defined b = true.
Proof. unfold defined. rewrite ltb_spec, eqb_spec. apply SFltb_defined_r. Qed.

(** What is not below [Infinity] has nothing of that kind below it. *)
Lemma ltb_top (a b : number) :
  (a <? Infinity)%float = false -> (b <? Infinity)%float = false ->
  (b <? a)%float = false.
Proof.
  rewrite !ltb_spec.
  change (Prim2SF Infinity) with (S754_infinity false).
  apply SFltb_top.
Qed.

Lemma ltb_eqb (a b c : number) :
  (a =? b)%float = true -> (c <? b)%float = true -> (c <? a)%float = true.
Proof. rewrite !ltb_spec, eqb_spec. apply SFltb_eqb. Qed.

End NumberOrder.

(** ** The arithmetic of the source on the grid *)

Lemma In_zrange lo n z : (lo <= z < lo + Z.of_nat n)%Z -> In z (zrange lo n).
Proof.
  intros H. unfold zrange. apply in_map_iff.
  exists (Z.to_nat (z - lo)). split; [lia | apply in_seq; lia].
Qed.

Lemma In_gridCells i : (1 <= i <= 38)%Z -> In i gridCells.
Proof. intros H. apply In_zrange. lia. Qed.

Lemma In_gridSteps d : (-37 <= d <= 37)%Z -> In d gridSteps.
Proof. intros H. apply In_zrange. lia. Qed.

Lemma differences_checked :
  forallb (fun i => forallb (differencesHold i) gridCells) gridCells = true.
Proof. vm_compute. reflexivity. Qed.

Lemma roots_checked :
  forallb (fun di => forallb (rootHolds di) gridSteps) gridSteps = true.
Proof. vm_compute. reflexivity. Qed.

Lemma products_checked :
  forallb (fun di => forallb (productsHold di) gridSteps) gridSteps = true.
Proof. vm_compute. reflexivity. Qed.

Lemma signs_checked :
  forallb (fun a => forallb (signHolds a) productTable) productTable = true.
Proof. vm_compute. reflexivity. Qed.

Lemma steps_checked : forallb stepHolds gridSteps = true.
Proof. vm_compute. reflexivity. Qed.

Lemma gridDistances_checked :
  forallb (fun i => forallb (gridDistance_ordinary i) (seq 0 38)) (seq 0 38)
  = true.
Proof. vm_compute. reflexivity. Qed.

Lemma gridDistance_checked i j :
  i < 38 -> j < 38 ->
  (i = 0 /\ j = 0) \/
  ((0 <? gridDistance i j)%float = true /\
   (gridDistance i j <? Infinity)%float = true).
Proof.
  intros Hi Hj.
  assert (H := proj1 (forallb_forall _ _) gridDistances_checked i
                 ltac:(apply in_seq; lia)).
  assert (H' := proj1 (forallb_forall _ _) H j ltac:(apply in_seq; lia)).
  unfold gridDistance_ordinary in H'. apply orb_prop in H'.
  destruct H' as [H'|H']; apply andb_prop in H'; destruct H' as [H1 H2].
  - left. apply Nat.eqb_eq in H1, H2. now split.
  - right. now split.
Qed.

(** The difference of two coordinates of the grid. *)
Lemma grid_difference i i' :
  (1 <= i <= 38)%Z -> (1 <= i' <= 38)%Z ->
  (toNumber (i * 20) - toNumber (i' * 20))%float = toNumber ((i - i') * 20) /\
  (toNumber (i * 15) - toNumber (i' * 15))%float = toNumber ((i - i') * 15).
Proof.
  intros Hi Hi'.
  assert (H := proj1 (forallb_forall _ gridCells) differences_checked
                 i (In_gridCells i Hi)).
  assert (H' := proj1 (forallb_forall _ gridCells) H i' (In_gridCells i' Hi')).
  unfold differencesHold in H'. apply andb_prop in H'. destruct H' as [H1 H2].
  split; now apply Leibniz.eqb_spec.
Qed.

(** The root of the sum of the squares of two differences. *)
Lemma grid_root di dj :
  (-37 <= di <= 37)%Z -> (-37 <= dj <= 37)%Z ->
  (sqrt (toNumber (di * 20) * toNumber (di * 20)
         + toNumber (dj * 15) * toNumber (dj * 15)))%float
  = gridDistance (Z.to_nat (Z.abs di)) (Z.to_nat (Z.abs dj)).
Proof.
  intros Hi Hj.
  assert (H := proj1 (forallb_forall _ gridSteps) roots_checked
                 di (In_gridSteps di Hi)).
  assert (H' := proj1 (forallb_forall _ gridSteps) H dj (In_gridSteps dj Hj)).
  now apply Leibniz.eqb_spec.
Qed.

Lemma holds300_listed k p :
  (-1369 <= k <= 1369)%Z -> holds300 k p = true -> In (k, p) productTable.
Proof.
  intros Hk H. unfold holds300 in H. apply orb_prop in H.
  destruct H as [H|H].
  - apply Leibniz.eqb_spec in H. subst p. unfold productTable. apply in_cons.
    apply (in_map (fun k => (k, toNumber (300 * k)))).
    apply In_zrange. lia.
  - apply andb_prop in H. destruct H as [H1 H2].
    apply Z.eqb_eq in H1. apply Leibniz.eqb_spec in H2. subst.
    unfold productTable. apply in_eq.
Qed.

(** The two products of [cross]. *)
Lemma grid_products di dj :
  (-37 <= di <= 37)%Z -> (-37 <= dj <= 37)%Z ->
  In (di * dj, (toNumber (di * 20) * toNumber (dj * 15))%float)%Z productTable /\
  In (dj * di, (toNumber (dj * 15) * toNumber (di * 20))%float)%Z productTable.
Proof.
  intros Hi Hj.
  assert (H := proj1 (forallb_forall _ gridSteps) products_checked
                 di (In_gridSteps di Hi)).
  assert (H' := proj1 (forallb_forall _ gridSteps) H dj (In_gridSteps dj Hj)).
  unfold productsHold in H'. apply andb_prop in H'. destruct H' as [H1 H2].
  assert (Hk : (-1369 <= di * dj <= 1369)%Z) by nia.
  split; apply holds300_listed; try assumption. lia.
Qed.

(** The test [p - q <= 0] on two products. *)
Lemma grid_sign a b :
  In a productTable -> In b productTable ->
  (snd a - snd b <=? 0)%float = (fst a <=? fst b)%Z.
Proof.
  intros Ha Hb.
  assert (H := proj1 (forallb_forall _ productTable) signs_checked a Ha).
  assert (H' := proj1 (forallb_forall _ productTable) H b Hb).
  now apply Bool.eqb_prop.
Qed.

Lemma grid_step d :
  (-37 <= d <= 37)%Z ->
  (toNumber (d * 20) =? 0)%float = (d =? 0)%Z /\
  (toNumber (d * 20) =? toNumber (d * 20))%float = true /\
  (0 <? toNumber (d * 20))%float = (0 <? d)%Z /\
  (0 <? toNumber (d * 15))%float = (0 <? d)%Z.
Proof.
  intros Hd.
  assert (H := proj1 (forallb_forall _ gridSteps) steps_checked
                 d (In_gridSteps d Hd)).
  unfold stepHolds in H.
  apply andb_prop in H. destruct H as [H H4].
  apply andb_prop in H. destruct H as [H H3].
  apply andb_prop in H. destruct H as [H1 H2].
  apply Bool.eqb_prop in H1, H3, H4. repeat split; assumption.
Qed.

(** ** Distances between crossings of the grid *)

Lemma distance_gridDistance a b :
  onGrid a -> onGrid b ->
  exists i j, i < 38 /\ j < 38 /\ distance a b = gridDistance i j /\
              (i = 0 -> j = 0 -> a = b).
Proof.
  intros (ia & ja & Hia & Hja & Hxa & Hya) (ib & jb & Hib & Hjb & Hxb & Hyb).
  exists (Z.to_nat (Z.abs (ia - ib))), (Z.to_nat (Z.abs (ja - jb))).
  split; [lia|]. split; [lia|]. split.
  - unfold distance. rewrite Hxa, Hya, Hxb, Hyb. cbv zeta.
    rewrite (proj1 (grid_difference ia ib Hia Hib)).
    rewrite (proj2 (grid_difference ja jb Hja Hjb)).
    apply grid_root; lia.
  - intros Hi Hj. destruct a as [xa ya], b as [xb yb]. cbn [x y] in *.
    f_equal; lia.
Qed.

Lemma distance_sym a b : onGrid a -> onGrid b -> distance a b = distance b a.
Proof.
  intros (ia & ja & Hia & Hja & Hxa & Hya) (ib & jb & Hib & Hjb & Hxb & Hyb).
  unfold distance. rewrite Hxa, Hya, Hxb, Hyb. cbv zeta.
  rewrite (proj1 (grid_difference ia ib Hia Hib)).
  rewrite (proj2 (grid_difference ja jb Hja Hjb)).
  rewrite (proj1 (grid_difference ib ia Hib Hia)).
  rewrite (proj2 (grid_difference jb ja Hjb Hja)).
  rewrite !grid_root by lia.
  replace (ib - ia)%Z with (- (ia - ib))%Z by lia.
  replace (jb - ja)%Z with (- (ja - jb))%Z by lia.
  now rewrite !Z.abs_opp.
Qed.

(** ** The size of a sum and of a difference *)

Module NumberSize.

Local Open Scope Z_scope.

Lemma belowb_below V a : belowb V a = true -> below V a.
Proof. destruct a; simpl; intros H; try discriminate; auto. now apply Z.leb_le. Qed.

Lemma below_le V V' a : V <= V' -> below V a -> below V' a.
Proof. destruct a; simpl; auto. lia. Qed.

(** The number of binary digits. *)
Lemma digits2_pos_size p : digits2_pos p = Pos.size p.
Proof. induction p; simpl; congruence. Qed.

Lemma digits2_pos_gt p : Zpos p < 2 ^ Zpos (digits2_pos p).
Proof.
  rewrite digits2_pos_size. pose proof (Pos.size_gt p) as H.
  apply Pos2Z.pos_lt_pos in H. now rewrite Pos2Z.inj_pow in H.
Qed.

Lemma digits2_pos_le p : 2 ^ Zpos (digits2_pos p) <= 2 * Zpos p.
Proof.
  rewrite digits2_pos_size. pose proof (Pos.size_le p) as H.
  apply Pos2Z.pos_le_pos in H. now rewrite Pos2Z.inj_pow in H.
Qed.

Lemma Zdigits2_nonneg z : 0 <= Zdigits2 z.
Proof. destruct z; simpl; lia. Qed.

Lemma Zdigits2_bound z k : 0 <= z -> 0 <= k -> z < 2 ^ k -> Zdigits2 z <= k.
Proof.
  intros Hz Hk Hlt. destruct z as [|p|p]; simpl; try lia.
  destruct (Z_le_gt_dec (Zpos (digits2_pos p)) k) as [H|H]; [assumption|].
  exfalso. pose proof (digits2_pos_le p) as Hle.
  assert (2 ^ (k + 1) <= 2 ^ Zpos (digits2_pos p))
    by (apply Z.pow_le_mono_r; lia).
  rewrite Z.pow_add_r in H0 by lia. lia.
Qed.

Lemma Zdigits2_gt z : 0 <= z -> z < 2 ^ Zdigits2 z.
Proof.
  intros Hz. destruct z as [|p|p]; simpl; try lia. apply digits2_pos_gt.
Qed.

Lemma digits2_pos_shift m d :
  Zpos (digits2_pos (Pos.iter xO m d)) = Zpos (digits2_pos m) + Zpos d.
Proof.
  induction d as [|d IH] using Pos.peano_ind.
  - simpl. lia.
  - rewrite Pos.iter_succ. simpl digits2_pos. lia.
Qed.

(** Shifts to the right. *)
Lemma shr_1_spec mrs : 0 <= shr_m mrs -> shr_m (shr_1 mrs) = shr_m mrs / 2.
Proof.
  destruct mrs as [m r s]. simpl. intros Hm.
  destruct m as [|q|q]; [reflexivity | | lia].
  destruct q as [p|p|]; simpl.
  - change (Zpos p~1) with (2 * Zpos p + 1).
    apply Z.div_unique with (r := 1); lia.
  - change (Zpos p~0) with (2 * Zpos p).
    apply Z.div_unique with (r := 0); lia.
  - reflexivity.
Qed.

Lemma iter_pos_shr_1 p mrs :
  0 <= shr_m mrs ->
  shr_m (iter_pos shr_1 p mrs) = shr_m mrs / 2 ^ Zpos p.
Proof.
  revert mrs. induction p as [p IH|p IH|]; intros mrs Hm; simpl iter_pos.
  - assert (H1 : 0 <= shr_m (shr_1 mrs))
      by (rewrite shr_1_spec by assumption; apply Z.div_pos; lia).
    assert (H2 : 0 <= shr_m (iter_pos shr_1 p (shr_1 mrs)))
      by (rewrite IH by assumption; apply Z.div_pos; lia).
    rewrite IH, IH, shr_1_spec by assumption.
    rewrite !Z.div_div by lia. f_equal.
    assert (E : Zpos p~1 = Zpos p + Zpos p + 1) by lia.
    rewrite E, !Z.pow_add_r by lia. change (2 ^ 1) with 2. ring.
  - assert (H2 : 0 <= shr_m (iter_pos shr_1 p mrs))
      by (rewrite IH by assumption; apply Z.div_pos; lia).
    rewrite IH, IH by assumption.
    rewrite !Z.div_div by lia. f_equal.
    assert (E : Zpos p~0 = Zpos p + Zpos p) by lia.
    rewrite E, !Z.pow_add_r by lia. ring.
  - rewrite shr_1_spec by assumption. reflexivity.
Qed.

Lemma shr_record_of_loc_m m l : shr_m (shr_record_of_loc m l) = m.
Proof. destruct l as [|[]]; reflexivity. Qed.

Lemma Zdigits2_shift z n :
  0 <= z -> 0 < n -> Zdigits2 (z / 2 ^ n) + n <= Z.max n (Zdigits2 z).
Proof.
  intros Hz Hn.
  destruct (Z_le_gt_dec n (Zdigits2 z)) as [H|H].
  - assert (Zdigits2 (z / 2 ^ n) <= Zdigits2 z - n).
    { apply Zdigits2_bound; [apply Z.div_pos; lia | lia |].
      apply Z.div_lt_upper_bound; [lia|].
      rewrite <- Z.pow_add_r by lia.
      replace (n + (Zdigits2 z - n)) with (Zdigits2 z) by lia.
      now apply Zdigits2_gt. }
    lia.
  - assert (E : z / 2 ^ n = 0).
    { apply Z.div_small. split; [assumption|].
      apply Z.lt_le_trans with (2 ^ Zdigits2 z); [now apply Zdigits2_gt|].
      apply Z.pow_le_mono_r; lia. }
    rewrite E. simpl. lia.
Qed.

(** [shr_fexp] keeps a mantissa and an exponent below the bound. *)
Lemma shr_fexp_below m e l U :
  0 <= m -> Zdigits2 m + e <= U -> e <= U -> -1074 <= U ->
  0 <= shr_m (fst (shr_fexp prec emax m e l)) /\
  Zdigits2 (shr_m (fst (shr_fexp prec emax m e l)))
    + snd (shr_fexp prec emax m e l) <= U /\
  snd (shr_fexp prec emax m e l) <= U.
Proof.
  intros Hm HW He HU. unfold shr_fexp, shr.
  set (W := Zdigits2 m + e) in *.
  assert (Hf : fexp prec emax W = Z.max (W - 53) (-1074)) by reflexivity.
  destruct (fexp prec emax W - e) as [|p|p] eqn:En; cbn [fst snd];
    rewrite ?shr_record_of_loc_m; try (repeat split; assumption).
  rewrite iter_pos_shr_1 by (now rewrite shr_record_of_loc_m).
  rewrite shr_record_of_loc_m.
  split; [apply Z.div_pos; lia|].
  pose proof (Zdigits2_shift m (Zpos p) Hm ltac:(lia)) as Hs.
  pose proof (Zdigits2_nonneg m). unfold W in *. lia.
Qed.

Lemma round_nearest_even_range m l :
  m <= round_nearest_even m l <= m + 1.
Proof.
  unfold round_nearest_even. destruct l as [|[]]; try lia.
  destruct (Z.even m); lia.
Qed.

Lemma Zdigits2_succ m m' : 0 <= m -> m <= m' <= m + 1 -> Zdigits2 m' <= Zdigits2 m + 1.
Proof.
  intros Hm Hr. pose proof (Zdigits2_nonneg m).
  apply Zdigits2_bound; [lia | lia |].
  pose proof (Zdigits2_gt m Hm).
  rewrite Z.pow_add_r by lia. change (2 ^ 1) with 2. lia.
Qed.

Lemma binary_round_aux_below sx m e l U :
  0 <= m -> Zdigits2 m + e <= U -> e <= U -> -1074 <= U -> U + 1 <= 971 ->
  below (U + 1) (binary_round_aux prec emax sx m e l).
Proof.
  intros Hm HW He HU Hmax. unfold binary_round_aux.
  pose proof (shr_fexp_below m e l U Hm HW He HU) as (H1 & H2 & H3).
  destruct (shr_fexp prec emax m e l) as [mrs' e']. cbn [fst snd] in *.
  set (m2 := round_nearest_even (shr_m mrs') (loc_of_shr_record mrs')).
  assert (Hr := round_nearest_even_range (shr_m mrs') (loc_of_shr_record mrs')).
  fold m2 in Hr.
  assert (Hd := Zdigits2_succ (shr_m mrs') m2 H1 Hr).
  pose proof (shr_fexp_below m2 e' loc_Exact (U + 1)) as (G1 & G2 & G3);
    try lia.
  destruct (shr_fexp prec emax m2 e' loc_Exact) as [mrs'' e'']. cbn [fst snd] in *.
  destruct (shr_m mrs'') as [|q|q]; [exact I | | lia].
  replace (e'' <=? emax - prec) with true
    by (symmetry; apply Z.leb_le; change (emax - prec) with 971; lia).
  simpl. simpl in G2. exact G2.
Qed.

Lemma binary_round_below sx mx ex U :
  Zpos (digits2_pos mx) + ex <= U -> -1074 <= U -> U + 1 <= 971 ->
  below (U + 1) (binary_round prec emax sx mx ex).
Proof.
  intros HW HU Hmax. unfold binary_round, shl_align.
  destruct (fexp prec emax (Zpos (digits2_pos mx) + ex) - ex) as [|d|d] eqn:Ed;
    apply binary_round_aux_below; try assumption; try lia;
    cbn [Zdigits2]; try lia.
  rewrite digits2_pos_shift. lia.
Qed.

Lemma binary_normalize_below m e szero U :
  Zdigits2 m + e <= U -> -1074 <= U -> U + 1 <= 971 ->
  below (U + 1) (binary_normalize prec emax m e szero).
Proof.
  intros HW HU Hmax. unfold binary_normalize.
  destruct m as [|p|p]; [exact I | |]; now apply binary_round_below.
Qed.

Lemma shl_align_digits mx ex ez :
  ez <= ex ->
  Zpos (digits2_pos (fst (shl_align mx ex ez))) + ez = Zpos (digits2_pos mx) + ex.
Proof.
  intros H. unfold shl_align.
  destruct (ez - ex) as [|d|d] eqn:Ed; cbn [fst]; try lia.
  rewrite digits2_pos_shift. lia.
Qed.

(** The mantissa of a sum or of a difference. *)
Lemma sum_digits (m1 m2 : positive) (s1 s2 : Z) ez V :
  s1 = Zpos m1 \/ s1 = Zneg m1 -> s2 = Zpos m2 \/ s2 = Zneg m2 ->
  Zpos (digits2_pos m1) + ez <= V -> Zpos (digits2_pos m2) + ez <= V ->
  Zdigits2 (s1 + s2) + ez <= V + 1.
Proof.
  intros Hs1 Hs2 H1 H2.
  assert (Hk : 0 <= V - ez) by lia.
  assert (B1 : Zpos m1 < 2 ^ (V - ez)).
  { apply Z.lt_le_trans with (2 ^ Zpos (digits2_pos m1)); [apply digits2_pos_gt|].
    apply Z.pow_le_mono_r; lia. }
  assert (B2 : Zpos m2 < 2 ^ (V - ez)).
  { apply Z.lt_le_trans with (2 ^ Zpos (digits2_pos m2)); [apply digits2_pos_gt|].
    apply Z.pow_le_mono_r; lia. }
  assert (Hp : 2 ^ (V - ez + 1) = 2 * 2 ^ (V - ez))
    by (rewrite Z.pow_add_r by lia; change (2 ^ 1) with 2; ring).
  assert (Habs : Z.abs (s1 + s2) < 2 ^ (V - ez + 1)) by lia.
  assert (Zdigits2 (s1 + s2) <= V - ez + 1).
  { replace (Zdigits2 (s1 + s2)) with (Zdigits2 (Z.abs (s1 + s2)))
      by (destruct (s1 + s2); reflexivity).
    apply Zdigits2_bound; [apply Z.abs_nonneg | lia | assumption]. }
  lia.
Qed.

Lemma cond_Zopp_cases s m :
  cond_Zopp s (Zpos m) = Zpos m \/ cond_Zopp s (Zpos m) = Zneg m.
Proof. destruct s; simpl; auto. Qed.

Lemma cond_Zopp_opp_cases s m :
  - cond_Zopp s (Zpos m) = Zpos m \/ - cond_Zopp s (Zpos m) = Zneg m.
Proof. destruct s; simpl; auto. Qed.

Lemma SFadd_below V a b :
  below V a -> below V b -> -1075 <= V -> V + 2 <= 971 ->
  below (V + 2) (SFadd prec emax a b).
Proof.
  intros Ha Hb HV Hmax.
  destruct a as [sa|sa| |sa ma ea], b as [sb|sb| |sb mb eb];
    try contradiction; cbn [SFadd below] in *.
  - destruct sa, sb; exact I.
  - lia.
  - lia.
  - replace (V + 2) with ((V + 1) + 1) by lia.
    apply binary_normalize_below; try lia.
    apply sum_digits with (m1 := fst (shl_align ma ea (Z.min ea eb)))
                          (m2 := fst (shl_align mb eb (Z.min ea eb)));
      try apply cond_Zopp_cases;
      rewrite shl_align_digits by lia; lia.
Qed.

Lemma SFsub_below V a b :
  below V a -> below V b -> -1075 <= V -> V + 2 <= 971 ->
  below (V + 2) (SFsub prec emax a b).
Proof.
  intros Ha Hb HV Hmax.
  destruct a as [sa|sa| |sa ma ea], b as [sb|sb| |sb mb eb];
    try contradiction; cbn [SFsub below] in *.
  - destruct sa, sb; exact I.
  - lia.
  - lia.
  - replace (V + 2) with ((V + 1) + 1) by lia.
    apply binary_normalize_below; try lia.
    unfold Z.sub at 1.
    apply sum_digits with (m1 := fst (shl_align ma ea (Z.min ea eb)))
                          (m2 := fst (shl_align mb eb (Z.min ea eb)));
      try apply cond_Zopp_cases; try apply cond_Zopp_opp_cases;
      rewrite shl_align_digits by lia; lia.
Qed.

Lemma below_ltb_infinity V (a : float) :
  below V (Prim2SF a) -> (a <? infinity)%float = true.
Proof.
  intros H. rewrite ltb_spec.
  change (Prim2SF infinity) with (S754_infinity false).
  destruct (Prim2SF a) as [s|s| |s m e]; try contradiction; reflexivity.
Qed.

End NumberSize.

Lemma gridDistances_small_checked :
  forallb smallNumber gridDistanceList = true.
Proof. vm_compute. reflexivity. Qed.

Lemma gridSigns_checked :
  forallb (fun a => forallb (signOfDifference a) gridDistanceList)
          gridDistanceList = true.
Proof. vm_compute. reflexivity. Qed.

(** ** Point sets on the grid are regular *)

Lemma In_gridDistanceList i j :
  i < 38 -> j < 38 -> In (gridDistance i j) gridDistanceList.
Proof.
  intros Hi Hj. unfold gridDistanceList. apply in_flat_map.
  exists i. split; [apply in_seq; lia|].
  apply in_map. apply in_seq. lia.
Qed.

Lemma distance_grid_listed a b :
  onGrid a -> onGrid b -> In (distance a b) gridDistanceList.
Proof.
  intros Ha Hb.
  destruct (distance_gridDistance a b Ha Hb) as (i & j & Hi & Hj & -> & _).
  now apply In_gridDistanceList.
Qed.

Lemma distance_grid_small a b :
  onGrid a -> onGrid b ->
  defined (distance a b) = true /\ below 10 (Prim2SF (distance a b)).
Proof.
  intros Ha Hb.
  assert (H := proj1 (forallb_forall _ gridDistanceList) gridDistances_small_checked
                 _ (distance_grid_listed a b Ha Hb)).
  unfold smallNumber in H. apply andb_prop in H. destruct H as [H1 H2].
  split; [assumption | now apply NumberSize.belowb_below].
Qed.

Lemma distance_grid_positive a b :
  onGrid a -> onGrid b -> a <> b -> (0 <? distance a b)%float = true.
Proof.
  intros Ha Hb Hne.
  destruct (distance_gridDistance a b Ha Hb) as (i & j & Hi & Hj & -> & Hsame).
  destruct (gridDistance_checked i j Hi Hj) as [[H1 H2]|H].
  - exfalso. now apply Hne, Hsame.
  - apply H.
Qed.

Lemma distance_grid_signs p a b :
  onGrid p -> onGrid a -> onGrid b ->
  (0 <? distance p b - distance p a)%float
  = (distance p a <? distance p b)%float.
Proof.
  intros Hp Ha Hb.
  assert (H := proj1 (forallb_forall _ gridDistanceList) gridSigns_checked
                 _ (distance_grid_listed p a Hp Ha)).
  assert (H' := proj1 (forallb_forall _ gridDistanceList) H
                  _ (distance_grid_listed p b Hp Hb)).
  now apply Bool.eqb_prop.
Qed.

Lemma add_below V (a b : number) :
  below V (Prim2SF a) -> below V (Prim2SF b) -> (-1075 <= V)%Z -> (V + 2 <= 971)%Z ->
  below (V + 2) (Prim2SF (a + b)%float).
Proof.
  intros Ha Hb HV Hmax. rewrite add_spec. now apply NumberSize.SFadd_below.
Qed.

Lemma sub_below V (a b : number) :
  below V (Prim2SF a) -> below V (Prim2SF b) -> (-1075 <= V)%Z -> (V + 2 <= 971)%Z ->
  below (V + 2) (Prim2SF (a - b)%float).
Proof.
  intros Ha Hb HV Hmax. rewrite sub_spec. now apply NumberSize.SFsub_below.
Qed.

Lemma insertionCost_grid_finite a p b :
  onGrid a -> onGrid p -> onGrid b ->
  (insertionCost a p b <? Infinity)%float = true.
Proof.
  intros Ha Hp Hb. unfold insertionCost, Infinity.
  apply (NumberSize.below_ltb_infinity 14).
  change 14%Z with (12 + 2)%Z. apply sub_below; try lia.
  - change 12%Z with (10 + 2)%Z.
    apply add_below; try lia; now apply distance_grid_small.
  - apply (NumberSize.below_le 10); [lia | now apply distance_grid_small].
Qed.

Lemma regular_onGrid pts : Forall onGrid pts -> regular pts = true.
Proof.
  intros Hg. rewrite Forall_forall in Hg. unfold regular.
  apply forallb_forall. intros a Ha. apply forallb_forall. intros p Hp.
  apply andb_true_intro. split.
  - unfold same. destruct (Point_eq_dec a p) as [E|E]; [reflexivity|].
    simpl. apply distance_grid_positive; auto.
  - apply forallb_forall. intros b Hb.
    apply insertionCost_grid_finite; auto.
Qed.

Lemma signsAgree_onGrid p0 rest :
  onGrid p0 -> Forall onGrid rest -> signsAgree p0 rest = true.
Proof.
  intros H0 Hg. rewrite Forall_forall in Hg. unfold signsAgree.
  apply forallb_forall. intros a Ha. apply forallb_forall. intros b Hb.
  rewrite distance_grid_signs by auto. apply Bool.eqb_reflx.
Qed.

Lemma comparable_onGrid lastPoint remaining :
  onGrid lastPoint -> Forall onGrid remaining ->
  comparable lastPoint remaining = true.
Proof.
  intros H0 Hg. rewrite Forall_forall in Hg. unfold comparable.
  apply forallb_forall. intros a Ha. apply andb_true_intro. split.
  - apply distance_grid_small; auto.
  - apply forallb_forall. intros b Hb.
    rewrite distance_grid_signs by auto. apply Bool.eqb_reflx.
Qed.

(** A point set checked to be on the grid is on the grid. *)
Lemma onGridb_onGrid p : onGridb p = true -> onGrid p.
Proof.
  unfold onGridb. intros H.
  repeat (apply andb_prop in H; destruct H as [H ?]).
  exists (x p / 20)%Z, (y p / 15)%Z.
  repeat match goal with
         | E : (_ =? _)%Z = true |- _ => apply Z.eqb_eq in E
         | E : (_ <=? _)%Z = true |- _ => apply Z.leb_le in E
         end.
  pose proof (Z.div_mod (x p) 20 ltac:(lia)).
  pose proof (Z.div_mod (y p) 15 ltac:(lia)).
  lia.
Qed.

Lemma allOnGrid_onGrid pts : allOnGrid pts = true -> Forall onGrid pts.
Proof.
  unfold allOnGrid. intros H. apply Forall_forall. intros p Hp.
  rewrite forallb_forall in H. now apply onGridb_onGrid, H.
Qed.


(** ** Facts on the array primitives *)

Lemma same_true a b : same a b = true <-> a = b.
Proof. unfold same. destruct (Point_eq_dec a b); split; congruence. Qed.

Lemma same_false a b : same a b = false <-> a <> b.
Proof. unfold same. destruct (Point_eq_dec a b); split; congruence. Qed.

Lemma includes_In l p : includes l p = true <-> In p l.
Proof.
  unfold includes. rewrite existsb_exists. split.
  - intros [q [Hq Hs]]. apply same_true in Hs. now subst.
  - intros H. exists p. split; [assumption | now apply same_true].
Qed.

Lemma sort_insert_perm after a l : Permutation (sort_insert after a l) (a :: l).
Proof.
  induction l as [|b l IH]; simpl.
  - reflexivity.
  - destruct (after a b).
    + rewrite IH. apply perm_swap.
    + reflexivity.
Qed.

Lemma sort_perm after l : Permutation (sort after l) l.
Proof.
  induction l as [|a l IH]; simpl.
  - reflexivity.
  - rewrite sort_insert_perm. now constructor.
Qed.

Lemma sort_insert_ext after1 after2 a l :
  (forall b, In b l -> after1 a b = after2 a b) ->
  sort_insert after1 a l = sort_insert after2 a l.
Proof.
  induction l as [|b l IH]; intros H; simpl.
  - reflexivity.
  - rewrite (H b (or_introl eq_refl)), IH; [reflexivity|].
    intros c Hc. apply H. now right.
Qed.

Lemma sort_ext after1 after2 l :
  (forall a b, In a l -> In b l -> after1 a b = after2 a b) ->
  sort after1 l = sort after2 l.
Proof.
  induction l as [|a l IH]; intros H; simpl.
  - reflexivity.
  - rewrite IH by (intros b c Hb Hc; apply H; now right).
    apply sort_insert_ext. intros b Hb. apply H; [now left|].
    right. exact (Permutation_in _ (sort_perm after2 l) Hb).
Qed.

Lemma insertAt_perm i p l : Permutation (insertAt i p l) (p :: l).
Proof.
  unfold insertAt. rewrite <- (firstn_skipn i l) at 3.
  symmetry. apply Permutation_middle.
Qed.

Lemma closing_cons p l : closing (p :: l) = (p :: l) ++ [p].
Proof. reflexivity. Qed.

Lemma filter_other_perm l a :
  NoDup l -> In a l ->
  Permutation l (a :: filter (fun p => negb (same p a)) l).
Proof.
  intros Hl Ha. apply NoDup_Permutation; [assumption | |].
  - constructor.
    + rewrite filter_In. intros [_ H]. now rewrite (proj2 (same_true a a)) in H.
    + now apply NoDup_filter.
  - intros q. simpl. rewrite filter_In. split.
    + intros Hq. destruct (Point_eq_dec a q) as [->|Hne]; [now left|right].
      split; [assumption|]. apply negb_true_iff, same_false. congruence.
    + intros [<-|[Hq _]]; assumption.
Qed.

Lemma filter_excluded_perm h l :
  NoDup h -> NoDup l -> incl h l ->
  Permutation (h ++ filter (fun p => negb (includes h p)) l) l.
Proof.
  intros Hh Hl Hincl. apply NoDup_Permutation; [| assumption |].
  - apply NoDup_app; [assumption | now apply NoDup_filter |].
    intros q Hq. rewrite filter_In. intros [_ H].
    apply negb_true_iff in H. apply includes_In in Hq. congruence.
  - intros q. rewrite in_app_iff, filter_In. split.
    + intros [Hq|[Hq _]]; [now apply Hincl | assumption].
    + intros Hq. destruct (includes h q) eqn:E.
      * left. now apply includes_In.
      * right. split; [assumption|]. now apply negb_true_iff.
Qed.

Lemma NoDup_app_disjoint (l l' : list Point) a :
  NoDup (l ++ l') -> In a l -> In a l' -> False.
Proof.
  induction l as [|b l IH]; simpl; intros Hnd Hl Hl'.
  - contradiction.
  - apply NoDup_cons_iff in Hnd. destruct Hnd as [Hb Hnd].
    destruct Hl as [->|Hl].
    + apply Hb. apply in_or_app. now right.
    + now apply IH.
Qed.

Lemma indexOf_from_found i l p :
  In p l ->
  exists l1 l2, l = l1 ++ p :: l2 /\
                indexOf_from i l p = (i + Z.of_nat (length l1))%Z.
Proof.
  revert i. induction l as [|q l IH]; intros i Hin.
  - contradiction.
  - simpl. destruct (same q p) eqn:E.
    + apply same_true in E. subst q. exists [], l. simpl. split; [reflexivity | lia].
    + destruct Hin as [->|Hin]; [apply same_false in E; congruence|].
      destruct (IH (i + 1)%Z Hin) as (l1 & l2 & -> & Hidx).
      exists (q :: l1), l2. simpl length. split; [reflexivity | lia].
Qed.

Lemma splice1_indexOf_perm l p :
  In p l -> Permutation l (p :: splice1 (indexOf l p) l).
Proof.
  intros Hin. unfold indexOf.
  destruct (indexOf_from_found 0 l p Hin) as (l1 & l2 & -> & ->).
  unfold splice1. rewrite length_app. simpl length.
  replace (0 + Z.of_nat (length l1) <? 0)%Z with false by (symmetry; apply Z.ltb_ge; lia).
  rewrite Z.min_l by lia. rewrite Z.add_0_l, Nat2Z.id.
  rewrite firstn_app, Nat.sub_diag, firstn_all. simpl firstn. rewrite app_nil_r.
  replace (S (length l1)) with (length (l1 ++ [p])) by (rewrite length_app; simpl; lia).
  replace (l1 ++ p :: l2) with ((l1 ++ [p]) ++ l2) by (now rewrite <- app_assoc).
  rewrite skipn_app, skipn_all, Nat.sub_diag. simpl.
  rewrite <- app_assoc. simpl. symmetry. apply Permutation_middle.
Qed.

(** ** Scans that keep the first best candidate *)

Section FirstBest.
Variable A : Type.
Variable key : A -> number.
Variable better : number -> number -> bool.
Hypothesis better_trans :
  forall a b c, better a b = true -> better b c = true -> better a c = true.
Hypothesis better_irrefl : forall a, better a a = false.
Hypothesis better_eqb :
  forall a b c, (a =? b)%float = true -> better b c = true -> better a c = true.

Lemma firstBest_spec l o v :
  let r := firstBest key better l (o, v) in
  (r = (o, v) /\ forall b, In b l -> better (key b) v = false)
  \/ (exists l1 a l2,
        l = l1 ++ a :: l2 /\ r = (Some a, key a) /\
        better (key a) v = true /\
        (forall b, In b l -> better (key b) (key a) = false) /\
        (forall b, In b l1 -> (key b =? key a)%float = false)).
Proof.
  revert o v. induction l as [|a l IH]; intros o v; simpl.
  - left. split; [reflexivity | intros b []].
  - destruct (better (key a) v) eqn:Ha.
    + right. destruct (IH (Some a) (key a)) as [[Hr Hall] | (l1 & a' & l2 & -> & Hr & Hb & Hall & Hties)].
      * exists [], a, l. repeat split; try assumption.
        -- intros b [<-|Hb]; [apply better_irrefl | now apply Hall].
        -- intros b [].
      * exists (a :: l1), a', l2. repeat split; try assumption.
        -- exact (better_trans _ _ _ Hb Ha).
        -- intros b [->|Hin]; [|now apply Hall].
           destruct (better (key b) (key a')) eqn:E; [|reflexivity].
           rewrite <- (better_irrefl (key a')). symmetry.
           exact (better_trans _ _ _ Hb E).
        -- intros b [->|Hin]; [|now apply Hties].
           destruct (key b =? key a')%float eqn:E; [|reflexivity].
           rewrite <- (better_irrefl (key b)). symmetry.
           exact (better_eqb _ _ _ E Hb).
    + destruct (IH o v) as [[Hr Hall] | (l1 & a' & l2 & -> & Hr & Hb & Hall & Hties)].
      * left. split; [assumption|]. intros b [<-|Hin]; [assumption | now apply Hall].
      * right. exists (a :: l1), a', l2. repeat split; try assumption.
        -- intros b [->|Hin]; [|now apply Hall].
           destruct (better (key b) (key a')) eqn:E; [|reflexivity].
           rewrite <- Ha. symmetry. exact (better_trans _ _ _ E Hb).
        -- intros b [->|Hin]; [|now apply Hties].
           destruct (key b =? key a')%float eqn:E; [|reflexivity].
           rewrite <- Ha. symmetry. exact (better_eqb _ _ _ E Hb).
Qed.
End FirstBest.

Arguments firstBest_spec {A} key better _ _ _ l o v.

Lemma fold_left_related {X Y B : Type} (R : X -> Y -> Prop)
    (f : X -> B -> X) (g : Y -> B -> Y) :
  (forall x y b, R x y -> R (f x b) (g y b)) ->
  forall l x y, R x y -> R (fold_left f l x) (fold_left g l y).
Proof.
  intros Hstep l. induction l as [|b l IH]; intros x y Hxy; simpl.
  - assumption.
  - apply IH, Hstep, Hxy.
Qed.

(** The three scans of the insertion strategies as first-best scans. *)

Lemma arbitraryInsertion_scan_firstBest path nextPoint :
  arbitraryInsertion_scan path nextPoint =
  let r := firstBest (fun i => pathCost (insertAt i nextPoint path)) lower
                     (seq 0 (S (length path))) (None, Infinity) in
  (match fst r with Some i => i | None => 0 end, snd r).
Proof.
  unfold arbitraryInsertion_scan, firstBest.
  apply (fold_left_related
           (fun (x : nat * number) (y : option nat * number) =>
              x = (match fst y with Some i => i | None => 0 end, snd y))).
  - intros [pos c] [o v] i Hxy. simpl in Hxy. inversion Hxy; subst. simpl.
    unfold lower. now destruct (_ <? v)%float.
  - reflexivity.
Qed.

Lemma furthest_position_firstBest path selectedPoint :
  furthest_position path selectedPoint =
  let r := firstBest (edgeCost path selectedPoint) lower
                     (seq 0 (length path)) (None, Infinity) in
  (snd r, match fst r with Some i => i + 1 | None => 0 end).
Proof.
  unfold furthest_position, firstBest.
  apply (fold_left_related
           (fun (x : number * nat) (y : option nat * number) =>
              x = (snd y, match fst y with Some i => i + 1 | None => 0 end))).
  - intros [c pos] [o v] i Hxy. simpl in Hxy. inversion Hxy; subst. simpl.
    unfold lower, edgeCost. now destruct (_ <? v)%float.
  - reflexivity.
Qed.

Lemma furthest_select_firstBest path remaining :
  furthest_select path remaining =
  firstBest (minDistanceToPath path) higher remaining (None, 0%float).
Proof.
  unfold furthest_select, firstBest.
  apply (fold_left_related (fun (x y : option Point * number) => x = y)).
  - intros [sp sd] y q <-. simpl. unfold higher. now destruct (sd <? _)%float.
  - reflexivity.
Qed.

Lemma minDistanceToPath_firstBest path freePoint :
  minDistanceToPath path freePoint =
  snd (firstBest (distance freePoint) lower path (None, Infinity)).
Proof.
  unfold minDistanceToPath, firstBest.
  apply (fold_left_related
           (fun (x : number) (y : option Point * number) => x = snd y)).
  - intros m [o v] t ->. simpl. unfold lower. now destruct (_ <? v)%float.
  - reflexivity.
Qed.

Lemma lower_trans a b c : lower a b = true -> lower b c = true -> lower a c = true.
Proof. apply NumberOrder.ltb_trans. Qed.

Lemma lower_irrefl a : lower a a = false.
Proof. apply NumberOrder.ltb_irrefl. Qed.

Lemma lower_eqb a b c :
  (a =? b)%float = true -> lower b c = true -> lower a c = true.
Proof. apply NumberOrder.eqb_ltb. Qed.

Lemma higher_trans a b c :
  higher a b = true -> higher b c = true -> higher a c = true.
Proof. unfold higher. intros H1 H2. exact (NumberOrder.ltb_trans _ _ _ H2 H1). Qed.

Lemma higher_irrefl a : higher a a = false.
Proof. apply NumberOrder.ltb_irrefl. Qed.

Lemma higher_eqb a b c :
  (a =? b)%float = true -> higher b c = true -> higher a c = true.
Proof. unfold higher. apply NumberOrder.ltb_eqb. Qed.

(** The minimum the selection computes is [Infinity] or a distance to a
    point of the path. *)
Lemma minDistanceToPath_cases path freePoint :
  minDistanceToPath path freePoint = Infinity \/
  exists t, In t path /\ minDistanceToPath path freePoint = distance freePoint t.
Proof.
  rewrite minDistanceToPath_firstBest.
  destruct (firstBest_spec (distance freePoint) lower lower_trans lower_irrefl
              lower_eqb path None Infinity)
    as [[-> _] | (l1 & t & l2 & -> & -> & _)].
  - now left.
  - right. exists t. split; [|reflexivity]. apply in_elt.
Qed.

(** ** Regular point sets *)

Lemma regular_distance pts a p :
  regular pts = true -> In a pts -> In p pts -> a <> p ->
  (0 <? distance a p)%float = true.
Proof.
  unfold regular. intros H Ha Hp Hne.
  rewrite forallb_forall in H. specialize (H a Ha).
  rewrite forallb_forall in H. specialize (H p Hp).
  apply andb_prop in H. destruct H as [H _].
  apply orb_prop in H. destruct H as [H|H]; [|assumption].
  apply same_true in H. contradiction.
Qed.

Lemma regular_insertion pts a p b :
  regular pts = true -> In a pts -> In p pts -> In b pts ->
  (insertionCost a p b <? Infinity)%float = true.
Proof.
  unfold regular. intros H Ha Hp Hb.
  rewrite forallb_forall in H. specialize (H a Ha).
  rewrite forallb_forall in H. specialize (H p Hp).
  apply andb_prop in H. destruct H as [_ H].
  rewrite forallb_forall in H. exact (H b Hb).
Qed.

Lemma at_In path i : i < length path -> In (at_ path i) path.
Proof. intros H. unfold at_. now apply nth_In. Qed.

Lemma at_next_In path i : path <> [] -> In (at_ path ((i + 1) mod length path)) path.
Proof.
  intros H. apply at_In. apply Nat.mod_upper_bound.
  destruct path; [contradiction | discriminate].
Qed.

(** *** The nearest-insertion scan finds a point *)

Lemma nearest_scan_unfold path remaining :
  nearest_scan path remaining =
  fold_left (fun nearest point =>
               fold_left (nearest_step path point) (seq 0 (length path)) nearest)
            remaining (None, Infinity, 0).
Proof. reflexivity. Qed.

Lemma nearest_step_chosen path remaining point nearest i :
  chosen path remaining nearest -> In point remaining -> i < length path ->
  chosen path remaining (nearest_step path point nearest i).
Proof.
  intros (p & d & pos & -> & Hp & Hpos) Hpoint Hi. unfold nearest_step.
  destruct (_ <? d)%float.
  - exists point, (edgeCost path point i), (i + 1). repeat split; try assumption; lia.
  - exists p, d, pos. repeat split; try assumption; lia.
Qed.

Lemma nearest_inner_chosen path remaining point indices nearest :
  chosen path remaining nearest -> In point remaining ->
  (forall i, In i indices -> i < length path) ->
  chosen path remaining (fold_left (nearest_step path point) indices nearest).
Proof.
  revert nearest. induction indices as [|i indices IH]; intros nearest Hc Hp Hi; simpl.
  - assumption.
  - apply IH; [|assumption|intros j Hj; apply Hi; now right].
    apply nearest_step_chosen; [assumption|assumption|apply Hi; now left].
Qed.

Lemma nearest_outer_chosen path remaining points nearest :
  chosen path remaining nearest -> incl points remaining ->
  chosen path remaining
    (fold_left (fun nearest point =>
                  fold_left (nearest_step path point) (seq 0 (length path)) nearest)
               points nearest).
Proof.
  revert nearest. induction points as [|q points IH]; intros nearest Hc Hincl; simpl.
  - assumption.
  - apply IH; [|intros r Hr; apply Hincl; now right].
    apply nearest_inner_chosen; [assumption|apply Hincl; now left|].
    intros i Hi. apply in_seq in Hi. lia.
Qed.

Lemma nearest_scan_found path remaining :
  path <> [] -> remaining <> [] ->
  (forall a p b, In a path -> In p remaining -> In b path ->
                 (insertionCost a p b <? Infinity)%float = true) ->
  chosen path remaining (nearest_scan path remaining).
Proof.
  intros Hpath Hrem Hfin. rewrite nearest_scan_unfold.
  destruct remaining as [|q rest]; [contradiction|].
  cbn [fold_left].
  apply nearest_outer_chosen; [|intros r Hr; now right].
  assert (Hlen : 0 < length path) by (destruct path; [contradiction | simpl; lia]).
  destruct (length path) as [|n] eqn:En; [lia|].
  cbn [seq fold_left].
  apply nearest_inner_chosen.
  - unfold nearest_step. rewrite Hfin.
    + exists q, (edgeCost path q 0), 1. repeat split; try lia. now left.
    + apply at_In. lia.
    + now left.
    + now apply at_next_In.
  - now left.
  - intros i Hi. apply in_seq in Hi. lia.
Qed.

(** *** The furthest-insertion selection and position *)

Lemma furthest_select_spec path remaining :
  remaining <> [] ->
  (forall q t, In q remaining -> In t path -> (0 <? distance q t)%float = true) ->
  exists sel,
    furthest_select path remaining = (Some sel, minDistanceToPath path sel) /\
    In sel remaining /\
    forall q, In q remaining ->
      (minDistanceToPath path sel <? minDistanceToPath path q)%float = false.
Proof.
  intros Hrem Hpos. rewrite furthest_select_firstBest.
  destruct (firstBest_spec (minDistanceToPath path) higher higher_trans
              higher_irrefl higher_eqb remaining None 0%float)
    as [[_ Hnone] | (l1 & a & l2 & Hsplit & Hr & _ & Hall & _)].
  - exfalso. destruct remaining as [|q rest]; [contradiction|].
    specialize (Hnone q (or_introl eq_refl)). unfold higher in Hnone.
    destruct (minDistanceToPath_cases path q) as [E | (t & Ht & E)];
      rewrite E in Hnone.
    + discriminate Hnone.
    + rewrite Hpos in Hnone; [discriminate | now left | assumption].
  - exists a. split; [exact Hr|]. split.
    + rewrite Hsplit. apply in_elt.
    + intros q Hq. exact (Hall q Hq).
Qed.

(** No point of the path is closer to [freePoint] than the minimum. *)
Lemma minDistanceToPath_least path freePoint t :
  In t path ->
  (distance freePoint t <? minDistanceToPath path freePoint)%float = false.
Proof.
  intros Ht. rewrite minDistanceToPath_firstBest.
  destruct (firstBest_spec (distance freePoint) lower lower_trans lower_irrefl
              lower_eqb path None Infinity)
    as [[-> Hnone] | (l1 & a & l2 & _ & -> & _ & Hall & _)].
  - exact (Hnone t Ht).
  - exact (Hall t Ht).
Qed.

Lemma furthest_position_spec path selectedPoint :
  exists cost idx,
    furthest_position path selectedPoint = (cost, idx) /\
    idx <= length path /\
    ((idx = 0 /\ cost = Infinity /\
      forall j, j < length path ->
        (edgeCost path selectedPoint j <? Infinity)%float = false)
     \/ (exists i, idx = i + 1 /\ i < length path /\
           cost = edgeCost path selectedPoint i /\
           forall j, j < length path ->
             (edgeCost path selectedPoint j <? cost)%float = false)).
Proof.
  rewrite furthest_position_firstBest.
  destruct (firstBest_spec (edgeCost path selectedPoint) lower lower_trans
              lower_irrefl lower_eqb (seq 0 (length path)) None Infinity)
    as [[Hr Hnone] | (l1 & a & l2 & Hsplit & Hr & _ & Hall & _)];
    cbv zeta; rewrite Hr; cbn [fst snd].
  - exists Infinity, 0. split; [reflexivity|]. split; [lia|]. left.
    repeat split. intros j Hj. apply Hnone. apply in_seq. lia.
  - assert (Ha : In a (seq 0 (length path))) by (rewrite Hsplit; apply in_elt).
    apply in_seq in Ha.
    exists (edgeCost path selectedPoint a), (a + 1).
    split; [reflexivity|]. split; [lia|]. right.
    exists a. repeat split; try lia. intros j Hj. apply Hall. apply in_seq. lia.
Qed.

Lemma firstn_seq_prefix k start n :
  k <= n -> firstn k (seq start n) = seq start k.
Proof.
  revert start n. induction k as [|k IH]; intros start n Hk.
  - reflexivity.
  - destruct n as [|n]; [lia|]. simpl. f_equal. apply IH. lia.
Qed.

Lemma seq_split n l1 a l2 :
  seq 0 n = l1 ++ a :: l2 -> a = length l1 /\ l1 = seq 0 a /\ a < n.
Proof.
  intros H.
  assert (Hlen : length (seq 0 n) = length l1 + S (length l2))
    by (rewrite H, length_app; reflexivity).
  rewrite length_seq in Hlen.
  assert (Ha : a = length l1).
  { assert (E : nth (length l1) (seq 0 n) 0 = a)
      by (rewrite H, app_nth2, Nat.sub_diag; [reflexivity | lia]).
    rewrite seq_nth in E by lia. lia. }
  split; [assumption|]. split; [|lia].
  assert (E : firstn (length l1) (seq 0 n) = l1)
    by (rewrite H, firstn_app, Nat.sub_diag, firstn_all; simpl; apply app_nil_r).
  rewrite firstn_seq_prefix in E by lia. now rewrite Ha.
Qed.

Lemma arbitraryInsertion_scan_spec path nextPoint :
  exists pos cost,
    arbitraryInsertion_scan path nextPoint = (pos, cost) /\
    pos <= length path /\
    (forall j, j <= length path ->
       (pathCost (insertAt j nextPoint path) <? cost)%float = false) /\
    ((pos = 0 /\ cost = Infinity) \/
     (cost = pathCost (insertAt pos nextPoint path) /\
      (cost <? Infinity)%float = true /\
      forall j, j < pos ->
        (pathCost (insertAt j nextPoint path) =? cost)%float = false)).
Proof.
  rewrite arbitraryInsertion_scan_firstBest.
  destruct (firstBest_spec (fun i => pathCost (insertAt i nextPoint path)) lower
              lower_trans lower_irrefl lower_eqb (seq 0 (S (length path)))
              None Infinity)
    as [[Hr Hnone] | (l1 & a & l2 & Hsplit & Hr & Hbelow & Hall & Hties)];
    cbv zeta; rewrite Hr; cbn [fst snd].
  - exists 0, Infinity. split; [reflexivity|]. split; [lia|]. split.
    + intros j Hj. apply Hnone. apply in_seq. lia.
    + now left.
  - destruct (seq_split _ _ _ _ Hsplit) as (Ha & Hl1 & Hlt).
    exists a, (pathCost (insertAt a nextPoint path)).
    split; [reflexivity|]. split; [lia|]. split.
    + intros j Hj. apply Hall. apply in_seq. lia.
    + right. split; [reflexivity|]. split; [exact Hbelow|].
      intros j Hj. apply Hties. rewrite Hl1. apply in_seq. lia.
Qed.

(** ** One turn of each loop moves one point *)

Lemma placed_NoDup pts st :
  NoDup pts -> placed pts st -> NoDup (path st ++ remainingPoints st).
Proof.
  intros Hnd [Hperm _]. apply Permutation_NoDup with (l := pts); [|assumption].
  now symmetry.
Qed.

Lemma placed_In_path pts st p : placed pts st -> In p (path st) -> In p pts.
Proof.
  intros [Hperm _] Hp. apply (Permutation_in _ Hperm). apply in_or_app. now left.
Qed.

Lemma placed_In_remaining pts st p :
  placed pts st -> In p (remainingPoints st) -> In p pts.
Proof.
  intros [Hperm _] Hp. apply (Permutation_in _ Hperm). apply in_or_app. now right.
Qed.

Lemma moves_one_placed pts st st' :
  placed pts st -> moves_one st st' -> placed pts st'.
Proof.
  intros [Hperm Hne] (p & Hrem & Hpath). split.
  - rewrite <- Hperm, Hpath, Hrem. simpl. apply Permutation_middle.
  - intros E. rewrite E in Hpath. apply Permutation_nil in Hpath. discriminate.
Qed.

Lemma moves_one_length st st' :
  moves_one st st' ->
  S (length (remainingPoints st')) = length (remainingPoints st).
Proof.
  intros (p & Hrem & _). apply Permutation_length in Hrem. simpl in Hrem. lia.
Qed.

Lemma body_moves_one s pts st :
  NoDup pts -> regular pts = true -> placed pts st ->
  remainingPoints st <> [] ->
  exists st', body_of s st = Next st' /\ moves_one st st' /\
              currentPath st' = snapshot s (path st') :: currentPath st /\
              (s = NearestNeighbor -> hd_error (path st') = hd_error (path st)).
Proof.
  intros Hnd Hreg Hpl Hrem.
  assert (Hnd' := placed_NoDup pts st Hnd Hpl).
  destruct st as [tour remaining shown]. cbn [path remainingPoints currentPath] in *.
  destruct s; cbn [body_of snapshot].
  - (* nearestNeighbor *)
    unfold nearestNeighbor_body. cbn [path remainingPoints currentPath].
    set (sorted := sort _ remaining).
    assert (Hs : Permutation sorted remaining) by apply sort_perm.
    destruct sorted as [|p rest].
    + apply Permutation_nil in Hs. congruence.
    + eexists. split; [reflexivity|]. split; [|split; [reflexivity|]].
      * exists p. cbn. split; [now symmetry|].
        symmetry. apply Permutation_cons_append.
      * intros _. cbn. destruct Hpl as [_ Hne]. cbn in Hne.
        destruct tour; [contradiction | reflexivity].
  - (* arbitraryInsertion *)
    unfold arbitraryInsertion_body. cbn [path remainingPoints currentPath].
    destruct remaining as [|nextPoint rest]; [contradiction|].
    destruct (arbitraryInsertion_scan tour nextPoint) as [bestPosition bestCost].
    eexists. split; [reflexivity|]. split; [|split; [reflexivity | discriminate]].
    exists nextPoint. cbn. split; [reflexivity | apply insertAt_perm].
  - (* nearestInsertion *)
    unfold nearestInsertion_body. cbn [path remainingPoints currentPath].
    destruct (nearest_scan_found tour remaining) as (p & d & pos & -> & Hp & Hpos).
    + apply Hpl.
    + assumption.
    + intros a q b Ha Hq Hb. apply (regular_insertion pts); try assumption.
      * now apply (placed_In_path pts (mkState tour remaining shown)).
      * now apply (placed_In_remaining pts (mkState tour remaining shown)).
      * now apply (placed_In_path pts (mkState tour remaining shown)).
    + eexists. split; [reflexivity|]. split; [|split; [reflexivity | discriminate]].
      exists p. cbn. split; [now apply splice1_indexOf_perm | apply insertAt_perm].
  - (* furthestInsertion *)
    unfold furthestInsertion_body. cbn [path remainingPoints currentPath].
    destruct (furthest_select_spec tour remaining) as (sel & -> & Hsel & _).
    + assumption.
    + intros q t Hq Ht. apply (regular_distance pts); try assumption.
      * now apply (placed_In_remaining pts (mkState tour remaining shown)).
      * now apply (placed_In_path pts (mkState tour remaining shown)).
      * intros ->. exact (NoDup_app_disjoint _ _ _ Hnd' Ht Hq).
    + destruct (furthest_position tour sel) as [bestCost bestIdx].
      eexists. split; [reflexivity|]. split; [|split; [reflexivity | discriminate]].
      exists sel. cbn. split; [|apply insertAt_perm].
      apply filter_other_perm; [|assumption].
      now apply NoDup_app_remove_l in Hnd'.
  - (* convexHull *)
    unfold convexHull_body. cbn [path remainingPoints currentPath].
    destruct (nearest_scan_found tour remaining) as (p & d & pos & -> & Hp & Hpos).
    + apply Hpl.
    + assumption.
    + intros a q b Ha Hq Hb. apply (regular_insertion pts); try assumption.
      * now apply (placed_In_path pts (mkState tour remaining shown)).
      * now apply (placed_In_remaining pts (mkState tour remaining shown)).
      * now apply (placed_In_path pts (mkState tour remaining shown)).
    + eexists. split; [reflexivity|]. split; [|split; [reflexivity | discriminate]].
      exists p. cbn. split; [|apply insertAt_perm].
      apply filter_other_perm; [|assumption].
      now apply NoDup_app_remove_l in Hnd'.
Qed.

Lemma distance_self a : onGrid a -> distance a a = 0%float.
Proof.
  intros (ia & ja & Hia & Hja & Hxa & Hya).
  unfold distance. rewrite Hxa, Hya. cbv zeta.
  rewrite (proj1 (grid_difference ia ia Hia Hia)).
  rewrite (proj2 (grid_difference ja ja Hja Hja)).
  rewrite grid_root by lia. rewrite !Z.sub_diag.
  vm_compute. reflexivity.
Qed.

(** ** The hull on the grid *)

(** The test of the scan is the test on the exact cross product. *)
Lemma cross_exact o a b :
  onGrid o -> onGrid a -> onGrid b ->
  (cross o a b <=? 0)%float = (Exact.cross o a b <=? 0)%Z.
Proof.
  intros (io & jo & Hio & Hjo & Hxo & Hyo) (ia & ja & Hia & Hja & Hxa & Hya)
         (ib & jb & Hib & Hjb & Hxb & Hyb).
  unfold cross, Exact.cross. rewrite Hxo, Hyo, Hxa, Hya, Hxb, Hyb.
  rewrite (proj1 (grid_difference ia io Hia Hio)).
  rewrite (proj2 (grid_difference jb jo Hjb Hjo)).
  rewrite (proj2 (grid_difference ja jo Hja Hjo)).
  rewrite (proj1 (grid_difference ib io Hib Hio)).
  destruct (grid_products (ia - io) (jb - jo)) as [H1 _]; try lia.
  destruct (grid_products (ib - io) (ja - jo)) as [_ H2]; try lia.
  assert (Hs := grid_sign _ _ H1 H2). cbn [fst snd] in Hs. rewrite Hs.
  replace ((ia * 20 - io * 20) * (jb * 15 - jo * 15)
           - (ja * 15 - jo * 15) * (ib * 20 - io * 20))%Z
    with (300 * ((ia - io) * (jb - jo) - (ja - jo) * (ib - io)))%Z by ring.
  destruct (Z.leb_spec ((ia - io) * (jb - jo)) ((ja - jo) * (ib - io)));
    destruct (Z.leb_spec (300 * ((ia - io) * (jb - jo) - (ja - jo) * (ib - io))) 0);
    try reflexivity; lia.
Qed.

(** The comparator of the sort is the comparison of the coordinates. *)
Lemma lexicographic_exact a b :
  onGrid a -> onGrid b ->
  (0 <? lexicographic a b)%float = (0 <? Exact.lexicographic a b)%Z.
Proof.
  intros (ia & ja & Hia & Hja & Hxa & Hya) (ib & jb & Hib & Hjb & Hxb & Hyb).
  unfold lexicographic, Exact.lexicographic. rewrite Hxa, Hya, Hxb, Hyb.
  cbv zeta.
  rewrite (proj1 (grid_difference ia ib Hia Hib)).
  rewrite (proj2 (grid_difference ja jb Hja Hjb)).
  destruct (grid_step (ia - ib)) as (E0 & Ed & Ex & _); [lia|].
  destruct (grid_step (ja - jb)) as (_ & _ & _ & Ey); [lia|].
  rewrite E0, Ed. cbn [negb]. rewrite orb_false_r.
  destruct (ia - ib =? 0)%Z eqn:E.
  - apply Z.eqb_eq in E.
    replace (ia * 20 - ib * 20 =? 0)%Z with true by (symmetry; apply Z.eqb_eq; lia).
    rewrite Ey.
    destruct (Z.ltb_spec 0 (ja - jb)); destruct (Z.ltb_spec 0 (ja * 15 - jb * 15));
      try reflexivity; lia.
  - apply Z.eqb_neq in E.
    replace (ia * 20 - ib * 20 =? 0)%Z with false by (symmetry; apply Z.eqb_neq; lia).
    rewrite Ex.
    destruct (Z.ltb_spec 0 (ia - ib)); destruct (Z.ltb_spec 0 (ia * 20 - ib * 20));
      try reflexivity; lia.
Qed.

Lemma hull_pop_exact hull point :
  Forall onGrid hull -> onGrid point ->
  hull_pop hull point = Exact.hull_pop hull point.
Proof.
  induction hull as [|b hull IH]; intros Hh Hp; [reflexivity|].
  destruct hull as [|a rest]; [reflexivity|].
  cbn [hull_pop Exact.hull_pop].
  inversion Hh as [|? ? Hb Hh']; subst.
  rewrite cross_exact; [|now inversion Hh'|assumption|assumption].
  destruct (Exact.cross a b point <=? 0)%Z; [now apply IH | reflexivity].
Qed.

Lemma hull_pop_onGrid hull point :
  Forall onGrid hull -> Forall onGrid (Exact.hull_pop hull point).
Proof.
  induction hull as [|b hull IH]; intros Hh; [assumption|].
  destruct hull as [|a rest]; [assumption|].
  cbn [Exact.hull_pop].
  destruct (Exact.cross a b point <=? 0)%Z; [|assumption].
  apply IH. now inversion Hh.
Qed.

Lemma fold_hull_exact l hull :
  Forall onGrid l -> Forall onGrid hull ->
  fold_left hull_push l hull = fold_left Exact.hull_push l hull.
Proof.
  revert hull. induction l as [|p l IH]; intros hull Hl Hh; [reflexivity|].
  inversion Hl as [|? ? Hp Hl']; subst. cbn [fold_left].
  unfold hull_push at 2. unfold Exact.hull_push at 2.
  rewrite hull_pop_exact by assumption.
  apply IH; [assumption|].
  constructor; [assumption | now apply hull_pop_onGrid].
Qed.

Lemma sortedPoints_exact pts :
  Forall onGrid pts -> sortedPoints pts = Exact.sortedPoints pts.
Proof.
  intros Hg. rewrite Forall_forall in Hg.
  apply sort_ext. intros a b Ha Hb. apply lexicographic_exact; auto.
Qed.

Lemma sortedPoints_onGrid pts :
  Forall onGrid pts -> Forall onGrid (Exact.sortedPoints pts).
Proof.
  intros Hg. apply (@Permutation_Forall _ _ pts); [|assumption].
  symmetry. apply sort_perm.
Qed.

(** On a point set on the grid the hull of the source is the hull in exact
    arithmetic. *)
Lemma hullPoints_exact pts :
  Forall onGrid pts ->
  sortedPoints pts = Exact.sortedPoints pts /\
  lowerHull pts = Exact.lowerHull pts /\
  upperHull pts = Exact.upperHull pts /\
  hullPoints pts = Exact.hullPoints pts.
Proof.
  intros Hg.
  assert (Es := sortedPoints_exact pts Hg).
  assert (Hs := sortedPoints_onGrid pts Hg).
  assert (El : lowerHull pts = Exact.lowerHull pts).
  { unfold lowerHull, Exact.lowerHull, halfHull, Exact.halfHull.
    rewrite Es. f_equal. apply fold_hull_exact; [assumption | constructor]. }
  assert (Eu : upperHull pts = Exact.upperHull pts).
  { unfold upperHull, Exact.upperHull, halfHull, Exact.halfHull.
    rewrite Es. f_equal. apply fold_hull_exact; [|constructor].
    now apply Forall_rev. }
  split; [assumption|]. split; [assumption|]. split; [assumption|].
  unfold hullPoints, Exact.hullPoints. now rewrite El, Eu.
Qed.

(** ** The convex hull

    The monotone chain is verified in exact arithmetic (inside this module
    [cross], [hull_pop], [hullPoints] and the like are those of [Exact]):
    the hull is made of points of the set, holds none of them twice, and is
    not empty as soon as the set has two points. *)

Module Hull.

Import Exact.
Local Open Scope Z_scope.

Section HalfHull.
Variable sigma : Z.
Hypothesis sigma_unit : sigma = 1 \/ sigma = -1.

Lemma before_trans a b c : before sigma a b -> before sigma b c -> before sigma a c.
Proof. unfold before. destruct sigma_unit as [-> | ->]; lia. Qed.

Lemma before_irrefl a : ~ before sigma a a.
Proof. unfold before. lia. Qed.

(* vectors in the half plane *)
Lemma wedge_trans (a b c d e f : Z) :
  (0 < sigma * a \/ (a = 0 /\ 0 < sigma * b)) ->
  (0 < sigma * c \/ (c = 0 /\ 0 < sigma * d)) ->
  (0 < sigma * e \/ (e = 0 /\ 0 < sigma * f)) ->
  0 < a * d - b * c -> 0 < c * f - d * e -> 0 < a * f - b * e.
Proof.
  intros Hu Hv Hw H1 H2.
  assert (E1 : c * (a * f - b * e) = a * (c * f - d * e) + e * (a * d - b * c)) by ring.
  assert (E2 : d * (a * f - b * e) = b * (c * f - d * e) + f * (a * d - b * c)) by ring.
  destruct sigma_unit as [-> | ->]; nia.
Qed.

Lemma turn_extend a b c d :
  before sigma a b -> before sigma b c -> before sigma c d ->
  0 < cross a b c -> 0 < cross b c d ->
  0 < cross a b d /\ 0 < cross a c d.
Proof.
  unfold before, cross. intros Hab Hbc Hcd H1 H2.
  assert (H3 := wedge_trans (x b - x a) (y b - y a) (x c - x b) (y c - y b) (x d - x c) (y d - y c)).
  assert (0 < (x b - x a) * (y d - y c) - (y b - y a) * (x d - x c)).
  { apply H3; try lia. }
  split; lia.
Qed.

Lemma chain_tail q hull : chain sigma (q :: hull) -> chain sigma hull.
Proof.
  intros [Hs Ht]. split.
  - now inversion Hs.
  - now destruct Ht.
Qed.

Lemma hull_pop_chain hull point : chain sigma hull -> chain sigma (hull_pop hull point).
Proof.
  induction hull as [|b hull IH]; intros Hc; simpl.
  - assumption.
  - destruct hull as [|a rest]; [assumption|].
    destruct (cross a b point <=? 0); [|assumption].
    apply IH. exact (chain_tail _ _ Hc).
Qed.

Lemma hull_pop_incl hull point : incl (hull_pop hull point) hull.
Proof.
  induction hull as [|b hull IH]; simpl.
  - apply incl_refl.
  - destruct hull as [|a rest]; [apply incl_refl|].
    destruct (cross a b point <=? 0); [|apply incl_refl].
    apply incl_tl. exact IH.
Qed.

Lemma hull_pop_top hull point :
  match hull_pop hull point with
  | b :: a :: _ => 0 < cross a b point
  | _ => True
  end.
Proof.
  induction hull as [|b hull IH]; simpl.
  - exact I.
  - destruct hull as [|a rest]; [exact I|].
    destruct (cross a b point <=? 0) eqn:E; [exact IH|].
    apply Z.leb_gt in E. exact E.
Qed.

Lemma hull_pop_last hull point :
  last (hull_pop hull point) origin = last hull origin.
Proof.
  induction hull as [|b hull IH].
  - reflexivity.
  - cbn [hull_pop]. destruct hull as [|a rest]; [reflexivity|].
    destruct (cross a b point <=? 0); [|reflexivity].
    rewrite IH. reflexivity.
Qed.

Lemma hull_pop_nonempty hull point : hull <> [] -> hull_pop hull point <> [].
Proof.
  induction hull as [|b hull IH]; intros Hne.
  - contradiction.
  - cbn [hull_pop]. destruct hull as [|a rest]; [discriminate|].
    destruct (cross a b point <=? 0); [|discriminate].
    apply IH. discriminate.
Qed.

Lemma pairs_turn point b hull :
  StronglySorted (fun q p => before sigma p q) (b :: hull) ->
  before sigma b point ->
  ForallOrdPairs (fun u v => 0 < cross v u b) hull ->
  Forall (fun u => 0 < cross u b point) hull ->
  ForallOrdPairs (fun u v => 0 < cross v u point) hull.
Proof.
  intros Hs Hbp Hpairs Hall.
  apply StronglySorted_inv in Hs. destruct Hs as [Hs Hb].
  induction Hpairs as [|u l Hu Hpairs IH].
  - constructor.
  - apply StronglySorted_inv in Hs. destruct Hs as [Hs Hul].
    inversion Hall as [|? ? Hu' Hall']; subst.
    inversion Hb as [|? ? Hbu Hb']; subst.
    constructor; [|now apply IH].
    rewrite Forall_forall in *. intros v Hv.
    destruct (turn_extend v u b point) as [H _]; auto.
Qed.

Lemma hull_push_chain hull point :
  chain sigma hull -> Forall (fun q => before sigma q point) hull ->
  chain sigma (hull_push hull point).
Proof.
  intros Hc Hbefore. unfold hull_push.
  assert (Hc' := hull_pop_chain hull point Hc).
  assert (Hb' : Forall (fun q => before sigma q point) (hull_pop hull point)).
  { rewrite Forall_forall in *. intros q Hq. apply Hbefore.
    now apply hull_pop_incl in Hq. }
  assert (Htop := hull_pop_top hull point).
  destruct Hc' as [Hs Ht]. split.
  - now constructor.
  - split; [|assumption].
    destruct (hull_pop hull point) as [|b [|a rest]].
    + constructor.
    + constructor; constructor.
    + destruct Ht as [Hpairs Ht].
      assert (Hall : Forall (fun u => 0 < cross u b point) (a :: rest)).
      { constructor; [assumption|].
        inversion Hpairs as [|? ? Ha Hrest]; subst.
        apply StronglySorted_inv in Hs. destruct Hs as [Hs Hb].
        apply StronglySorted_inv in Hs. destruct Hs as [_ Ha'].
        inversion Hb as [|? ? Hab Hbr]; subst.
        inversion Hb' as [|? ? Hbp _]; subst.
        rewrite Forall_forall in *. intros v Hv.
        destruct (turn_extend v a b point) as [_ H]; auto. }
      constructor; [assumption|].
      inversion Hb'; subst.
      now apply pairs_turn with (b := b).
Qed.

Lemma fold_hull_chain l hull :
  chain sigma hull -> StronglySorted (before sigma) l ->
  Forall (fun q => Forall (before sigma q) l) hull ->
  chain sigma (fold_left hull_push l hull).
Proof.
  revert hull. induction l as [|p l IH]; intros hull Hc Hs Hb; simpl.
  - assumption.
  - apply StronglySorted_inv in Hs. destruct Hs as [Hs Hp].
    apply IH; [|assumption|].
    + apply hull_push_chain; [assumption|].
      apply (Forall_impl _ (fun q (H : Forall (before sigma q) (p :: l)) => Forall_inv H)), Hb.
    + unfold hull_push. constructor; [assumption|].
      rewrite Forall_forall in *. intros q Hq.
      apply hull_pop_incl in Hq. specialize (Hb q Hq). now inversion Hb.
Qed.

Lemma fold_hull_incl l hull :
  incl (fold_left hull_push l hull) (hull ++ l).
Proof.
  revert hull. induction l as [|p l IH]; intros hull; simpl.
  - rewrite app_nil_r. apply incl_refl.
  - intros q Hq. apply IH in Hq. apply in_app_or in Hq.
    apply in_or_app. destruct Hq as [[<-|Hq]|Hq].
    + right. now left.
    + left. now apply hull_pop_incl in Hq.
    + right. now right.
Qed.

Lemma fold_hull_top l hull :
  l <> [] -> hd_error (fold_left hull_push l hull) = Some (last l origin).
Proof.
  revert hull. induction l as [|p l IH]; intros hull Hne.
  - contradiction.
  - cbn [fold_left]. destruct l as [|p' l'].
    + reflexivity.
    + rewrite IH by discriminate. reflexivity.
Qed.

Lemma last_cons (a : Point) l d : l <> [] -> last (a :: l) d = last l d.
Proof. destruct l; [contradiction | reflexivity]. Qed.

Lemma last_In (l : list Point) d : l <> [] -> In (last l d) l.
Proof.
  intros H. destruct (exists_last H) as (l' & b & ->).
  rewrite last_last. apply in_or_app. right. now left.
Qed.

Lemma fold_hull_bottom l hull :
  hull <> [] -> last (fold_left hull_push l hull) origin = last hull origin.
Proof.
  revert hull. induction l as [|p l IH]; intros hull Hne.
  - reflexivity.
  - cbn [fold_left]. rewrite IH by discriminate.
    unfold hull_push. assert (H := hull_pop_nonempty hull p Hne).
    rewrite last_cons by assumption. apply hull_pop_last.
Qed.

Lemma pairs_after (R : Point -> Point -> Prop) l1 q l2 :
  ForallOrdPairs R (l1 ++ q :: l2) -> Forall (R q) l2.
Proof.
  induction l1 as [|a l1 IH]; simpl; intros H; inversion H; subst; auto.
Qed.

(** In a half hull every point strictly between the two ends is on the
    left of the chord from the first end to the last. *)
Lemma chain_interior top hull q :
  chain sigma (top :: hull) -> In q hull -> q <> last hull origin ->
  0 < cross (last hull origin) q top.
Proof.
  intros [_ [Hpairs _]] Hq Hne.
  apply in_split in Hq. destruct Hq as (l1 & l2 & ->).
  apply pairs_after in Hpairs.
  assert (Hl2 : l2 <> []).
  { intros ->. apply Hne. now rewrite last_last. }
  assert (E : last (l1 ++ q :: l2) origin = last l2 origin).
  { clear - Hl2. induction l1 as [|a l1 IH]; simpl app.
    - now apply last_cons.
    - rewrite last_cons; [assumption | now destruct l1]. }
  rewrite E. rewrite Forall_forall in Hpairs. apply Hpairs.
  now apply last_In.
Qed.

Lemma chain_NoDup hull : chain sigma hull -> NoDup hull.
Proof.
  intros [Hs _]. induction Hs as [|q hull Hs IH Hq].
  - constructor.
  - constructor; [|assumption]. intros Hin.
    rewrite Forall_forall in Hq. exact (before_irrefl q (Hq q Hin)).
Qed.

End HalfHull.

Lemma after_before a b :
  (0 <? lexicographic a b) = true <-> before 1 b a.
Proof.
  unfold lexicographic, before. rewrite Z.ltb_lt.
  destruct (x a - x b =? 0) eqn:E.
  - apply Z.eqb_eq in E. lia.
  - apply Z.eqb_neq in E. lia.
Qed.

Lemma before_total a b : a <> b -> before 1 a b \/ before 1 b a.
Proof.
  intros Hne. unfold before.
  destruct a as [xa ya], b as [xb yb]. cbn [x y].
  destruct (Z.eq_dec xa xb) as [->|Hx]; [|lia].
  destruct (Z.eq_dec ya yb) as [->|Hy]; [congruence | lia].
Qed.

Lemma before_flip a b : before (-1) a b <-> before 1 b a.
Proof. unfold before. lia. Qed.

Lemma sort_insert_sorted a l :
  StronglySorted (before 1) l -> ~ In a l ->
  StronglySorted (before 1)
    (sort_insert (fun a b => 0 <? lexicographic a b) a l).
Proof.
  intros Hs. induction Hs as [|b l Hs IH Hb]; intros Hin; simpl.
  - constructor; constructor.
  - destruct (0 <? lexicographic a b) eqn:E.
    + apply after_before in E.
      constructor; [apply IH; intros H; apply Hin; now right|].
      apply (@Permutation_Forall _ _ (a :: l)).
      * symmetry. apply sort_insert_perm.
      * now constructor.
    + assert (Hab : before 1 a b).
      { destruct (before_total a b) as [H|H]; [|assumption|].
        - intros ->. apply Hin. now left.
        - apply after_before in H. congruence. }
      constructor; [now constructor|].
      constructor; [assumption|].
      apply (Forall_impl _ (fun c => before_trans 1 (or_introl eq_refl) a b c Hab)), Hb.
Qed.

Lemma sortedPoints_perm pts : Permutation (sortedPoints pts) pts.
Proof. apply sort_perm. Qed.

Lemma sortedPoints_sorted pts :
  NoDup pts -> StronglySorted (before 1) (sortedPoints pts).
Proof.
  unfold sortedPoints. induction 1 as [|a l Ha Hnd IH]; simpl.
  - constructor.
  - apply sort_insert_sorted; [assumption|].
    intros H. apply Ha. apply (Permutation_in _ (sort_perm _ l) H).
Qed.

Lemma sorted_append (R : Point -> Point -> Prop) l a :
  StronglySorted R l -> Forall (fun b => R b a) l -> StronglySorted R (l ++ [a]).
Proof.
  induction 1 as [|b l Hs IH Hb]; intros Ha; simpl.
  - constructor; constructor.
  - inversion Ha; subst. constructor; [now apply IH|].
    apply Forall_app. split; [assumption|]. now constructor.
Qed.

Lemma sorted_rev l :
  StronglySorted (before 1) l -> StronglySorted (before (-1)) (rev l).
Proof.
  induction 1 as [|a l Hs IH Ha]; simpl.
  - constructor.
  - apply sorted_append; [assumption|].
    apply Forall_rev. apply (Forall_impl _ (fun b H => proj2 (before_flip b a) H)), Ha.
Qed.

(** The stack a half hull ends with: a chain from the first point of the
    sorted input (at the bottom) to the last one (on top). *)
Lemma halfHull_stack sigma l :
  sigma = 1 \/ sigma = -1 -> StronglySorted (before sigma) l -> l <> [] ->
  exists rest,
    fold_left hull_push l [] = last l origin :: rest /\
    chain sigma (last l origin :: rest) /\
    incl rest l /\
    last (last l origin :: rest) origin = hd origin l.
Proof.
  intros Hsigma Hs Hne.
  assert (Htop := fold_hull_top l [] Hne).
  assert (Hc : chain sigma (fold_left hull_push l [])).
  { apply fold_hull_chain; try assumption.
    - split; constructor.
    - constructor. }
  assert (Hi := fold_hull_incl l []).
  assert (Hb : last (fold_left hull_push l []) origin = hd origin l).
  { destruct l as [|p l]; [contradiction|].
    cbn [fold_left hd]. now rewrite fold_hull_bottom by discriminate. }
  destruct (fold_left hull_push l []) as [|top rest]; [discriminate|].
  injection Htop as Htop. subst top. exists rest.
  split; [reflexivity|]. split; [assumption|]. split.
  - intros q Hq. apply (Hi q). now right.
  - exact Hb.
Qed.

Lemma removelast_rev_cons (a : Point) l : removelast (rev (a :: l)) = rev l.
Proof. simpl. apply removelast_last. Qed.

Lemma hd_rev (l : list Point) : hd origin (rev l) = last l origin.
Proof.
  destruct l as [|a l] using rev_ind; [reflexivity|].
  now rewrite rev_app_distr, last_last.
Qed.

Lemma last_rev (l : list Point) : last (rev l) origin = hd origin l.
Proof. rewrite <- hd_rev, rev_involutive. reflexivity. Qed.

Lemma hullPoints_stacks pts :
  NoDup pts -> pts <> [] ->
  let first := hd origin (sortedPoints pts) in
  let final := last (sortedPoints pts) origin in
  exists lower upper,
    hullPoints pts = rev lower ++ rev upper /\
    chain 1 (final :: lower) /\ chain (-1) (first :: upper) /\
    incl lower pts /\ incl upper pts /\
    last (final :: lower) origin = first /\
    last (first :: upper) origin = final.
Proof.
  intros Hnd Hne first final.
  assert (Hs := sortedPoints_sorted pts Hnd).
  assert (Hp := sortedPoints_perm pts).
  assert (Hne' : sortedPoints pts <> []).
  { intros E. rewrite E in Hp. apply Permutation_nil in Hp. contradiction. }
  destruct (halfHull_stack 1 (sortedPoints pts) (or_introl eq_refl) Hs Hne')
    as (lower & El & Hcl & Hil & Hbl).
  assert (Hne'' : rev (sortedPoints pts) <> []).
  { intros E. apply (f_equal (@rev Point)) in E. rewrite rev_involutive in E. contradiction. }
  destruct (halfHull_stack (-1) (rev (sortedPoints pts)) (or_intror eq_refl)
              (sorted_rev _ Hs) Hne'')
    as (upper & Eu & Hcu & Hiu & Hbu).
  rewrite last_rev in Eu, Hcu, Hbu. rewrite hd_rev in Hbu.
  exists lower, upper. unfold hullPoints, lowerHull, upperHull, halfHull.
  rewrite El, Eu, !removelast_rev_cons.
  split; [reflexivity|]. split; [assumption|]. split; [assumption|].
  split; [|split; [|split; assumption]].
  - intros q Hq. apply (Permutation_in _ Hp). now apply Hil.
  - intros q Hq. apply (Permutation_in _ Hp). apply in_rev. now apply Hiu.
Qed.

Lemma cross_opposite o a b : cross o a b + cross b a o = 0.
Proof. unfold cross. lia. Qed.

Lemma exact_hullPoints_NoDup pts : NoDup pts -> NoDup (hullPoints pts).
Proof.
  intros Hnd. destruct (list_eq_dec Point_eq_dec pts []) as [->|Hne]; [constructor|].
  pose proof (hullPoints_stacks pts Hnd Hne) as H. cbv zeta in H.
  destruct H as (lower & upper & -> & Hcl & Hcu & _ & _ & Hbl & Hbu).
  assert (Hnl := chain_NoDup 1 _ Hcl). assert (Hnu := chain_NoDup (-1) _ Hcu).
  apply NoDup_cons_iff in Hnl. destruct Hnl as [Hfl Hnl].
  apply NoDup_cons_iff in Hnu. destruct Hnu as [Hfu Hnu].
  apply NoDup_app; [now apply NoDup_rev | now apply NoDup_rev|].
  intros q Hq Hq'. apply in_rev in Hq. apply in_rev in Hq'.
  assert (Hl : lower <> []) by (intros ->; contradiction).
  assert (Hu : upper <> []) by (intros ->; contradiction).
  assert (H1 := chain_interior 1 _ lower q Hcl Hq).
  assert (H2 := chain_interior (-1) _ upper q Hcu Hq').
  rewrite last_cons in Hbl, Hbu by assumption. rewrite Hbl in H1. rewrite Hbu in H2.
  assert (0 < cross (hd origin (sortedPoints pts)) q (last (sortedPoints pts) origin))%Z.
  { apply H1. intros ->. contradiction. }
  assert (0 < cross (last (sortedPoints pts) origin) q (hd origin (sortedPoints pts)))%Z.
  { apply H2. intros ->. contradiction. }
  pose proof (cross_opposite (hd origin (sortedPoints pts)) q (last (sortedPoints pts) origin)).
  lia.
Qed.

Lemma exact_hullPoints_incl pts : NoDup pts -> incl (hullPoints pts) pts.
Proof.
  intros Hnd. destruct (list_eq_dec Point_eq_dec pts []) as [->|Hne]; [intros q []|].
  pose proof (hullPoints_stacks pts Hnd Hne) as H. cbv zeta in H.
  destruct H as (lower & upper & -> & _ & _ & Hil & Hiu & _).
  intros q Hq. apply in_app_or in Hq. destruct Hq as [Hq|Hq]; apply in_rev in Hq; auto.
Qed.

Lemma exact_hullPoints_nonempty pts :
  NoDup pts -> (2 <= length pts)%nat -> hullPoints pts <> [].
Proof.
  intros Hnd Hlen.
  assert (Hne : pts <> []) by (intros ->; simpl in Hlen; lia).
  pose proof (hullPoints_stacks pts Hnd Hne) as H. cbv zeta in H.
  destruct H as (lower & upper & -> & _ & _ & _ & _ & Hbl & _).
  assert (Hs := sortedPoints_sorted pts Hnd).
  assert (Hp := sortedPoints_perm pts).
  apply Permutation_length in Hp.
  intros Happ. apply app_eq_nil in Happ. destruct Happ as [Hl _].
  apply (f_equal (@rev Point)) in Hl. rewrite rev_involutive in Hl. simpl in Hl.
  subst lower. cbn [last] in Hbl.
  destruct (sortedPoints pts) as [|a [|b l]]; simpl in Hp; try lia.
  apply StronglySorted_inv in Hs. destruct Hs as [_ Ha].
  rewrite Forall_forall in Ha.
  apply (before_irrefl 1 a). cbn [hd] in Hbl. rewrite <- Hbl at 2.
  apply Ha. rewrite last_cons by discriminate. apply last_In. discriminate.
Qed.

End Hull.

(** On a point set on the grid these are facts on the hull of the source. *)
Lemma hullPoints_NoDup pts :
  NoDup pts -> Forall onGrid pts -> NoDup (hullPoints pts).
Proof.
  intros Hnd Hgrid. destruct (hullPoints_exact pts Hgrid) as (_ & _ & _ & ->).
  now apply Hull.exact_hullPoints_NoDup.
Qed.

Lemma hullPoints_incl pts :
  NoDup pts -> Forall onGrid pts -> incl (hullPoints pts) pts.
Proof.
  intros Hnd Hgrid. destruct (hullPoints_exact pts Hgrid) as (_ & _ & _ & ->).
  now apply Hull.exact_hullPoints_incl.
Qed.

Lemma hullPoints_nonempty pts :
  NoDup pts -> Forall onGrid pts -> 2 <= length pts -> hullPoints pts <> [].
Proof.
  intros Hnd Hgrid Hlen. destruct (hullPoints_exact pts Hgrid) as (_ & _ & _ & ->).
  now apply Hull.exact_hullPoints_nonempty.
Qed.

(** ** The loop runs until nothing remains or the flag is up *)

Section Loop.
Variable body : State -> Iteration.
Variable Inv : State -> Prop.
Hypothesis body_step :
  forall st, Inv st -> remainingPoints st <> [] ->
  exists st', body st = Next st' /\ Inv st' /\
              S (length (remainingPoints st')) = length (remainingPoints st).

Lemma while_returns flag fuel awaits st :
  Inv st -> length (remainingPoints st) <= fuel ->
  exists st' n,
    while_ body flag fuel awaits st = Returned (st', awaits + n) /\
    Inv st' /\
    n + length (remainingPoints st') = length (remainingPoints st) /\
    (remainingPoints st' = [] \/ stoppedAfter flag (awaits + n) = true) /\
    (forall m, m < n -> stoppedAfter flag (awaits + m) = false).
Proof.
  revert awaits st. induction fuel as [|fuel IH]; intros awaits st Hinv Hlen.
  - destruct (remainingPoints st) as [|p rest] eqn:E; [|simpl in Hlen; lia].
    exists st, 0. simpl. rewrite E, Nat.add_0_r.
    repeat split; auto. intros m Hm. lia.
  - destruct (remainingPoints st) as [|p rest] eqn:E.
    + exists st, 0. simpl. rewrite E, Nat.add_0_r.
      repeat split; auto. intros m Hm. lia.
    + destruct (stoppedAfter flag awaits) eqn:Hflag.
      * exists st, 0. simpl. rewrite E, Hflag, Nat.add_0_r.
        repeat split; auto. intros m Hm. lia.
      * destruct (body_step st Hinv) as (st1 & Hbody & Hinv1 & Hdec);
          [rewrite E; discriminate|].
        rewrite E in Hdec. simpl in Hdec, Hlen.
        destruct (IH (S awaits) st1 Hinv1) as (st' & n & Hw & Hinv' & Hcount & Hexit & Hbefore).
        { lia. }
        exists st', (S n). simpl. rewrite E, Hflag, Hbody.
        replace (awaits + S n) with (S awaits + n) by lia.
        split; [assumption|]. split; [assumption|]. split; [simpl; lia|].
        split; [assumption|].
        intros m Hm. destruct m as [|m].
        -- now rewrite Nat.add_0_r.
        -- replace (awaits + S m) with (S awaits + m) by lia. apply Hbefore. lia.
Qed.
End Loop.

(** ** What a run returns *)

Lemma placed_length pts st :
  placed pts st ->
  length (path st) + length (remainingPoints st) = length pts.
Proof.
  intros [Hperm _]. apply Permutation_length in Hperm.
  now rewrite length_app in Hperm.
Qed.

Lemma loop_spec s pts flag fuel st0 :
  NoDup pts -> regular pts = true -> placed pts st0 -> shows s st0 ->
  length pts <= fuel ->
  exists st n,
    while_ (body_of s) flag fuel (firstTest s) st0
      = Returned (st, firstTest s + n) /\
    placed pts st /\ shows s st /\
    n + length (remainingPoints st) = length (remainingPoints st0) /\
    (remainingPoints st = [] \/ stoppedAfter flag (firstTest s + n) = true) /\
    (forall m, m < n -> stoppedAfter flag (firstTest s + m) = false) /\
    (s = NearestNeighbor -> hd_error (path st) = hd_error (path st0)).
Proof.
  intros Hnd Hreg Hpl Hsh Hfuel.
  destruct (while_returns (body_of s)
              (fun st => placed pts st /\ shows s st /\
                         (s = NearestNeighbor ->
                          hd_error (path st) = hd_error (path st0))))
    with (flag := flag) (fuel := fuel) (awaits := firstTest s) (st := st0)
    as (st & n & Hw & (Hpl' & Hsh' & Hhd) & Hcount & Hexit & Hbefore).
  - intros st (Hp & _ & Hhd) Hrem.
    destruct (body_moves_one s pts st Hnd Hreg Hp Hrem)
      as (st' & Hbody & Hmove & Hshown & Hhd').
    exists st'. split; [assumption|]. split; [|now apply moves_one_length].
    split; [now apply (moves_one_placed pts st)|]. split.
    + intros snap Hsnap. rewrite Hshown in Hsnap. simpl in Hsnap. congruence.
    + intros Hs. now rewrite Hhd', Hhd.
  - split; [assumption|]. split; [assumption|]. intros _. reflexivity.
  - apply placed_length in Hpl. lia.
  - exists st, n. split; [assumption|]. split; [assumption|].
    split; [assumption|]. split; [assumption|]. split; [assumption|].
    split; assumption.
Qed.

Lemma find_other pts start :
  NoDup pts -> 2 <= length pts ->
  exists second, find (fun p => negb (same p start)) pts = Some second /\
                 In second pts /\ second <> start.
Proof.
  intros Hnd Hlen.
  destruct (find (fun p => negb (same p start)) pts) as [second|] eqn:E.
  - apply find_some in E. destruct E as [Hin Hne].
    exists second. repeat split; [assumption|].
    apply negb_true_iff, same_false in Hne. assumption.
  - exfalso. destruct pts as [|a [|b rest]]; simpl in Hlen; try lia.
    assert (Ha := find_none _ _ E a (or_introl eq_refl)).
    assert (Hb := find_none _ _ E b (or_intror (or_introl eq_refl))).
    simpl in Ha, Hb. apply negb_false_iff, same_true in Ha, Hb. subst.
    apply NoDup_cons_iff in Hnd. apply (proj1 Hnd). now left.
Qed.

(** A run goes from its initial state through its loop, and what it returns
    is the state the loop ends with, closed unless the flag is up. *)
Lemma run_loop s pts k flag fuel :
  NoDup pts -> 2 <= length pts -> Forall onGrid pts ->
  k < length pts -> length pts <= fuel ->
  exists st0 st n,
    initial s k pts = Some st0 /\ placed pts st0 /\
    length (remainingPoints st0) = toPlace s pts /\
    while_ (body_of s) flag fuel (firstTest s) st0
      = Returned (st, firstTest s + n) /\
    run s k flag fuel pts = Returned (finish s flag pts st n) /\
    placed pts st /\ shows s st /\
    n + length (remainingPoints st) = toPlace s pts /\
    (remainingPoints st = [] \/ stoppedAfter flag (firstTest s + n) = true) /\
    (forall m, m < n -> stoppedAfter flag (firstTest s + m) = false).
Proof.
  intros Hnd Hlen Hgrid Hk Hfuel.
  assert (Hreg := regular_onGrid pts Hgrid).
  destruct s; cbn [run initial].
  - (* nearestNeighbor *)
    unfold nearestNeighbor.
    destruct (nth_error pts k) as [startPoint|] eqn:Ek;
      [|apply nth_error_None in Ek; lia].
    assert (Hin : In startPoint pts) by (eapply nth_error_In; eassumption).
    set (st0 := mkState [startPoint] _ []).
    assert (Hpl : placed pts st0).
    { split; [|discriminate]. symmetry. now apply filter_other_perm. }
    assert (Hsh : shows NearestNeighbor st0) by (intros snap H; discriminate H).
    destruct (loop_spec NearestNeighbor pts flag fuel st0 Hnd Hreg Hpl Hsh Hfuel)
      as (st & n & Hw & Hpl' & Hsh' & Hcount & Hexit & Hbefore & Hhd).
    assert (Hw0 := Hw). cbn [firstTest body_of] in Hw. rewrite Hw.
    assert (Hleft : length (remainingPoints st0) = toPlace NearestNeighbor pts)
      by (cbn; apply placed_length in Hpl; cbn in Hpl; lia).
    exists st0, st, n. unfold finish. cbn [firstTest closesInPlace].
    split; [reflexivity|]. split; [exact Hpl|]. split; [exact Hleft|].
    split; [exact Hw0|].
    split; [|split; [exact Hpl'|split; [exact Hsh'|split;
      [|split; [exact Hexit|exact Hbefore]]]]].
    + destruct (stoppedAfter flag (0 + n)); [reflexivity|].
      specialize (Hhd eq_refl). cbn in Hhd.
      destruct (path st) as [|p l] eqn:Ep; [discriminate|].
      injection Hhd as ->. reflexivity.
    + rewrite Hcount. exact Hleft.
  - (* arbitraryInsertion *)
    unfold arbitraryInsertion.
    destruct (nth_error pts k) as [startPoint|] eqn:Ek;
      [|apply nth_error_None in Ek; lia].
    assert (Hin : In startPoint pts) by (eapply nth_error_In; eassumption).
    destruct (find_other pts startPoint Hnd Hlen) as (second & -> & Hin2 & Hne).
    set (st0 := mkState [startPoint; second] _ []).
    assert (Hpl : placed pts st0).
    { split; [|discriminate]. apply filter_excluded_perm; try assumption.
      - constructor; [intros [H|[]]; congruence|]. constructor; [intros []|constructor].
      - intros q [<-|[<-|[]]]; assumption. }
    assert (Hsh : shows ArbitraryInsertion st0) by (intros snap H; discriminate H).
    destruct (loop_spec ArbitraryInsertion pts flag fuel st0 Hnd Hreg Hpl Hsh Hfuel)
      as (st & n & Hw & Hpl' & Hsh' & Hcount & Hexit & Hbefore & _).
    assert (Hw0 := Hw). cbn [firstTest body_of] in Hw. rewrite Hw.
    assert (Hleft : length (remainingPoints st0) = toPlace ArbitraryInsertion pts)
      by (cbn; apply placed_length in Hpl; cbn in Hpl; lia).
    exists st0, st, n. unfold finish. cbn [firstTest closesInPlace].
    split; [reflexivity|]. split; [exact Hpl|]. split; [exact Hleft|].
    split; [exact Hw0|].
    split; [|split; [exact Hpl'|split; [exact Hsh'|split;
      [|split; [exact Hexit|exact Hbefore]]]]].
    + destruct (stoppedAfter flag (0 + n)); reflexivity.
    + rewrite Hcount. exact Hleft.
  - (* nearestInsertion *)
    unfold nearestInsertion.
    destruct (nth_error pts k) as [startPoint|] eqn:Ek;
      [|apply nth_error_None in Ek; lia].
    assert (Hin : In startPoint pts) by (eapply nth_error_In; eassumption).
    destruct (find_other pts startPoint Hnd Hlen) as (second & -> & Hin2 & Hne).
    set (st0 := mkState [startPoint; second] _ []).
    assert (Hpl : placed pts st0).
    { split; [|discriminate]. apply filter_excluded_perm; try assumption.
      - constructor; [intros [H|[]]; congruence|]. constructor; [intros []|constructor].
      - intros q [<-|[<-|[]]]; assumption. }
    assert (Hsh : shows NearestInsertion st0) by (intros snap H; discriminate H).
    destruct (loop_spec NearestInsertion pts flag fuel st0 Hnd Hreg Hpl Hsh Hfuel)
      as (st & n & Hw & Hpl' & Hsh' & Hcount & Hexit & Hbefore & _).
    assert (Hw0 := Hw). cbn [firstTest body_of] in Hw. rewrite Hw.
    assert (Hleft : length (remainingPoints st0) = toPlace NearestInsertion pts)
      by (cbn; apply placed_length in Hpl; cbn in Hpl; lia).
    exists st0, st, n. unfold finish. cbn [firstTest closesInPlace].
    split; [reflexivity|]. split; [exact Hpl|]. split; [exact Hleft|].
    split; [exact Hw0|].
    split; [|split; [exact Hpl'|split; [exact Hsh'|split;
      [|split; [exact Hexit|exact Hbefore]]]]].
    + destruct (stoppedAfter flag (0 + n)); reflexivity.
    + rewrite Hcount. exact Hleft.
  - (* furthestInsertion *)
    unfold furthestInsertion.
    destruct pts as [|p0 rest]; [simpl in Hlen; lia|].
    set (st0 := furthestInsertion_init p0 rest).
    assert (Hinit : placed (p0 :: rest) st0 /\ shows FurthestInsertion st0 /\
                    length (remainingPoints st0) = length rest - 1).
    { unfold st0, furthestInsertion_init.
      set (sorted := sort _ rest).
      assert (Hs : Permutation sorted rest) by apply sort_perm.
      destruct sorted as [|f remaining].
      - apply Permutation_nil in Hs. subst rest. simpl in Hlen. lia.
      - split; [split; [|discriminate]|split].
        + cbn. now constructor.
        + intros snap H. cbn in H. now injection H as <-.
        + apply Permutation_length in Hs. cbn in *. lia. }
    destruct Hinit as (Hpl & Hsh & Hrem0).
    destruct (loop_spec FurthestInsertion _ flag fuel st0 Hnd Hreg Hpl Hsh Hfuel)
      as (st & n & Hw & Hpl' & Hsh' & Hcount & Hexit & Hbefore & _).
    assert (Hw0 := Hw). cbn [firstTest body_of] in Hw. rewrite Hw.
    assert (Hleft : length (remainingPoints st0) = toPlace FurthestInsertion (p0 :: rest))
      by (rewrite Hrem0; cbn; lia).
    exists st0, st, n. unfold finish. cbn [firstTest closesInPlace].
    split; [reflexivity|]. split; [exact Hpl|]. split; [exact Hleft|].
    split; [exact Hw0|].
    split; [|split; [exact Hpl'|split; [exact Hsh'|split;
      [|split; [exact Hexit|exact Hbefore]]]]].
    + destruct (stoppedAfter flag (1 + n)); reflexivity.
    + rewrite Hcount. exact Hleft.
  - (* convexHull *)
    unfold convexHull.
    set (st0 := mkState (hullPoints pts) _ [closing (hullPoints pts)]).
    assert (Hpl : placed pts st0).
    { split.
      - apply filter_excluded_perm; try assumption.
        + now apply hullPoints_NoDup.
        + now apply hullPoints_incl.
      - now apply hullPoints_nonempty. }
    assert (Hsh : shows ConvexHull st0).
    { intros snap H. cbn in H. now injection H as <-. }
    destruct (loop_spec ConvexHull pts flag fuel st0 Hnd Hreg Hpl Hsh Hfuel)
      as (st & n & Hw & Hpl' & Hsh' & Hcount & Hexit & Hbefore & _).
    assert (Hw0 := Hw). cbn [firstTest body_of] in Hw. rewrite Hw.
    assert (Hleft : length (remainingPoints st0) = toPlace ConvexHull pts)
      by (cbn [toPlace]; apply placed_length in Hpl; cbn in Hpl; unfold st0; cbn [remainingPoints]; lia).
    exists st0, st, n. unfold finish. cbn [firstTest closesInPlace].
    split; [reflexivity|]. split; [exact Hpl|]. split; [exact Hleft|].
    split; [exact Hw0|].
    split; [|split; [exact Hpl'|split; [exact Hsh'|split;
      [|split; [exact Hexit|exact Hbefore]]]]].
    + destruct (stoppedAfter flag (1 + n)); reflexivity.
    + rewrite Hcount. exact Hleft.
Qed.

Lemma run_spec s pts k flag fuel :
  NoDup pts -> 2 <= length pts -> Forall onGrid pts ->
  k < length pts -> length pts <= fuel ->
  exists st n,
    run s k flag fuel pts = Returned (finish s flag pts st n) /\
    placed pts st /\ shows s st /\
    n + length (remainingPoints st) = toPlace s pts /\
    (remainingPoints st = [] \/ stoppedAfter flag (firstTest s + n) = true) /\
    (forall m, m < n -> stoppedAfter flag (firstTest s + m) = false).
Proof.
  intros Hnd Hlen Hgrid Hk Hfuel.
  destruct (run_loop s pts k flag fuel Hnd Hlen Hgrid Hk Hfuel)
    as (st0 & st & n & _ & _ & _ & _ & H).
  now exists st, n.
Qed.

(** ** The turns of a loop *)

(** A loop that returns has made as many turns as it has waited. *)
Lemma while_turns body flag fuel awaits st st' m :
  while_ body flag fuel awaits st = Returned (st', m) ->
  exists n, m = awaits + n /\ turns body n st = Some st' /\
            (n = 0 \/ remainingPoints st <> []).
Proof.
  revert awaits st. induction fuel as [|fuel IH]; intros awaits st Hw;
    simpl in Hw; destruct (remainingPoints st) as [|p rest] eqn:Er;
    try (injection Hw as <- <-; exists 0; rewrite Nat.add_0_r; now auto);
    destruct (stoppedAfter flag awaits);
    try (injection Hw as <- <-; exists 0; rewrite Nat.add_0_r; now auto);
    try discriminate Hw.
  destruct (body st) as [st1| | |] eqn:Eb; try discriminate Hw.
  - destruct (IH _ _ Hw) as (n & -> & Hn & _).
    exists (S n). split; [lia|]. split; [|right; discriminate].
    cbn [turns]. now rewrite Eb.
  - injection Hw as <- <-. exists 0. rewrite Nat.add_0_r. now auto.
Qed.

Lemma turns_split body i j st st' :
  turns body (i + j) st = Some st' ->
  exists sti, turns body i st = Some sti /\ turns body j sti = Some st'.
Proof.
  revert st. induction i as [|i IH]; intros st H.
  - now exists st.
  - cbn [Nat.add turns] in *. destruct (body st) as [st1| | |]; try discriminate H.
    now apply IH.
Qed.

(** As long as points remain, every turn takes one of them into the path. *)
Lemma turns_placed s pts n st st' :
  NoDup pts -> regular pts = true -> placed pts st ->
  n <= length (remainingPoints st) ->
  turns (body_of s) n st = Some st' ->
  placed pts st' /\
  n + length (remainingPoints st') = length (remainingPoints st).
Proof.
  intros Hnd Hreg. revert st.
  induction n as [|n IH]; intros st Hpl Hn H.
  - injection H as <-. now split.
  - cbn [turns] in H.
    assert (Hrem : remainingPoints st <> [])
      by (intros E; rewrite E in Hn; simpl in Hn; lia).
    destruct (body_moves_one s pts st Hnd Hreg Hpl Hrem)
      as (st1 & Hbody & Hmove & _).
    rewrite Hbody in H.
    assert (Hdec := moves_one_length st st1 Hmove).
    destruct (IH st1) as [Hpl' Hcount]; try assumption.
    + now apply (moves_one_placed pts st).
    + lia.
    + split; [assumption | lia].
Qed.

(** * The claims *)

Lemma distinct_NoDup l : distinct l = true -> NoDup l.
Proof.
  induction l as [|a l IH]; simpl; intros H.
  - constructor.
  - apply andb_prop in H. destruct H as [Ha Hl].
    constructor; [|now apply IH].
    intros Hin. apply includes_In in Hin. rewrite Hin in Ha. discriminate.
Qed.

(** ** C3: the number of possible paths *)

Lemma factorialZ_fact n : factorialZ n = Z.of_nat (fact n).
Proof.
  induction n as [|n IH].
  - reflexivity.
  - cbn [factorialZ fact]. rewrite IH, <- Nat2Z.inj_mul. reflexivity.
Qed.

Lemma factorial_exact_checked :
  forallb factorial_against_exact (seq 0 171) = true.
Proof. vm_compute. reflexivity. Qed.

(** C3, as the code has it: the metric installed with a point set of [n]
    points is [factorial(n)], the product [n * (n-1) * ... * 2] computed in
    binary64.  For every [n] up to [170], which covers what the slider
    allows (3 to 100), it is an integer: [n!] itself up to [n = 22], where
    no product is rounded; from [n = 23] on [n!] is not a binary64 number
    and the metric is an integer within [n! / 2^45] of it.  From two points
    on it is never [(n-1)!]. *)
Theorem C3_possiblePaths_is_factorial (n : nat) :
  n <= 170 ->
  exists v,
    integerOf (possiblePaths (randomizeVertices_metrics n)) = Some v /\
    (n <= 22 -> v = Z.of_nat (fact n)) /\
    (23 <= n ->
     v <> Z.of_nat (fact n) /\
     (Z.abs (v - Z.of_nat (fact n)) * 2 ^ 45 <= Z.of_nat (fact n))%Z) /\
    (2 <= n -> v <> Z.of_nat (fact (n - 1))).
Proof.
  intros Hn. rewrite <- !factorialZ_fact.
  assert (H := proj1 (forallb_forall _ _) factorial_exact_checked n
                 ltac:(apply in_seq; lia)).
  unfold factorial_against_exact in H.
  unfold randomizeVertices_metrics, possiblePaths.
  destruct (integerOf (factorial n)) as [v|]; [|discriminate H].
  exists v. split; [reflexivity|].
  apply andb_prop in H. destruct H as [H1 H2].
  split; [|split].
  - intros Hle. apply Nat.leb_le in Hle. rewrite Hle in H1.
    now apply Z.eqb_eq.
  - intros Hge. assert (E : (n <=? 22) = false) by (apply Nat.leb_gt; lia).
    rewrite E in H1. apply andb_prop in H1. destruct H1 as [H1 H3].
    split.
    + apply negb_true_iff, Z.eqb_neq in H1. exact H1.
    + now apply Z.leb_le.
  - intros Hge. apply Nat.leb_le in Hge. rewrite Hge in H2.
    apply negb_true_iff, Z.eqb_neq in H2. exact H2.
Qed.

Lemma C3_possiblePaths_witness :
  exists v,
    integerOf (possiblePaths (randomizeVertices_metrics 5)) = Some v /\
    (5 <= 22 -> v = Z.of_nat (fact 5)) /\
    (23 <= 5 ->
     v <> Z.of_nat (fact 5) /\
     (Z.abs (v - Z.of_nat (fact 5)) * 2 ^ 45 <= Z.of_nat (fact 5))%Z) /\
    (2 <= 5 -> v <> Z.of_nat (fact (5 - 1))).
Proof. apply (C3_possiblePaths_is_factorial 5). lia. Defined.

(** C3 fails as stated: five points give [120], not [4! = 24]. *)
Lemma C3_possiblePaths_counterexample :
  possiblePaths (randomizeVertices_metrics 5) = 120%float /\
  possiblePaths (randomizeVertices_metrics 5) <> toNumber (Z.of_nat (fact (5 - 1))).
Proof.
  split.
  - vm_compute. reflexivity.
  - intros H. apply (f_equal (fun v => (v =? 120)%float)) in H.
    vm_compute in H. discriminate H.
Qed.

(** ** C8: an unknown strategy name *)

(** C8, as the code has it: on a name outside the five known ones
    [startAlgorithm] returns normally like any other call; it starts no
    strategy, clears [isRunning] again and leaves one line on the console
    (the paths were cleared and a fresh token installed before the
    [switch]). *)
Theorem C8_unknown_name_is_logged (ui : Controller) :
  strategyNamed (algorithm ui) = None ->
  exists ui',
    startAlgorithm ui = Returned (ui', None) /\
    isRunning ui' = false /\
    console ui' = console ui ++ ["Algorithm not implemented"%string] /\
    algorithmRef ui' = Some false /\
    shownPath ui' = [] /\ shownBest ui' = [].
Proof.
  intros Hname. unfold startAlgorithm. rewrite Hname.
  eexists. split; [reflexivity|]. repeat split.
Qed.

Lemma C8_unknown_name_witness :
  exists ui',
    startAlgorithm (idle "two-opt") = Returned (ui', None) /\
    isRunning ui' = false /\
    console ui' = console (idle "two-opt") ++ ["Algorithm not implemented"%string] /\
    algorithmRef ui' = Some false /\
    shownPath ui' = [] /\ shownBest ui' = [].
Proof. apply (C8_unknown_name_is_logged (idle "two-opt")). reflexivity. Defined.

(** C8 fails as stated: the call with an unknown name completes like a
    call with a known one, so its caller is told of no error. *)
Lemma C8_unknown_name_counterexample :
  strategyNamed "two-opt" = None /\
  startAlgorithm (idle "two-opt") <> TypeError /\
  exists ui', startAlgorithm (idle "two-opt") = Returned (ui', None).
Proof.
  split; [reflexivity|]. split; [discriminate|].
  eexists. reflexivity.
Qed.

(** ** C9: the point set after a run *)

(** In the typed component no strategy touches the [points] array. *)
Lemma run_leaves_points s k flag fuel pts o :
  run s k flag fuel pts = Returned o -> points o = pts.
Proof.
  destruct s; cbn [run];
    unfold nearestNeighbor, arbitraryInsertion, nearestInsertion,
           furthestInsertion, convexHull; intros H;
    repeat match type of H with
           | match ?e with _ => _ end = _ => destruct e eqn:?; try discriminate H
           | (if ?e then _ else _) = _ => destruct e eqn:?; try discriminate H
           | (let (_, _) := ?e in _) = _ => destruct e eqn:?
           end;
    injection H as <-; reflexivity.
Qed.

(** C9 for the untyped copy: its [furthestInsertion] returns with the first
    point shifted out of the component's [points] array. *)
Theorem C9_jsx_furthestInsertion_shifts_points flag fuel p0 rest o :
  Jsx.furthestInsertion flag fuel (p0 :: rest) = Returned o ->
  points o = rest.
Proof.
  unfold Jsx.furthestInsertion. intros H.
  repeat match type of H with
         | match ?e with _ => _ end = _ => destruct e eqn:?; try discriminate H
         | (if ?e then _ else _) = _ => destruct e eqn:?; try discriminate H
         | (let (_, _) := ?e in _) = _ => destruct e eqn:?
         end;
  injection H as <-; reflexivity.
Qed.

Lemma C9_jsx_furthestInsertion_witness :
  exists o,
    Jsx.furthestInsertion neverStopped 3 triangle = Returned o /\
    points o = [mkPoint 100 15; mkPoint 100 90] /\
    points o <> triangle.
Proof.
  eexists. split; [vm_compute; reflexivity|].
  split.
  - apply (C9_jsx_furthestInsertion_shifts_points neverStopped 3
             (mkPoint 20 15) [mkPoint 100 15; mkPoint 100 90]).
    vm_compute. reflexivity.
  - cbn. discriminate.
Defined.

(** ** C5: two runs of nearest insertion *)

(** C5 fails as stated: two runs of [nearestInsertion] on the same five
    points, one starting from the first point and one from the second,
    publish different tours, of different lengths. *)
Lemma C5_nearestInsertion_counterexample :
  exists o1 o2,
    run NearestInsertion 0 neverStopped 5 scattered = Returned o1 /\
    run NearestInsertion 1 neverStopped 5 scattered = Returned o2 /\
    bestPath o1 =
      Some [mkPoint 60 75; mkPoint 100 90; mkPoint 40 45; mkPoint 40 60;
            mkPoint 20 75; mkPoint 60 75] /\
    bestPath o2 =
      Some [mkPoint 20 75; mkPoint 40 45; mkPoint 40 60; mkPoint 60 75;
            mkPoint 100 90; mkPoint 20 75] /\
    bestPath o1 <> bestPath o2 /\
    (exists c1 c2, finalCost o1 = Some c1 /\ finalCost o2 = Some c2 /\
                   (c1 <? c2)%float = true).
Proof.
  eexists. eexists.
  split; [vm_compute; reflexivity|]. split; [vm_compute; reflexivity|].
  split; [reflexivity|]. split; [reflexivity|]. split; [discriminate|].
  eexists. eexists. split; [reflexivity|]. split; [reflexivity|].
  vm_compute. reflexivity.
Qed.

(** ** C1, C2, C10: complete runs *)

Lemma neverStopped_after flag awaits :
  (forall n, flag n = false) -> stoppedAfter flag awaits = false.
Proof. intros H. destruct awaits; [reflexivity | apply H]. Qed.

(** A run that is never stopped ends with nothing left to place and
    publishes the closed path. *)
Lemma run_complete s pts k flag fuel :
  NoDup pts -> 2 <= length pts -> Forall onGrid pts ->
  k < length pts -> (forall n, flag n = false) -> length pts <= fuel ->
  exists o first mid,
    run s k flag fuel pts = Returned o /\
    stopped o = false /\
    remainingPoints (locals o) = [] /\
    bestPath o = Some (first :: mid ++ [first]) /\
    Permutation (first :: mid) pts.
Proof.
  intros Hnd Hlen Hgrid Hk Hflag Hfuel.
  destruct (run_spec s pts k flag fuel Hnd Hlen Hgrid Hk Hfuel)
    as (st & n & Hrun & [Hperm Hne] & _ & _ & Hexit & _).
  rewrite (neverStopped_after flag _ Hflag) in Hexit.
  destruct Hexit as [Hexit|Hexit]; [|discriminate].
  rewrite Hexit, app_nil_r in Hperm.
  destruct (path st) as [|first mid] eqn:Epath; [contradiction|].
  exists (finish s flag pts st n), first, mid.
  split; [assumption|]. unfold finish.
  rewrite (neverStopped_after flag _ Hflag). cbn [stopped bestPath locals].
  rewrite Epath. split; [reflexivity|]. split.
  - destruct (closesInPlace s); cbn; assumption.
  - split; [reflexivity | assumption].
Qed.

(** C1: on a point set of at least three distinct points, placed as the
    generator places them on the crossings of the grid, every strategy, when
    never stopped, publishes a final tour that ends where it starts and
    whose other elements are the points of the set, each exactly once. *)
Theorem C1_final_tour_closed_and_complete (s : Strategy) (pts : list Point)
    (k fuel : nat) (flag : nat -> bool) :
  NoDup pts -> 3 <= length pts -> Forall onGrid pts ->
  k < length pts -> (forall n, flag n = false) -> length pts <= fuel ->
  exists o first mid,
    run s k flag fuel pts = Returned o /\
    bestPath o = Some (first :: mid ++ [first]) /\
    Permutation (first :: mid) pts.
Proof.
  intros Hnd Hlen Hgrid Hk Hflag Hfuel.
  assert (Hreg := regular_onGrid pts Hgrid).
  destruct (run_complete s pts k flag fuel Hnd) as (o & first & mid & H);
    try assumption; [lia|].
  exists o, first, mid. tauto.
Qed.

Lemma C1_final_tour_witness :
  exists o first mid,
    run ConvexHull 0 neverStopped 3 triangle = Returned o /\
    bestPath o = Some (first :: mid ++ [first]) /\
    Permutation (first :: mid) triangle.
Proof.
  apply (C1_final_tour_closed_and_complete ConvexHull triangle 0 3 neverStopped).
  - apply distinct_NoDup. vm_compute. reflexivity.
  - simpl. lia.
  - apply allOnGrid_onGrid. vm_compute. reflexivity.
  - simpl. lia.
  - reflexivity.
  - simpl. lia.
Defined.

(** C1 fails as stated on a point set whose coordinates are so large that
    the products in [cross] overflow: every cross product is [NaN], no test
    [cross(..) <= 0] succeeds, both half hulls keep all three points, and
    the tour [convexHull] publishes visits the middle one twice. *)
Lemma C1_overflow_counterexample :
  NoDup farTriangle /\ length farTriangle = 3 /\
  exists o,
    run ConvexHull 0 neverStopped 3 farTriangle = Returned o /\
    bestPath o =
      Some [mkPoint 0 0; mkPoint (2 ^ 600) (2 ^ 600); mkPoint (2 ^ 601) (2 ^ 600);
            mkPoint (2 ^ 600) (2 ^ 600); mkPoint 0 0] /\
    forall first mid,
      bestPath o = Some (first :: mid ++ [first]) ->
      ~ Permutation (first :: mid) farTriangle.
Proof.
  split; [apply distinct_NoDup; vm_compute; reflexivity|].
  split; [reflexivity|].
  eexists. split; [vm_compute; reflexivity|].
  split; [vm_compute; reflexivity|].
  intros first mid E Hperm.
  apply (f_equal (fun t => option_map (@length Point) t)) in E.
  apply Permutation_length in Hperm.
  cbn [bestPath option_map] in E. injection E as E.
  cbn [length] in E. rewrite length_app in E.
  cbn [length farTriangle] in E, Hperm. lia.
Qed.

(** A single point is enough for [nearestNeighbor] and [furthestInsertion]. *)
Lemma run_single_point s p k flag fuel :
  s = NearestNeighbor \/ s = FurthestInsertion -> k < 1 ->
  exists o, run s k flag fuel [p] = Returned o.
Proof.
  intros [-> | ->] Hk.
  - destruct k; [|lia]. cbn [run]. unfold nearestNeighbor. cbn [nth_error filter].
    rewrite (proj2 (same_true p p) eq_refl). cbn [negb].
    destruct fuel; cbn; eexists; reflexivity.
  - cbn [run]. unfold furthestInsertion, furthestInsertion_init. cbn [sort].
    destruct fuel; cbn; destruct (flag 0); eexists; reflexivity.
Qed.

(** On a single point the three other strategies fail, whatever the draw,
    the flag and the fuel. *)
Lemma insertion_single_point_throws p k flag fuel :
  run ArbitraryInsertion k flag fuel [p] = TypeError /\
  run NearestInsertion k flag fuel [p] = TypeError.
Proof.
  cbn [run]. unfold arbitraryInsertion, nearestInsertion.
  destruct k as [|k]; cbn [nth_error].
  - cbn [find]. rewrite (proj2 (same_true p p) eq_refl). split; reflexivity.
  - destruct k; split; reflexivity.
Qed.

Lemma convexHull_single_point_hangs p k flag fuel :
  flag 0 = false -> run ConvexHull k flag (S fuel) [p] = Hangs.
Proof.
  intros Hflag. cbn [run]. unfold convexHull.
  change (hullPoints [p]) with (@nil Point).
  cbn [filter includes existsb negb while_ remainingPoints stoppedAfter].
  rewrite Hflag. reflexivity.
Qed.

(** C2, as the code has it: every strategy runs to completion, raising
    nothing, on a point set of at least two points on the grid, whatever the
    flag does; [nearestNeighbor] and [furthestInsertion] also do on a single
    point. *)
Theorem C2_strategies_return (s : Strategy) (pts : list Point)
    (k fuel : nat) (flag : nat -> bool) :
  NoDup pts -> Forall onGrid pts -> k < length pts -> length pts <= fuel ->
  2 <= length pts \/
  (length pts = 1 /\ (s = NearestNeighbor \/ s = FurthestInsertion)) ->
  exists o, run s k flag fuel pts = Returned o.
Proof.
  intros Hnd Hgrid Hk Hfuel Hsize.
  assert (Hreg := regular_onGrid pts Hgrid).
  destruct Hsize as [Hlen | [Hlen Hs]].
  - destruct (run_spec s pts k flag fuel Hnd Hlen Hgrid Hk Hfuel)
      as (st & n & Hrun & _).
    eexists. exact Hrun.
  - destruct pts as [|p [|q rest]]; try discriminate Hlen.
    now apply run_single_point.
Qed.

Lemma C2_strategies_return_witness :
  exists o, run ArbitraryInsertion 1 stoppedInSecondWait 4 kite = Returned o.
Proof.
  apply (C2_strategies_return ArbitraryInsertion kite 1 4 stoppedInSecondWait).
  - apply distinct_NoDup. vm_compute. reflexivity.
  - apply allOnGrid_onGrid. vm_compute. reflexivity.
  - simpl. lia.
  - simpl. lia.
  - left. simpl. lia.
Defined.

(** C2 fails as stated: on a point set of one point [arbitraryInsertion]
    and [nearestInsertion] read a property of [undefined], and [convexHull]
    spins in its loop. *)
Lemma C2_single_point_counterexample :
  NoDup [mkPoint 20 15] /\ allOnGrid [mkPoint 20 15] = true /\
  run ArbitraryInsertion 0 neverStopped 5 [mkPoint 20 15] = TypeError /\
  run NearestInsertion 0 neverStopped 5 [mkPoint 20 15] = TypeError /\
  run ConvexHull 0 neverStopped 5 [mkPoint 20 15] = Hangs.
Proof.
  split; [apply distinct_NoDup; reflexivity|].
  repeat split; vm_compute; reflexivity.
Qed.

(** C10: on a point set of at least three distinct points on the grid and
    with the flag never set, the run of every strategy goes from its initial
    state through as many turns of its loop as that state has points to
    place, and returns the state these turns end with, closed, with nothing
    remaining.  Each of these turns takes exactly one point from the
    remaining ones into the path, so that before turn [i] their number is
    the initial number less [i]. *)
Theorem C10_loop_empties_remaining (s : Strategy) (pts : list Point)
    (k fuel : nat) (flag : nat -> bool) :
  NoDup pts -> 3 <= length pts -> Forall onGrid pts ->
  k < length pts -> (forall n, flag n = false) -> length pts <= fuel ->
  exists o st0 st,
    run s k flag fuel pts = Returned o /\
    initial s k pts = Some st0 /\
    length (remainingPoints st0) = toPlace s pts /\
    turns (body_of s) (toPlace s pts) st0 = Some st /\
    o = finish s flag pts st (toPlace s pts) /\
    remainingPoints st = [] /\ remainingPoints (locals o) = [] /\
    Permutation (path st) pts /\
    (forall i, i < toPlace s pts ->
       exists sti sti' p,
         turns (body_of s) i st0 = Some sti /\
         body_of s sti = Next sti' /\
         turns (body_of s) (S i) st0 = Some sti' /\
         length (remainingPoints sti) = toPlace s pts - i /\
         Permutation (remainingPoints sti) (p :: remainingPoints sti') /\
         Permutation (path sti') (p :: path sti)).
Proof.
  intros Hnd Hlen Hgrid Hk Hflag Hfuel.
  assert (Hreg := regular_onGrid pts Hgrid).
  destruct (run_loop s pts k flag fuel Hnd) as
    (st0 & st & n & Hinit & Hpl0 & Hleft & Hw & Hrun & Hpl & _ & Hcount & Hexit & _);
    try assumption; [lia|].
  rewrite (neverStopped_after flag _ Hflag) in Hexit.
  destruct Hexit as [Hexit|Hexit]; [|discriminate].
  assert (Hn : n = toPlace s pts) by (rewrite Hexit in Hcount; simpl in Hcount; lia).
  subst n.
  destruct (while_turns _ _ _ _ _ _ _ Hw) as (n & Hn & Hturns & _).
  assert (n = toPlace s pts) by lia. subst n. clear Hn.
  exists (finish s flag pts st (toPlace s pts)), st0, st.
  split; [assumption|]. split; [assumption|]. split; [assumption|].
  split; [assumption|]. split; [reflexivity|]. split; [assumption|].
  split.
  { unfold finish. rewrite (neverStopped_after flag _ Hflag).
    cbn [locals]. now destruct (closesInPlace s). }
  split.
  { destruct Hpl as [Hperm _]. now rewrite Hexit, app_nil_r in Hperm. }
  intros i Hi.
  replace (toPlace s pts) with (i + S (toPlace s pts - S i)) in Hturns by lia.
  destruct (turns_split _ _ _ _ _ Hturns) as (sti & Hi1 & Hi2).
  destruct (turns_placed s pts i st0 sti Hnd Hreg Hpl0 ltac:(lia) Hi1)
    as [Hpli Hcounti].
  assert (Hremi : remainingPoints sti <> []).
  { intros E. rewrite E in Hcounti. simpl in Hcounti. lia. }
  destruct (body_moves_one s pts sti Hnd Hreg Hpli Hremi)
    as (sti' & Hbody & (p & Hr & Hp) & _).
  exists sti, sti', p. split; [assumption|]. split; [assumption|].
  split.
  { replace (S i) with (i + 1) by lia.
    clear Hi2 Hturns. revert Hi1. generalize st0. clear - Hbody.
    induction i as [|i IH]; intros st0 Hi1; cbn [Nat.add turns] in *.
    - injection Hi1 as ->. now rewrite Hbody.
    - destruct (body_of s st0); try discriminate Hi1. now apply IH. }
  split; [lia|]. split; assumption.
Qed.

Lemma C10_loop_empties_witness :
  exists o st0 st,
    run NearestInsertion 2 neverStopped 4 kite = Returned o /\
    initial NearestInsertion 2 kite = Some st0 /\
    length (remainingPoints st0) = toPlace NearestInsertion kite /\
    turns (body_of NearestInsertion) (toPlace NearestInsertion kite) st0 = Some st /\
    o = finish NearestInsertion neverStopped kite st (toPlace NearestInsertion kite) /\
    remainingPoints st = [] /\ remainingPoints (locals o) = [] /\
    Permutation (path st) kite /\
    (forall i, i < toPlace NearestInsertion kite ->
       exists sti sti' p,
         turns (body_of NearestInsertion) i st0 = Some sti /\
         body_of NearestInsertion sti = Next sti' /\
         turns (body_of NearestInsertion) (S i) st0 = Some sti' /\
         length (remainingPoints sti) = toPlace NearestInsertion kite - i /\
         Permutation (remainingPoints sti) (p :: remainingPoints sti') /\
         Permutation (path sti') (p :: path sti)).
Proof.
  apply (C10_loop_empties_remaining NearestInsertion kite 2 4 neverStopped).
  - apply distinct_NoDup. vm_compute. reflexivity.
  - simpl. lia.
  - apply allOnGrid_onGrid. vm_compute. reflexivity.
  - simpl. lia.
  - reflexivity.
  - simpl. lia.
Defined.

(** C10 fails as stated on a point set whose coordinates are so large that
    the squares in [distance] overflow: every insertion cost is
    [Infinity - Infinity], no candidate is below [Infinity], and the loop of
    [nearestInsertion] goes round without placing a point and without
    waiting, whatever the flag does later. *)
Lemma C10_overflow_counterexample :
  NoDup farRow /\ length farRow = 3 /\
  (exists st0,
     initial NearestInsertion 0 farRow = Some st0 /\
     remainingPoints st0 = [mkPoint (2 ^ 600) 3] /\
     body_of NearestInsertion st0 = Idle) /\
  forall flag fuel, run NearestInsertion 0 flag (S fuel) farRow = Hangs.
Proof.
  split; [apply distinct_NoDup; vm_compute; reflexivity|].
  split; [reflexivity|]. split.
  - eexists. split; [vm_compute; reflexivity|].
    split; vm_compute; reflexivity.
  - intros flag fuel. vm_compute. reflexivity.
Qed.

(** ** C6: a stopped run *)

(** C6, as the code has it, on a point set on the grid: when the flag is
    first seen up at a loop test that still has points to place, the run
    ends there, marked stopped and without its closing block: nothing is
    published, the path the strategy holds has no point twice and, with the
    remaining points, makes up the point set.  The latest snapshot is that
    open path for [nearestNeighbor]
    and [furthestInsertion], and the path followed by its first point for
    the three other strategies. *)
Theorem C6_stop_leaves_path_open (s : Strategy) (pts : list Point)
    (k fuel : nat) (flag : nat -> bool) (j : nat) :
  NoDup pts -> 2 <= length pts -> Forall onGrid pts ->
  k < length pts -> length pts <= fuel ->
  j < toPlace s pts ->
  (forall m, m < j -> stoppedAfter flag (firstTest s + m) = false) ->
  stoppedAfter flag (firstTest s + j) = true ->
  exists o,
    run s k flag fuel pts = Returned o /\
    stopped o = true /\ bestPath o = None /\
    j + length (remainingPoints (locals o)) = toPlace s pts /\
    NoDup (path (locals o)) /\
    Permutation (path (locals o) ++ remainingPoints (locals o)) pts /\
    (forall snap, hd_error (currentPath (locals o)) = Some snap ->
                  snap = snapshot s (path (locals o))).
Proof.
  intros Hnd Hlen Hgrid Hk Hfuel Hj Hdown Hup.
  assert (Hreg := regular_onGrid pts Hgrid).
  destruct (run_spec s pts k flag fuel Hnd Hlen Hgrid Hk Hfuel)
    as (st & n & Hrun & Hpl & Hsh & Hcount & Hexit & Hbefore).
  assert (Hn : n = j).
  { destruct (Nat.lt_trichotomy n j) as [Hlt | [Heq | Hgt]]; [|assumption|].
    - specialize (Hdown n Hlt). rewrite Hdown in Hexit.
      destruct Hexit as [Hexit|Hexit]; [|discriminate].
      rewrite Hexit in Hcount. simpl in Hcount. lia.
    - specialize (Hbefore j Hgt). congruence. }
  subst n. exists (finish s flag pts st j). split; [assumption|].
  unfold finish. rewrite Hup. cbn [stopped bestPath locals].
  split; [reflexivity|]. split; [reflexivity|]. split; [assumption|].
  split; [|split; [apply Hpl | exact Hsh]].
  apply (NoDup_app_remove_r _ _ (placed_NoDup pts st Hnd Hpl)).
Qed.

Lemma C6_stop_witness :
  exists o,
    run NearestNeighbor 0 stoppedInSecondWait 5 scattered = Returned o /\
    stopped o = true /\ bestPath o = None /\
    2 + length (remainingPoints (locals o)) = toPlace NearestNeighbor scattered /\
    NoDup (path (locals o)) /\
    Permutation (path (locals o) ++ remainingPoints (locals o)) scattered /\
    (forall snap, hd_error (currentPath (locals o)) = Some snap ->
                  snap = snapshot NearestNeighbor (path (locals o))).
Proof.
  apply (C6_stop_leaves_path_open NearestNeighbor scattered 0 5
           stoppedInSecondWait 2).
  - apply distinct_NoDup. vm_compute. reflexivity.
  - simpl. lia.
  - apply allOnGrid_onGrid. vm_compute. reflexivity.
  - simpl. lia.
  - simpl. lia.
  - simpl. lia.
  - intros m Hm. destruct m as [|[|m]]; [reflexivity | reflexivity | lia].
  - reflexivity.
Defined.

(** C6 fails as stated: [nearestInsertion], stopped with a point still to
    place, has last shown a tour that is closed, its first point twice in
    it. *)
Lemma C6_emitted_tour_counterexample :
  exists o,
    run NearestInsertion 0 stoppedInSecondWait 5 scattered = Returned o /\
    stopped o = true /\
    remainingPoints (locals o) = [mkPoint 100 90] /\
    path (locals o) =
      [mkPoint 60 75; mkPoint 40 45; mkPoint 40 60; mkPoint 20 75] /\
    hd_error (currentPath (locals o)) =
      Some [mkPoint 60 75; mkPoint 40 45; mkPoint 40 60; mkPoint 20 75;
            mkPoint 60 75].
Proof.
  eexists. split; [vm_compute; reflexivity|].
  split; [reflexivity|]. split; [reflexivity|]. split; reflexivity.
Qed.

(** ** C4: the position arbitrary insertion chooses *)

(** C4, as the code has it: the first remaining point goes to the position,
    among the [path.length + 1] positions from before the first point to
    after the last one, at which [pathCost] of the tentative sequence is
    least, the sequence being taken as it is, without its first point
    repeated at the end; among equal costs the first position wins. *)
Theorem C4_arbitraryInsertion_least_open_cost (st : State)
    (nextPoint : Point) (rest : list Point) :
  remainingPoints st = nextPoint :: rest ->
  exists pos,
    arbitraryInsertion_body st =
      Next (mkState (insertAt pos nextPoint (path st)) rest
                    (closing (insertAt pos nextPoint (path st)) :: currentPath st)) /\
    pos <= length (path st) /\
    (forall j, j <= length (path st) ->
       (pathCost (insertAt j nextPoint (path st))
        <? pathCost (insertAt pos nextPoint (path st)))%float = false) /\
    (forall j, j < pos ->
       (pathCost (insertAt j nextPoint (path st))
        =? pathCost (insertAt pos nextPoint (path st)))%float = false).
Proof.
  intros Hrem. unfold arbitraryInsertion_body. rewrite Hrem.
  destruct (arbitraryInsertion_scan_spec (path st) nextPoint)
    as (pos & cost & -> & Hpos & Hleast & [[-> ->] | (-> & _ & Hties)]).
  - exists 0. split; [reflexivity|]. split; [lia|]. split.
    + intros j Hj. apply NumberOrder.ltb_top; apply Hleast; lia.
    + intros j Hj. lia.
  - exists pos. split; [reflexivity|]. split; [assumption|]. split; assumption.
Qed.

Lemma C4_arbitraryInsertion_witness :
  exists pos,
    arbitraryInsertion_body
      (mkState [mkPoint 80 15; mkPoint 100 15; mkPoint 100 30]
               [mkPoint 120 15] []) =
      Next (mkState (insertAt pos (mkPoint 120 15)
                       [mkPoint 80 15; mkPoint 100 15; mkPoint 100 30]) []
                    [closing (insertAt pos (mkPoint 120 15)
                       [mkPoint 80 15; mkPoint 100 15; mkPoint 100 30])]) /\
    pos <= 3 /\
    (forall j, j <= 3 ->
       (pathCost (insertAt j (mkPoint 120 15)
                    [mkPoint 80 15; mkPoint 100 15; mkPoint 100 30])
        <? pathCost (insertAt pos (mkPoint 120 15)
                    [mkPoint 80 15; mkPoint 100 15; mkPoint 100 30]))%float = false) /\
    (forall j, j < pos ->
       (pathCost (insertAt j (mkPoint 120 15)
                    [mkPoint 80 15; mkPoint 100 15; mkPoint 100 30])
        =? pathCost (insertAt pos (mkPoint 120 15)
                    [mkPoint 80 15; mkPoint 100 15; mkPoint 100 30]))%float = false).
Proof.
  apply (C4_arbitraryInsertion_least_open_cost
           (mkState [mkPoint 80 15; mkPoint 100 15; mkPoint 100 30]
                    [mkPoint 120 15] [])
           (mkPoint 120 15) []).
  reflexivity.
Defined.

(** C4 fails as stated: with the path (80,15) (100,15) (100,30) and the
    point (120,15) to place, the scan chooses the position after the last
    point, where the sequence as it is costs 60; closed, that tour costs
    100, while the position before the last point gives a closed tour of
    90.  A run on these four points reaches that state and publishes the
    tour of length 100. *)
Lemma C4_closed_cost_counterexample :
  arbitraryInsertion_scan [mkPoint 80 15; mkPoint 100 15; mkPoint 100 30]
                          (mkPoint 120 15) = (3, 60%float) /\
  pathCost (closing (insertAt 3 (mkPoint 120 15)
                       [mkPoint 80 15; mkPoint 100 15; mkPoint 100 30]))
    = 100%float /\
  pathCost (closing (insertAt 2 (mkPoint 120 15)
                       [mkPoint 80 15; mkPoint 100 15; mkPoint 100 30]))
    = 90%float /\
  exists o,
    run ArbitraryInsertion 0 neverStopped 4 kite = Returned o /\
    bestPath o = Some [mkPoint 80 15; mkPoint 100 15; mkPoint 100 30;
                       mkPoint 120 15; mkPoint 80 15] /\
    finalCost o = Some 100%float.
Proof.
  split; [vm_compute; reflexivity|].
  split; [vm_compute; reflexivity|].
  split; [vm_compute; reflexivity|].
  eexists. split; [vm_compute; reflexivity|]. split; reflexivity.
Qed.

(** The untyped copy stops its scan one position earlier: on the same
    state it cannot append, and takes the position before the last point. *)
Lemma Jsx_arbitraryInsertion_scan_example :
  Jsx.arbitraryInsertion_scan [mkPoint 80 15; mkPoint 100 15; mkPoint 100 30]
                              (mkPoint 120 15) = (2, 65%float).
Proof. vm_compute. reflexivity. Qed.

(** ** C7: furthest insertion *)

Lemma signsAgree_spec p0 rest a b :
  signsAgree p0 rest = true -> In a rest -> In b rest ->
  (0 <? distance p0 b - distance p0 a)%float
  = (distance p0 a <? distance p0 b)%float.
Proof.
  unfold signsAgree. intros H Ha Hb.
  rewrite forallb_forall in H. specialize (H a Ha).
  rewrite forallb_forall in H. specialize (H b Hb).
  now apply Bool.eqb_prop.
Qed.

(** A sort that puts larger keys first has a largest key at its head. *)
Lemma sort_head_largest (key : Point -> number) l h t :
  (forall a, In a l -> defined (key a) = true) ->
  sort (fun a b => (key a <? key b)%float) l = h :: t ->
  forall q, In q l -> (key h <? key q)%float = false.
Proof.
  revert h t. induction l as [|a l IH]; intros h t Hdef Hsort q Hq.
  - contradiction.
  - simpl in Hsort.
    assert (Hperm := sort_perm (fun a b => (key a <? key b)%float) l).
    destruct (sort (fun a b => (key a <? key b)%float) l) as [|h' t'] eqn:Es.
    + apply Permutation_nil in Hperm. subst l.
      simpl in Hsort. injection Hsort as <- _.
      destruct Hq as [<-|[]]. apply NumberOrder.ltb_irrefl.
    + assert (Hh' : In h' l) by (apply (Permutation_in _ Hperm); now left).
      specialize (IH h' t' (fun b Hb => Hdef b (or_intror Hb)) eq_refl).
      simpl in Hsort. destruct (key a <? key h')%float eqn:E.
      * injection Hsort as <- _. destruct Hq as [<-|Hq].
        -- now apply NumberOrder.ltb_asym.
        -- now apply IH.
      * injection Hsort as <- _. destruct Hq as [<-|Hq].
        -- apply NumberOrder.ltb_irrefl.
        -- destruct (key a <? key q)%float eqn:E'; [|reflexivity].
           rewrite <- (IH q Hq). symmetry.
           apply (NumberOrder.ltb_below (key a)); try assumption.
           apply Hdef. now right.
Qed.

Lemma furthestInsertion_init_spec p0 rest :
  NoDup (p0 :: rest) -> rest <> [] -> regular (p0 :: rest) = true ->
  signsAgree p0 rest = true ->
  exists furthestPoint remaining,
    furthestInsertion_init p0 rest =
      mkState [p0; furthestPoint] remaining [[p0; furthestPoint]] /\
    Permutation (furthestPoint :: remaining) rest /\
    forall q, In q rest ->
      (distance p0 furthestPoint <? distance p0 q)%float = false.
Proof.
  intros Hnd Hrest Hreg Hsigns. unfold furthestInsertion_init.
  rewrite (sort_ext _ (fun a b => (distance p0 a <? distance p0 b)%float) rest)
    by (intros a b Ha Hb; now apply (signsAgree_spec p0 rest)).
  assert (Hperm := sort_perm (fun a b => (distance p0 a <? distance p0 b)%float) rest).
  destruct (sort _ rest) as [|f remaining] eqn:Es.
  - apply Permutation_nil in Hperm. contradiction.
  - exists f, remaining. split; [reflexivity|]. split; [assumption|].
    apply (sort_head_largest (distance p0) rest f remaining); [|assumption].
    intros a Ha. apply (NumberOrder.ltb_defined_r 0%float).
    apply (regular_distance (p0 :: rest)); [assumption | now left | now right |].
    intros ->. apply NoDup_cons_iff in Hnd. now apply (proj1 Hnd).
Qed.

(** The loop only adds snapshots in front of the ones already shown. *)
Lemma while_history body flag fuel awaits st st' n :
  (forall s s', body s = Next s' ->
                exists snap, currentPath s' = snap :: currentPath s) ->
  while_ body flag fuel awaits st = Returned (st', n) ->
  exists l, currentPath st' = l ++ currentPath st.
Proof.
  intros Hbody. revert awaits st.
  induction fuel as [|fuel IH]; intros awaits st Hw; simpl in Hw;
    destruct (remainingPoints st);
    try (injection Hw as <- _; now exists []);
    destruct (stoppedAfter flag awaits);
    try (injection Hw as <- _; now exists []);
    try discriminate Hw.
  destruct (body st) as [st1| | |] eqn:Eb; try discriminate Hw.
  - destruct (Hbody st st1 Eb) as (snap & Hsnap).
    destruct (IH _ _ Hw) as (shown & Hshown).
    exists (shown ++ [snap]). rewrite Hshown, Hsnap, <- app_assoc. reflexivity.
  - injection Hw as <- _. now exists [].
Qed.

Lemma furthestInsertion_body_history s s' :
  furthestInsertion_body s = Next s' ->
  exists snap, currentPath s' = snap :: currentPath s.
Proof.
  unfold furthestInsertion_body.
  destruct (furthest_select (path s) (remainingPoints s)) as [[sel|] d];
    [|discriminate].
  destruct (furthest_position (path s) sel) as [bestCost bestIdx].
  intros H. injection H as <-. eexists. reflexivity.
Qed.

(** Whatever happens later, the first snapshot of a run of
    [furthestInsertion] is the one taken before the loop. *)
Lemma furthestInsertion_first_snapshot p0 rest flag fuel o :
  furthestInsertion flag fuel (p0 :: rest) = Returned o ->
  exists l, currentPath (locals o)
            = l ++ currentPath (furthestInsertion_init p0 rest).
Proof.
  unfold furthestInsertion.
  destruct (while_ furthestInsertion_body flag fuel 1 (furthestInsertion_init p0 rest))
    as [[st awaits]| | |] eqn:Ew; try discriminate.
  destruct (while_history _ _ _ _ _ _ _ furthestInsertion_body_history Ew) as (l & Hl).
  destruct (stoppedAfter flag awaits); intros H; injection H as <-;
    exists l; exact Hl.
Qed.

Lemma furthestInsertion_body_spec pts st :
  NoDup pts -> regular pts = true -> placed pts st ->
  remainingPoints st <> [] ->
  exists selectedPoint i,
    furthestInsertion_body st =
      Next (mkState
              (insertAt (i + 1) selectedPoint (path st))
              (filter (fun p => negb (same p selectedPoint)) (remainingPoints st))
              (insertAt (i + 1) selectedPoint (path st) :: currentPath st)) /\
    In selectedPoint (remainingPoints st) /\
    (forall q, In q (remainingPoints st) ->
       (minDistanceToPath (path st) selectedPoint
        <? minDistanceToPath (path st) q)%float = false) /\
    i < length (path st) /\
    (forall j, j < length (path st) ->
       (edgeCost (path st) selectedPoint j
        <? edgeCost (path st) selectedPoint i)%float = false).
Proof.
  intros Hnd Hreg Hpl Hrem.
  assert (Hnd' := placed_NoDup pts st Hnd Hpl).
  unfold furthestInsertion_body.
  destruct (furthest_select_spec (path st) (remainingPoints st))
    as (sel & -> & Hsel & Hfar).
  - assumption.
  - intros q t Hq Ht. apply (regular_distance pts); try assumption.
    + now apply (placed_In_remaining pts st).
    + now apply (placed_In_path pts st).
    + intros ->. exact (NoDup_app_disjoint _ _ _ Hnd' Ht Hq).
  - destruct (furthest_position_spec (path st) sel)
      as (cost & idx & -> & Hidx & [(_ & _ & Hnone) | (i & -> & Hi & -> & Hleast)]).
    + exfalso.
      assert (Hlen : 0 < length (path st)).
      { destruct Hpl as [_ Hne]. destruct (path st); [contradiction | simpl; lia]. }
      specialize (Hnone 0 Hlen). unfold edgeCost in Hnone.
      rewrite (regular_insertion pts) in Hnone; try assumption; try discriminate.
      * apply (placed_In_path pts st _ Hpl). now apply at_In.
      * now apply (placed_In_remaining pts st).
      * apply (placed_In_path pts st _ Hpl). apply at_next_In. apply Hpl.
    + exists sel, i. split; [reflexivity|]. repeat split; assumption.
Qed.

(** C7, on a point set on the grid: [furthestInsertion] starts from the
    first point of the set, puts next to it the point at the largest
    distance from it and shows these two before its loop, as the first
    snapshot of every run, whatever a random source would give; each turn
    of the loop selects a remaining point whose least distance to the path
    is largest, and inserts it after the point [path[i]] that starts the
    edge at which [insertionCost] is least. *)
Theorem C7_furthestInsertion_steps (p0 : Point) (rest : list Point) :
  NoDup (p0 :: rest) -> rest <> [] -> Forall onGrid (p0 :: rest) ->
  (exists furthestPoint remaining,
     furthestInsertion_init p0 rest =
       mkState [p0; furthestPoint] remaining [[p0; furthestPoint]] /\
     In furthestPoint rest /\
     (forall q, In q rest ->
        (distance p0 furthestPoint <? distance p0 q)%float = false) /\
     (forall k flag fuel o,
        run FurthestInsertion k flag fuel (p0 :: rest) = Returned o ->
        last (currentPath (locals o)) [] = [p0; furthestPoint])) /\
  (forall st, placed (p0 :: rest) st -> remainingPoints st <> [] ->
     exists selectedPoint i,
       furthestInsertion_body st =
         Next (mkState
                 (insertAt (i + 1) selectedPoint (path st))
                 (filter (fun p => negb (same p selectedPoint)) (remainingPoints st))
                 (insertAt (i + 1) selectedPoint (path st) :: currentPath st)) /\
       In selectedPoint (remainingPoints st) /\
       (forall q, In q (remainingPoints st) ->
          (minDistanceToPath (path st) selectedPoint
           <? minDistanceToPath (path st) q)%float = false) /\
       (forall t, In t (path st) ->
          (distance selectedPoint t
           <? minDistanceToPath (path st) selectedPoint)%float = false) /\
       i < length (path st) /\
       (forall j, j < length (path st) ->
          (edgeCost (path st) selectedPoint j
           <? edgeCost (path st) selectedPoint i)%float = false)).
Proof.
  intros Hnd Hrest Hgrid.
  assert (Hreg := regular_onGrid _ Hgrid).
  assert (Hsigns : signsAgree p0 rest = true).
  { inversion Hgrid; subst. now apply signsAgree_onGrid. }
  split.
  - destruct (furthestInsertion_init_spec p0 rest Hnd Hrest Hreg Hsigns)
      as (f & remaining & Hinit & Hperm & Hfar).
    exists f, remaining. split; [assumption|]. split; [|split; [assumption|]].
    + apply (Permutation_in _ Hperm). now left.
    + intros k flag fuel o Hrun. cbn [run] in Hrun.
      destruct (furthestInsertion_first_snapshot _ _ _ _ _ Hrun) as (l & Hl).
      rewrite Hl, Hinit. cbn [currentPath]. apply last_last.
  - intros st Hpl Hrem.
    destruct (furthestInsertion_body_spec (p0 :: rest) st Hnd Hreg Hpl Hrem)
      as (sel & i & Hbody & Hsel & Hfar & Hi & Hleast).
    exists sel, i. split; [assumption|]. split; [assumption|].
    split; [assumption|]. split; [|split; assumption].
    intros t Ht. now apply minDistanceToPath_least.
Qed.

Lemma C7_furthestInsertion_witness :
  exists furthestPoint remaining,
    furthestInsertion_init (mkPoint 80 15)
      [mkPoint 100 30; mkPoint 100 15; mkPoint 120 15] =
      mkState [mkPoint 80 15; furthestPoint] remaining
              [[mkPoint 80 15; furthestPoint]] /\
    In furthestPoint [mkPoint 100 30; mkPoint 100 15; mkPoint 120 15] /\
    (forall q, In q [mkPoint 100 30; mkPoint 100 15; mkPoint 120 15] ->
       (distance (mkPoint 80 15) furthestPoint <? distance (mkPoint 80 15) q)%float
       = false) /\
    (forall k flag fuel o,
       run FurthestInsertion k flag fuel
           (mkPoint 80 15 :: [mkPoint 100 30; mkPoint 100 15; mkPoint 120 15])
       = Returned o ->
       last (currentPath (locals o)) [] = [mkPoint 80 15; furthestPoint]).
Proof.
  apply (C7_furthestInsertion_steps (mkPoint 80 15)
           [mkPoint 100 30; mkPoint 100 15; mkPoint 120 15]).
  - apply distinct_NoDup. vm_compute. reflexivity.
  - discriminate.
  - apply allOnGrid_onGrid. vm_compute. reflexivity.
Defined.

(** C7 fails as stated on a point set whose coordinates are so large that
    the squares in [distance] overflow: the insertion costs of the selected
    point are [NaN] at both edges, [bestIdx] keeps its initial value [0],
    and the point goes in front of the first point of the set, so that the
    published tour does not start there. *)
Lemma C7_overflow_counterexample :
  NoDup farColumn /\ hd_error farColumn = Some (mkPoint 0 0) /\
  furthestInsertion_init (mkPoint 0 0) [mkPoint (2 ^ 600) 3; mkPoint (2 ^ 600) 1]
  = mkState [mkPoint 0 0; mkPoint (2 ^ 600) 3] [mkPoint (2 ^ 600) 1]
            [[mkPoint 0 0; mkPoint (2 ^ 600) 3]] /\
  (forall i, i < 2 ->
     defined (edgeCost [mkPoint 0 0; mkPoint (2 ^ 600) 3] (mkPoint (2 ^ 600) 1) i)
     = false) /\
  furthestInsertion_body
    (mkState [mkPoint 0 0; mkPoint (2 ^ 600) 3] [mkPoint (2 ^ 600) 1]
             [[mkPoint 0 0; mkPoint (2 ^ 600) 3]])
  = Next (mkState [mkPoint (2 ^ 600) 1; mkPoint 0 0; mkPoint (2 ^ 600) 3] []
            [[mkPoint (2 ^ 600) 1; mkPoint 0 0; mkPoint (2 ^ 600) 3];
             [mkPoint 0 0; mkPoint (2 ^ 600) 3]]) /\
  exists o,
    run FurthestInsertion 0 neverStopped 3 farColumn = Returned o /\
    bestPath o =
      Some [mkPoint (2 ^ 600) 1; mkPoint 0 0; mkPoint (2 ^ 600) 3;
            mkPoint (2 ^ 600) 1].
Proof.
  split; [apply distinct_NoDup; vm_compute; reflexivity|].
  split; [reflexivity|]. split; [vm_compute; reflexivity|]. split.
  - intros i Hi. destruct i as [|[|i]]; [vm_compute; reflexivity.. | lia].
  - split; [vm_compute; reflexivity|].
    eexists. split; vm_compute; reflexivity.
Qed.

(** * Further properties

    What the code shows besides: the generator of the point sets, the
    numbers on display, the choice of every strategy at each step, the shape
    of the hull, and what a whole run keeps. *)

(** ** The generator *)

Lemma string_of_uint_noComma d : hasComma (NilEmpty.string_of_uint d) = false.
Proof. induction d; simpl; auto. Qed.

Lemma string_of_int_noComma d : hasComma (NilEmpty.string_of_int d) = false.
Proof. destruct d; simpl; apply string_of_uint_noComma. Qed.

Lemma split_at_comma s1 s2 t1 t2 :
  hasComma s1 = false -> hasComma t1 = false ->
  (s1 ++ "," ++ s2 = t1 ++ "," ++ t2)%string -> s1 = t1 /\ s2 = t2.
Proof.
  revert t1. induction s1 as [|c s1 IH]; intros [|d t1] Hs Ht H; simpl in *.
  - injection H as H. now split.
  - injection H as Hc _. subst d. rewrite Ascii.eqb_refl in Ht. discriminate.
  - injection H as Hc _. subst c. rewrite Ascii.eqb_refl in Hs. discriminate.
  - injection H as Hc H. subst d.
    apply orb_false_iff in Hs. apply orb_false_iff in Ht.
    destruct (IH t1 (proj2 Hs) (proj2 Ht) H) as [-> ->]. now split.
Qed.

Lemma string_of_Z_inj a b :
  NilEmpty.string_of_int (Z.to_int a) = NilEmpty.string_of_int (Z.to_int b) ->
  a = b.
Proof.
  intros H. apply (f_equal NilEmpty.int_of_string) in H.
  rewrite !NilEmpty.isi in H. injection H as H.
  apply (f_equal Z.of_int) in H. now rewrite !DecimalZ.of_to in H.
Qed.

Lemma posKey_inj x1 y1 x2 y2 :
  posKey x1 y1 = posKey x2 y2 -> x1 = x2 /\ y1 = y2.
Proof.
  unfold posKey. intros H.
  apply split_at_comma in H; try apply string_of_int_noComma.
  destruct H as [Hx Hy]. split; now apply string_of_Z_inj.
Qed.

Lemma keyOf_inj p q : keyOf p = keyOf q -> p = q.
Proof.
  destruct p as [px py], q as [qx qy]. unfold keyOf. cbn [x y].
  intros H. apply posKey_inj in H. destruct H as [-> ->]. reflexivity.
Qed.

Lemma has_key newPoints p :
  existsb (String.eqb (keyOf p)) (map keyOf newPoints) = true <-> In p newPoints.
Proof.
  rewrite existsb_exists. split.
  - intros (k & Hk & E). apply in_map_iff in Hk. destruct Hk as (q & <- & Hq).
    apply String.eqb_eq, keyOf_inj in E. now subst.
  - intros Hp. exists (keyOf p). split; [now apply in_map | apply String.eqb_refl].
Qed.

Lemma filter_other_length (f : nat -> Point) c ts :
  NoDup (map f ts) ->
  length ts <= S (length (filter (fun t => negb (same (f t) c)) ts)).
Proof.
  induction ts as [|t ts IH]; intros Hnd; simpl.
  - lia.
  - inversion Hnd as [|? ? Hin Hnd']; subst.
    destruct (same (f t) c) eqn:E; simpl.
    + apply same_true in E. subst c.
      assert (Hall : filter (fun t0 => negb (same (f t0) (f t))) ts = ts).
      { apply forallb_filter_id. apply forallb_forall. intros u Hu.
        apply negb_true_iff, same_false. intros E. apply Hin. rewrite <- E.
        now apply in_map. }
      rewrite Hall. lia.
    + specialize (IH Hnd'). lia.
Qed.

Lemma filter_map_NoDup (f : nat -> Point) (P : nat -> bool) ts :
  NoDup (map f ts) -> NoDup (map f (filter P ts)).
Proof.
  induction ts as [|t ts IH]; intros Hnd; simpl.
  - constructor.
  - inversion Hnd as [|? ? Hin Hnd']; subst.
    destruct (P t); simpl; [|now apply IH].
    constructor; [|now apply IH].
    intros H. apply Hin. apply in_map_iff in H. destruct H as (u & E & Hu).
    apply filter_In in Hu. rewrite <- E. apply in_map. apply Hu.
Qed.

Section Generator.
Variable vertices : nat.
Variable draw : nat -> Z.

Lemma randomizeVertices_loop_returns fuel turn newPoints ts :
  NoDup newPoints -> NoDup (map (drawn draw) ts) ->
  (forall t, In t ts -> turn <= t < turn + fuel) ->
  (forall t, In t ts -> ~ In (drawn draw t) newPoints) ->
  vertices <= length newPoints + length ts ->
  length newPoints <= vertices ->
  exists pts,
    randomizeVertices_loop vertices draw fuel turn newPoints
      (map keyOf newPoints) = Returned pts /\
    length pts = vertices /\ NoDup pts /\
    forall p, In p pts ->
      In p newPoints \/ exists t, turn <= t < turn + fuel /\ p = drawn draw t.
Proof.
  revert turn newPoints ts.
  induction fuel as [|fuel IH]; intros turn newPoints ts Hnd Hts Hrange Hfresh Hsum Hlen.
  - assert (ts = []).
    { destruct ts as [|t ts]; [reflexivity|].
      specialize (Hrange t (or_introl eq_refl)). lia. }
    subst ts. simpl in Hsum. simpl.
    replace (length newPoints <? vertices) with false
      by (symmetry; apply Nat.ltb_ge; lia).
    exists newPoints. split; [reflexivity|]. split; [lia|]. split; [assumption|].
    intros p Hp. now left.
  - cbn [randomizeVertices_loop].
    destruct (length newPoints <? vertices) eqn:Elt.
    + apply Nat.ltb_lt in Elt.
      change (posKey (draw (2 * turn)%nat * 20)%Z (draw (2 * turn + 1)%nat * 15)%Z)
        with (keyOf (drawn draw turn)).
      change (mkPoint (draw (2 * turn)%nat * 20)%Z (draw (2 * turn + 1)%nat * 15)%Z)
        with (drawn draw turn).
      destruct (existsb _ (map keyOf newPoints)) eqn:Ehas.
      * apply has_key in Ehas.
        destruct (IH (S turn) newPoints ts) as (pts & Hr & Hl & Hn & Hin);
          try assumption.
        { intros t Ht. specialize (Hrange t Ht).
          assert (t <> turn) by (intros ->; exact (Hfresh turn Ht Ehas)). lia. }
        exists pts. split; [assumption|]. split; [assumption|].
        split; [assumption|].
        intros p Hp. destruct (Hin p Hp) as [H | (t & Ht & E)]; [now left|].
        right. exists t. split; [lia | assumption].
      * assert (Hnew : ~ In (drawn draw turn) newPoints).
        { intros H. apply has_key in H. congruence. }
        replace (map keyOf newPoints ++ [keyOf (drawn draw turn)])
          with (map keyOf (newPoints ++ [drawn draw turn]))
          by (now rewrite map_app).
        destruct (IH (S turn) (newPoints ++ [drawn draw turn])
                    (filter (fun t => negb (same (drawn draw t) (drawn draw turn))) ts))
          as (pts & Hr & Hl & Hn & Hin).
        -- apply NoDup_app; [assumption | repeat constructor; intros [] |].
           intros q Hq [<-|[]]. contradiction.
        -- now apply filter_map_NoDup.
        -- intros t Ht. apply filter_In in Ht. destruct Ht as [Ht Hne].
           apply negb_true_iff, same_false in Hne.
           specialize (Hrange t Ht).
           assert (t <> turn) by (intros ->; now apply Hne). lia.
        -- intros t Ht. apply filter_In in Ht. destruct Ht as [Ht Hne].
           apply negb_true_iff, same_false in Hne.
           intros H. apply in_app_or in H. destruct H as [H|[H|[]]].
           ++ exact (Hfresh t Ht H).
           ++ now apply Hne.
        -- rewrite length_app. cbn [length].
           pose proof (filter_other_length (drawn draw) (drawn draw turn) ts Hts).
           lia.
        -- rewrite length_app. cbn [length]. lia.
        -- exists pts. split; [assumption|]. split; [assumption|].
           split; [assumption|].
           intros p Hp. destruct (Hin p Hp) as [H | (t & Ht & E)].
           ++ apply in_app_or in H. destruct H as [H|[<-|[]]]; [now left|].
              right. exists turn. split; [lia | reflexivity].
           ++ right. exists t. split; [lia | assumption].
    + apply Nat.ltb_ge in Elt.
      exists newPoints. split; [reflexivity|]. split; [lia|]. split; [assumption|].
      intros p Hp. now left.
Qed.

End Generator.

Lemma preimages (f : nat -> Point) l l' :
  incl l' (map f l) -> exists ts, map f ts = l' /\ incl ts l.
Proof.
  induction l' as [|p l' IH]; intros H.
  - exists []. split; [reflexivity | intros t []].
  - destruct IH as (ts & E & Hts); [intros q Hq; apply H; now right|].
    assert (Hp : In p (map f l)) by (apply H; now left).
    apply in_map_iff in Hp. destruct Hp as (t & <- & Ht).
    exists (t :: ts). split; [simpl; now rewrite E|].
    intros u [<-|Hu]; [assumption | now apply Hts].
Qed.

Lemma drawn_onGrid draw t :
  (1 <= draw (2 * t)%nat <= 38)%Z -> (1 <= draw (2 * t + 1)%nat <= 38)%Z ->
  onGrid (drawn draw t).
Proof.
  intros Hx Hy. exists (draw (2 * t)%nat), (draw (2 * t + 1)%nat).
  cbn [drawn x y]. repeat split; lia.
Qed.

(** X1: [randomizeVerticesCallback] returns as soon as the random source has
    given [vertices] different positions (here: within [fuel] turns of its
    loop).  The point set it installs has exactly [vertices] points, no two
    of them at the same position, each one a position that was drawn: a
    crossing of the grid, strictly inside the canvas. *)
Theorem X1_randomizeVertices_point_set (vertices : nat) (draw : nat -> Z)
    (fuel : nat) :
  (forall n, n < 2 * fuel -> (1 <= draw n <= 38)%Z) ->
  vertices <= length (nodup Point_eq_dec (map (drawn draw) (seq 0 fuel))) ->
  exists pts,
    randomizeVertices vertices draw fuel
    = Returned (pts, randomizeVertices_metrics vertices) /\
    length pts = vertices /\ NoDup pts /\
    forall p, In p pts ->
      onGrid p /\ (0 < x p < 800)%Z /\ (0 < y p < 600)%Z /\
      exists t, t < fuel /\ p = drawn draw t.
Proof.
  intros Hrange Hdistinct.
  destruct (preimages (drawn draw) (seq 0 fuel)
              (nodup Point_eq_dec (map (drawn draw) (seq 0 fuel))))
    as (ts & Ets & Hts).
  { intros p Hp. now apply nodup_In in Hp. }
  destruct (randomizeVertices_loop_returns vertices draw fuel 0 [] ts)
    as (pts & Hloop & Hlen & Hnd & Hin).
  - constructor.
  - rewrite Ets. apply NoDup_nodup.
  - intros t Ht. apply Hts, in_seq in Ht. lia.
  - intros t _ [].
  - rewrite <- Ets, length_map in Hdistinct. simpl. lia.
  - simpl. lia.
  - exists pts. unfold randomizeVertices. cbn [map] in Hloop. rewrite Hloop.
    split; [reflexivity|]. split; [assumption|]. split; [assumption|].
    intros p Hp. destruct (Hin p Hp) as [[] | (t & Ht & ->)].
    assert (Hg : onGrid (drawn draw t)) by (apply drawn_onGrid; apply Hrange; lia).
    split; [assumption|].
    destruct Hg as (i & j & Hi & Hj & Hx & Hy).
    split; [lia|]. split; [lia|]. exists t. split; [lia | reflexivity].
Qed.

Lemma X1_randomizeVertices_point_set_witness :
  exists pts,
    randomizeVertices 3 eightDraws 4
    = Returned (pts, randomizeVertices_metrics 3) /\
    length pts = 3 /\ NoDup pts /\
    forall p, In p pts ->
      onGrid p /\ (0 < x p < 800)%Z /\ (0 < y p < 600)%Z /\
      exists t, t < 4 /\ p = drawn eightDraws t.
Proof.
  apply (X1_randomizeVertices_point_set 3 eightDraws 4).
  - intros n Hn. do 8 (destruct n as [|n]; [cbn; lia|]).
    lia.
  - vm_compute. lia.
Defined.

Lemma gridPoints_length : length gridPoints = 38 * 38.
Proof. reflexivity. Qed.

Lemma onGrid_gridPoints p : onGrid p -> In p gridPoints.
Proof.
  intros (i & j & Hi & Hj & Hx & Hy). unfold gridPoints.
  apply in_flat_map. exists (Z.to_nat i). split; [apply in_seq; lia|].
  apply in_map_iff. exists (Z.to_nat j). split; [|apply in_seq; lia].
  destruct p as [px py]. cbn [x y] in *. subst.
  rewrite !Z2Nat.id by lia. reflexivity.
Qed.

Lemma randomizeVertices_loop_exhausted vertices draw fuel turn newPoints :
  (forall n, (1 <= draw n <= 38)%Z) -> 38 * 38 < vertices ->
  NoDup newPoints -> incl newPoints gridPoints ->
  randomizeVertices_loop vertices draw fuel turn newPoints (map keyOf newPoints)
  = OutOfFuel.
Proof.
  intros Hrange Hmany. revert turn newPoints.
  induction fuel as [|fuel IH]; intros turn newPoints Hnd Hincl;
    cbn [randomizeVertices_loop];
    assert (Hlen := NoDup_incl_length Hnd Hincl);
    rewrite gridPoints_length in Hlen;
    replace (length newPoints <? vertices) with true
      by (symmetry; apply Nat.ltb_lt; lia).
  - reflexivity.
  - change (posKey (draw (2 * turn)%nat * 20)%Z (draw (2 * turn + 1)%nat * 15)%Z)
      with (keyOf (drawn draw turn)).
    change (mkPoint (draw (2 * turn)%nat * 20)%Z (draw (2 * turn + 1)%nat * 15)%Z)
      with (drawn draw turn).
    destruct (existsb _ (map keyOf newPoints)) eqn:Ehas.
    + now apply IH.
    + replace (map keyOf newPoints ++ [keyOf (drawn draw turn)])
        with (map keyOf (newPoints ++ [drawn draw turn]))
        by (now rewrite map_app).
      apply IH.
      * apply NoDup_app; [assumption | repeat constructor; intros [] |].
        intros q Hq [<-|[]]. apply has_key in Hq. congruence.
      * intros q Hq. apply in_app_or in Hq. destruct Hq as [Hq|[<-|[]]].
        -- now apply Hincl.
        -- apply onGrid_gridPoints, drawn_onGrid; apply Hrange.
Qed.

(** X2: the grid has 38 x 38 free crossings.  Asked for more vertices than
    that, [randomizeVerticesCallback] never leaves its loop, whatever the
    random source draws: every crossing ends up taken and every further draw
    is refused.  (The slider stops at 100.) *)
Theorem X2_randomizeVertices_grid_exhausted (vertices : nat) (draw : nat -> Z)
    (fuel : nat) :
  (forall n, (1 <= draw n <= 38)%Z) -> 38 * 38 < vertices ->
  randomizeVertices vertices draw fuel = OutOfFuel.
Proof.
  intros Hrange Hmany. unfold randomizeVertices.
  change (@nil string) with (map keyOf []).
  rewrite randomizeVertices_loop_exhausted; try assumption; try reflexivity.
  - constructor.
  - intros p [].
Qed.

Lemma X2_randomizeVertices_grid_exhausted_witness :
  randomizeVertices 1445 diagonal 2000 = OutOfFuel.
Proof.
  apply (X2_randomizeVertices_grid_exhausted 1445 diagonal 2000).
  - intros n. unfold diagonal.
    pose proof (Nat.mod_upper_bound (n / 2) 38). lia.
  - simpl. lia.
Defined.

(** X3: the key under which a position is recorded tells the positions
    apart: two positions have the same key only if they are the same
    position, so a draw is refused only when its position is taken. *)
Theorem X3_posKey_identifies_position (x1 y1 x2 y2 : Z) :
  posKey x1 y1 = posKey x2 y2 <-> x1 = x2 /\ y1 = y2.
Proof.
  split.
  - apply posKey_inj.
  - intros [-> ->]. reflexivity.
Qed.

(** ** The count of possible paths on display *)

Lemma factorial_checked : forallb factorial_ordinary (seq 0 171) = true.
Proof. vm_compute. reflexivity. Qed.

(** X4: for every number of vertices up to 170, hence for every position of
    the slider (3 to 100), the count of possible paths is a positive number
    that has not overflowed; it is shown in exponential notation with two
    digits exactly from 10 vertices on, and through [toLocaleString] below.
    With 171 vertices the product overflows to [Infinity]. *)
Theorem X4_possiblePaths_display (vertices : nat) :
  vertices <= 170 ->
  (0 <? factorial vertices)%float = true /\
  (factorial vertices <? Infinity)%float = true /\
  formatLargeNumber (possiblePaths (randomizeVertices_metrics vertices))
  = (if 10 <=? vertices then toExponential (factorial vertices) 2
     else toLocaleString (factorial vertices)) /\
  factorial 171 = Infinity.
Proof.
  intros Hn.
  assert (H := proj1 (forallb_forall _ _) factorial_checked vertices
                 ltac:(apply in_seq; lia)).
  unfold factorial_ordinary in H.
  apply andb_prop in H. destruct H as [H Hfmt].
  apply andb_prop in H. destruct H as [Hpos Hfin].
  apply Bool.eqb_prop in Hfmt.
  split; [assumption|]. split; [assumption|]. split.
  - unfold formatLargeNumber, randomizeVertices_metrics. cbn [possiblePaths].
    rewrite Hfmt. reflexivity.
  - vm_compute. reflexivity.
Qed.

Lemma X4_possiblePaths_display_witness :
  (0 <? factorial 100)%float = true /\
  (factorial 100 <? Infinity)%float = true /\
  formatLargeNumber (possiblePaths (randomizeVertices_metrics 100))
  = (if 10 <=? 100 then toExponential (factorial 100) 2
     else toLocaleString (factorial 100)) /\
  factorial 171 = Infinity.
Proof. apply (X4_possiblePaths_display 100). lia. Defined.

(** ** The minimum distance *)

Lemma Math_min_spec a b :
  defined a = true -> defined b = true ->
  (Math_min a b = a \/ Math_min a b = b) /\
  (a <? Math_min a b)%float = false /\ (b <? Math_min a b)%float = false.
Proof.
  unfold defined, Math_min, is_nan. intros Ha Hb. rewrite Ha, Hb. cbn [negb orb].
  destruct (a <? b)%float eqn:Eab.
  - split; [now left|]. split; [apply NumberOrder.ltb_irrefl|].
    now apply NumberOrder.ltb_asym.
  - destruct (b <? a)%float eqn:Eba.
    + split; [now right|]. split; [assumption | apply NumberOrder.ltb_irrefl].
    + destruct (get_sign a).
      * split; [now left|]. split; [apply NumberOrder.ltb_irrefl | assumption].
      * split; [now right|]. split; [assumption | apply NumberOrder.ltb_irrefl].
Qed.

Lemma setMetrics_minimum updates : forall m costs,
  defined (minDistance m) = true ->
  Forall (fun u => match u with
                   | RunClosed _ finalCost => defined finalCost = true
                   | _ => True
                   end) updates ->
  (In (minDistance m) (Infinity :: costs)) ->
  (forall c, In c costs -> (c <? minDistance m)%float = false) ->
  let m' := fold_left setMetrics updates m in
  possiblePaths m' = possiblePaths m /\
  defined (minDistance m') = true /\
  In (minDistance m') (Infinity :: closedCosts updates costs) /\
  (forall c, In c (closedCosts updates costs) ->
     (c <? minDistance m')%float = false).
Proof.
  induction updates as [|u updates IH]; intros m costs Hdef Hall Hin Hleast.
  - cbn. repeat split; assumption.
  - inversion Hall as [|? ? Hu Hall']; subst. cbn [fold_left closedCosts].
    destruct u as [elapsed current | elapsed finalCost |].
    + destruct (IH (setMetrics m (StepShown elapsed current)) costs)
        as (Hp & H); try assumption.
      split; [exact Hp | exact H].
    + destruct (Math_min_spec finalCost (minDistance m) Hu Hdef)
        as (Hcase & Hfinal & Hprev).
      destruct (IH (setMetrics m (RunClosed elapsed finalCost)) (finalCost :: costs))
        as (Hp & H); try assumption.
      * cbn [setMetrics minDistance]. destruct Hcase as [-> | ->]; assumption.
      * cbn [setMetrics minDistance]. destruct Hcase as [-> | ->].
        -- right. now left.
        -- destruct Hin as [<-|Hin]; [now left | right; now right].
      * cbn [setMetrics minDistance]. intros c [<-|Hc]; [assumption|].
        destruct (c <? Math_min finalCost (minDistance m))%float eqn:E;
          [|reflexivity].
        rewrite <- Hprev. symmetry.
        apply (NumberOrder.ltb_below c); [now apply Hleast | assumption | assumption].
      * split; [exact Hp | exact H].
    + destruct (IH (setMetrics m ResetPressed) []) as (Hp & H); try assumption.
      * reflexivity.
      * now left.
      * intros c [].
      * split; [exact Hp | exact H].
Qed.

(** X5: after [randomizeVertices], whatever runs, stops and resets follow,
    the count of possible paths on display stays the one installed with the
    point set, and the minimum distance is the least of the final costs
    reported since the last reset ([Infinity] when there is none): it is one
    of them, and none of them is below it. *)
Theorem X5_minDistance_is_running_minimum (vertices : nat)
    (updates : list MetricsUpdate) :
  Forall (fun u => match u with
                   | RunClosed _ finalCost => defined finalCost = true
                   | _ => True
                   end) updates ->
  let m := fold_left setMetrics updates (randomizeVertices_metrics vertices) in
  possiblePaths m = factorial vertices /\
  In (minDistance m) (Infinity :: closedCosts updates []) /\
  (forall c, In c (closedCosts updates []) -> (c <? minDistance m)%float = false).
Proof.
  intros Hall.
  destruct (setMetrics_minimum updates (randomizeVertices_metrics vertices) [])
    as (Hp & _ & Hin & Hleast); try assumption.
  - reflexivity.
  - now left.
  - intros c [].
  - cbv zeta. split; [exact Hp|]. split; assumption.
Qed.

Lemma X5_minDistance_is_running_minimum_witness :
  let m := fold_left setMetrics
             [RunClosed 4 200; StepShown 1 50; RunClosed 5 197; RunClosed 4 200]%float
             (randomizeVertices_metrics 5) in
  possiblePaths m = factorial 5 /\
  In (minDistance m)
     (Infinity :: closedCosts
        [RunClosed 4 200; StepShown 1 50; RunClosed 5 197; RunClosed 4 200]%float []) /\
  (forall c,
     In c (closedCosts
        [RunClosed 4 200; StepShown 1 50; RunClosed 5 197; RunClosed 4 200]%float []) ->
     (c <? minDistance m)%float = false).
Proof.
  apply (X5_minDistance_is_running_minimum 5).
  repeat constructor.
Defined.

(** ** Costs *)

Lemma pathCost_from_append cost path p :
  path <> [] ->
  pathCost_from cost (path ++ [p])
  = (pathCost_from cost path + distance (last path origin) p)%float.
Proof.
  revert cost. induction path as [|a path IH]; intros cost Hne; [contradiction|].
  destruct path as [|b path].
  - reflexivity.
  - change (pathCost_from cost ((a :: b :: path) ++ [p]))
      with (pathCost_from (cost + distance a b)%float ((b :: path) ++ [p])).
    rewrite IH by discriminate. reflexivity.
Qed.

(** X6: [pathCost] adds the distances from left to right, so the cost of a
    path with one more point at its end is the cost of the path plus the
    distance of the new edge, in one more addition; in particular the final
    cost of a tour is the cost of the open path plus the distance from its
    last point back to its first. *)
Theorem X6_pathCost_grows_by_last_edge (path : list Point) (p : Point) :
  path <> [] ->
  pathCost (path ++ [p])
  = (pathCost path + distance (last path origin) p)%float /\
  pathCost (closing path)
  = (pathCost path + distance (last path origin) (hd origin path))%float.
Proof.
  intros Hne. split.
  - now apply pathCost_from_append.
  - unfold closing. destruct path as [|a path]; [contradiction|].
    cbn [firstn hd]. now apply pathCost_from_append.
Qed.

Lemma X6_pathCost_grows_by_last_edge_witness :
  pathCost ([mkPoint 80 15; mkPoint 100 15] ++ [mkPoint 100 30])
  = (pathCost [mkPoint 80 15; mkPoint 100 15]
     + distance (last [mkPoint 80 15; mkPoint 100 15] origin) (mkPoint 100 30))%float /\
  pathCost (closing [mkPoint 80 15; mkPoint 100 15])
  = (pathCost [mkPoint 80 15; mkPoint 100 15]
     + distance (last [mkPoint 80 15; mkPoint 100 15] origin)
                (hd origin [mkPoint 80 15; mkPoint 100 15]))%float.
Proof.
  apply (X6_pathCost_grows_by_last_edge [mkPoint 80 15; mkPoint 100 15]).
  discriminate.
Defined.

(** ** Distances on the grid *)

(** X7: on the positions that [randomizeVertices] can produce, [distance]
    is symmetric, is [0] from a position to itself, and between two
    different positions is a positive number below [Infinity]. *)
Theorem X7_distance_on_grid (a b : Point) :
  onGrid a -> onGrid b ->
  distance a b = distance b a /\
  (a = b -> distance a b = 0%float) /\
  (a <> b -> (0 <? distance a b)%float = true /\
             (distance a b <? Infinity)%float = true).
Proof.
  intros Ha Hb. split; [now apply distance_sym|]. split.
  - intros <-. now apply distance_self.
  - intros Hne.
    destruct (distance_gridDistance a b Ha Hb) as (i & j & Hi & Hj & -> & Hsame).
    destruct (gridDistance_checked i j Hi Hj) as [[H1 H2]|H].
    + exfalso. now apply Hne, Hsame.
    + exact H.
Qed.

Lemma X7_distance_on_grid_witness :
  distance (mkPoint 80 15) (mkPoint 100 30)
  = distance (mkPoint 100 30) (mkPoint 80 15) /\
  (mkPoint 80 15 = mkPoint 100 30 ->
   distance (mkPoint 80 15) (mkPoint 100 30) = 0%float) /\
  (mkPoint 80 15 <> mkPoint 100 30 ->
   (0 <? distance (mkPoint 80 15) (mkPoint 100 30))%float = true /\
   (distance (mkPoint 80 15) (mkPoint 100 30) <? Infinity)%float = true).
Proof.
  apply (X7_distance_on_grid (mkPoint 80 15) (mkPoint 100 30)).
  - exists 4%Z, 1%Z. cbn. lia.
  - exists 5%Z, 2%Z. cbn. lia.
Defined.

(** ** The selection of the next point *)

Lemma comparable_spec lastPoint remaining a :
  comparable lastPoint remaining = true -> In a remaining ->
  defined (distance lastPoint a) = true /\
  forall b, In b remaining ->
    (0 <? distance lastPoint a - distance lastPoint b)%float
    = (distance lastPoint b <? distance lastPoint a)%float.
Proof.
  unfold comparable. intros H Ha.
  rewrite forallb_forall in H. specialize (H a Ha).
  apply andb_prop in H. destruct H as [Hd H]. split; [assumption|].
  intros b Hb. rewrite forallb_forall in H. specialize (H b Hb).
  now apply Bool.eqb_prop.
Qed.

(** A stable sort that puts smaller keys first has at its head the first
    element of the array among those of least key. *)
Lemma sort_head_first (key : Point -> number) l h t :
  (forall a, In a l -> defined (key a) = true) ->
  sort (fun a b => (key b <? key a)%float) l = h :: t ->
  exists l1 l2, l = l1 ++ h :: l2 /\
    (forall q, In q l1 -> (key h <? key q)%float = true) /\
    (forall q, In q l2 -> (key q <? key h)%float = false).
Proof.
  revert h t. induction l as [|a l IH]; intros h t Hdef Hsort.
  - discriminate.
  - cbn [sort] in Hsort.
    assert (Hperm := sort_perm (fun a b => (key b <? key a)%float) l).
    destruct (sort (fun a b => (key b <? key a)%float) l) as [|h' t'] eqn:Es.
    + apply Permutation_nil in Hperm. subst l.
      cbn in Hsort. injection Hsort as <- _.
      exists [], []. split; [reflexivity|]. split; intros q [].
    + destruct (IH h' t' (fun b Hb => Hdef b (or_intror Hb)) eq_refl)
        as (l1 & l2 & El & H1 & H2).
      assert (Hmin : forall q, In q l -> (key q <? key h')%float = false).
      { intros q Hq. rewrite El in Hq. apply in_app_or in Hq.
        destruct Hq as [Hq|[<-|Hq]].
        - apply NumberOrder.ltb_asym. now apply H1.
        - apply NumberOrder.ltb_irrefl.
        - now apply H2. }
      cbn [sort_insert] in Hsort. destruct (key h' <? key a)%float eqn:E.
      * injection Hsort as <- _.
        exists (a :: l1), l2. rewrite El. split; [reflexivity|]. split.
        -- intros q [<-|Hq]; [assumption | now apply H1].
        -- assumption.
      * injection Hsort as <- _.
        exists [], l. split; [reflexivity|]. split; [intros q []|].
        intros q Hq. destruct (key q <? key a)%float eqn:E'; [|reflexivity].
        rewrite <- E. symmetry.
        apply (NumberOrder.ltb_below (key q)); [now apply Hmin | | assumption].
        apply Hdef. right. rewrite El. apply in_elt.
Qed.

(** X8: a turn of the loop of [nearestNeighbor] appends to the path a
    remaining point that no other remaining point is nearer to the last
    point of the path; among the points at that least distance it takes the
    one that comes first in the array. *)
Theorem X8_nearestNeighbor_appends_nearest (st : State) :
  remainingPoints st <> [] ->
  comparable (last (path st) origin) (remainingPoints st) = true ->
  exists nextPoint rest l1 l2,
    nearestNeighbor_body st =
      Next (mkState (path st ++ [nextPoint]) rest
                    ((path st ++ [nextPoint]) :: currentPath st)) /\
    Permutation (nextPoint :: rest) (remainingPoints st) /\
    remainingPoints st = l1 ++ nextPoint :: l2 /\
    (forall q, In q l1 ->
       (distance (last (path st) origin) nextPoint
        <? distance (last (path st) origin) q)%float = true) /\
    (forall q, In q l2 ->
       (distance (last (path st) origin) q
        <? distance (last (path st) origin) nextPoint)%float = false).
Proof.
  intros Hrem Hcmp. unfold nearestNeighbor_body.
  set (lastPoint := last (path st) origin) in *.
  rewrite (sort_ext _ (fun a b => (distance lastPoint b <? distance lastPoint a)%float)
             (remainingPoints st))
    by (intros a b Ha Hb; now apply (comparable_spec lastPoint (remainingPoints st))).
  assert (Hperm := sort_perm
            (fun a b => (distance lastPoint b <? distance lastPoint a)%float)
            (remainingPoints st)).
  destruct (sort _ (remainingPoints st)) as [|nextPoint rest] eqn:Es.
  - apply Permutation_nil in Hperm. contradiction.
  - destruct (sort_head_first (distance lastPoint) (remainingPoints st)
                nextPoint rest) as (l1 & l2 & El & H1 & H2).
    + intros a Ha. now apply (comparable_spec lastPoint (remainingPoints st)).
    + exact Es.
    + exists nextPoint, rest, l1, l2. split; [reflexivity|].
      split; [assumption|]. split; [assumption|]. split; assumption.
Qed.

Lemma X8_nearestNeighbor_appends_nearest_witness :
  exists nextPoint rest l1 l2,
    nearestNeighbor_body
      (mkState [mkPoint 100 15] [mkPoint 100 30; mkPoint 80 15; mkPoint 120 15] []) =
      Next (mkState ([mkPoint 100 15] ++ [nextPoint]) rest
                    (([mkPoint 100 15] ++ [nextPoint]) :: [])) /\
    Permutation (nextPoint :: rest)
                [mkPoint 100 30; mkPoint 80 15; mkPoint 120 15] /\
    [mkPoint 100 30; mkPoint 80 15; mkPoint 120 15] = l1 ++ nextPoint :: l2 /\
    (forall q, In q l1 ->
       (distance (mkPoint 100 15) nextPoint <? distance (mkPoint 100 15) q)%float
       = true) /\
    (forall q, In q l2 ->
       (distance (mkPoint 100 15) q <? distance (mkPoint 100 15) nextPoint)%float
       = false).
Proof.
  apply (X8_nearestNeighbor_appends_nearest
           (mkState [mkPoint 100 15]
                    [mkPoint 100 30; mkPoint 80 15; mkPoint 120 15] [])).
  - discriminate.
  - vm_compute. reflexivity.
Defined.

(** *** The nested scan as a first-best scan *)

Lemma fold_left_flat_map {X B C : Type} (f : X -> C -> X) (g : B -> list C) l x :
  fold_left f (flat_map g l) x = fold_left (fun x b => fold_left f (g b) x) l x.
Proof.
  revert x. induction l as [|b l IH]; intros x; simpl.
  - reflexivity.
  - rewrite fold_left_app. apply IH.
Qed.

Lemma fold_left_map {X B C : Type} (f : X -> C -> X) (h : B -> C) l x :
  fold_left f (map h l) x = fold_left (fun x b => f x (h b)) l x.
Proof.
  revert x. induction l as [|b l IH]; intros x; simpl; [reflexivity | apply IH].
Qed.

Lemma nearest_scan_firstBest path remaining :
  nearest_scan path remaining =
  let r := firstBest (fun c => edgeCost path (fst c) (snd c)) lower
                     (candidates path remaining) (None, Infinity) in
  (option_map fst (fst r), snd r,
   match fst r with Some c => snd c + 1 | None => 0 end).
Proof.
  rewrite nearest_scan_unfold. unfold firstBest, candidates.
  rewrite fold_left_flat_map.
  apply (fold_left_related
           (fun (x : option Point * number * nat)
                (y : option (Point * nat) * number) =>
              x = (option_map fst (fst y), snd y,
                   match fst y with Some c => snd c + 1 | None => 0 end))).
  - intros x y point Hxy. rewrite fold_left_map.
    apply (fold_left_related
             (fun (x : option Point * number * nat)
                  (y : option (Point * nat) * number) =>
                x = (option_map fst (fst y), snd y,
                     match fst y with Some c => snd c + 1 | None => 0 end)));
      [|assumption].
    clear. intros [[np nd] pos] [o v] i Hxy. cbn [fst snd] in *.
    inversion Hxy; subst. unfold nearest_step, lower, edgeCost. cbn [fst snd].
    now destruct (_ <? v)%float.
  - reflexivity.
Qed.

Lemma candidates_In path remaining q j :
  In (q, j) (candidates path remaining) <-> In q remaining /\ j < length path.
Proof.
  unfold candidates. rewrite in_flat_map. split.
  - intros (p & Hp & H). apply in_map_iff in H. destruct H as (i & E & Hi).
    injection E as <- <-. apply in_seq in Hi. split; [assumption | lia].
  - intros [Hq Hj]. exists q. split; [assumption|].
    apply in_map. apply in_seq. lia.
Qed.

Lemma nearest_scan_spec path remaining :
  path <> [] -> remaining <> [] ->
  (forall a p b, In a path -> In p remaining -> In b path ->
                 (insertionCost a p b <? Infinity)%float = true) ->
  exists p i l1 l2,
    nearest_scan path remaining = (Some p, edgeCost path p i, i + 1) /\
    In p remaining /\ i < length path /\
    (forall q j, In q remaining -> j < length path ->
       (edgeCost path q j <? edgeCost path p i)%float = false) /\
    candidates path remaining = l1 ++ (p, i) :: l2 /\
    (forall q j, In (q, j) l1 ->
       (edgeCost path q j =? edgeCost path p i)%float = false).
Proof.
  intros Hpath Hrem Hfin. rewrite nearest_scan_firstBest.
  destruct (firstBest_spec (fun c => edgeCost path (fst c) (snd c)) lower
              lower_trans lower_irrefl lower_eqb
              (candidates path remaining) None Infinity)
    as [[_ Hnone] | (l1 & [p i] & l2 & Hsplit & Hr & _ & Hall & Hties)].
  - exfalso. destruct remaining as [|q rest]; [contradiction|].
    assert (Hlen : 0 < length path) by (destruct path; [contradiction | simpl; lia]).
    specialize (Hnone (q, 0)). cbn [fst snd] in Hnone. unfold lower, edgeCost in Hnone.
    rewrite Hfin in Hnone.
    + discriminate Hnone. apply candidates_In. split; [now left | assumption].
    + now apply at_In.
    + now left.
    + now apply at_next_In.
  - cbv zeta. rewrite Hr. cbn [fst snd option_map].
    assert (Hin : In (p, i) (candidates path remaining))
      by (rewrite Hsplit; apply in_elt).
    apply candidates_In in Hin. destruct Hin as [Hp Hi].
    exists p, i, l1, l2. split; [reflexivity|]. split; [assumption|].
    split; [assumption|]. split; [|split; [assumption|]].
    + intros q j Hq Hj. apply (Hall (q, j)). apply candidates_In. now split.
    + intros q j Hq. exact (Hties (q, j) Hq).
Qed.

(** X9: on a point set on the grid, a turn of the loop of
    [nearestInsertion], and of the insertion loop of [convexHull], takes the
    remaining point and the edge of the path for which [insertionCost] is
    least over all remaining points and all edges
    (the edge from the last point back to the first included), and puts the
    point between the two ends of that edge; among equal costs the pair
    that the nested scan meets first wins. *)
Theorem X9_nearest_scan_takes_least (s : Strategy) (pts : list Point) (st : State) :
  s = NearestInsertion \/ s = ConvexHull ->
  NoDup pts -> Forall onGrid pts -> placed pts st ->
  remainingPoints st <> [] ->
  exists st' p i l1 l2,
    body_of s st = Next st' /\
    path st' = insertAt (i + 1) p (path st) /\
    In p (remainingPoints st) /\ i < length (path st) /\
    (forall q j, In q (remainingPoints st) -> j < length (path st) ->
       (edgeCost (path st) q j <? edgeCost (path st) p i)%float = false) /\
    candidates (path st) (remainingPoints st) = l1 ++ (p, i) :: l2 /\
    (forall q j, In (q, j) l1 ->
       (edgeCost (path st) q j =? edgeCost (path st) p i)%float = false).
Proof.
  intros Hs Hnd Hgrid Hpl Hrem.
  assert (Hreg := regular_onGrid pts Hgrid).
  destruct (nearest_scan_spec (path st) (remainingPoints st))
    as (p & i & l1 & l2 & Hscan & Hp & Hi & Hleast & Hsplit & Hties).
  - apply Hpl.
  - assumption.
  - intros a q b Ha Hq Hb. apply (regular_insertion pts); try assumption.
    + now apply (placed_In_path pts st).
    + now apply (placed_In_remaining pts st).
    + now apply (placed_In_path pts st).
  - destruct Hs as [-> | ->]; cbn [body_of];
      unfold nearestInsertion_body, convexHull_body; rewrite Hscan;
      eexists; exists p, i, l1, l2;
      (split; [reflexivity|]); cbn [path];
      (split; [reflexivity|]); repeat split; assumption.
Qed.

Lemma X9_nearest_scan_takes_least_witness :
  exists st' p i l1 l2,
    body_of ConvexHull
      (mkState [mkPoint 80 15; mkPoint 120 15; mkPoint 100 30] [mkPoint 100 15] [])
    = Next st' /\
    path st' = insertAt (i + 1) p [mkPoint 80 15; mkPoint 120 15; mkPoint 100 30] /\
    In p [mkPoint 100 15] /\ i < 3 /\
    (forall q j, In q [mkPoint 100 15] -> j < 3 ->
       (edgeCost [mkPoint 80 15; mkPoint 120 15; mkPoint 100 30] q j
        <? edgeCost [mkPoint 80 15; mkPoint 120 15; mkPoint 100 30] p i)%float
       = false) /\
    candidates [mkPoint 80 15; mkPoint 120 15; mkPoint 100 30] [mkPoint 100 15]
    = l1 ++ (p, i) :: l2 /\
    (forall q j, In (q, j) l1 ->
       (edgeCost [mkPoint 80 15; mkPoint 120 15; mkPoint 100 30] q j
        =? edgeCost [mkPoint 80 15; mkPoint 120 15; mkPoint 100 30] p i)%float
       = false).
Proof.
  apply (X9_nearest_scan_takes_least ConvexHull
           [mkPoint 80 15; mkPoint 120 15; mkPoint 100 30; mkPoint 100 15]
           (mkState [mkPoint 80 15; mkPoint 120 15; mkPoint 100 30]
                    [mkPoint 100 15] [])).
  - now right.
  - apply distinct_NoDup. vm_compute. reflexivity.
  - apply allOnGrid_onGrid. vm_compute. reflexivity.
  - split; [apply Permutation_refl | discriminate].
  - discriminate.
Defined.

(** ** Ties in furthest insertion *)

Lemma furthest_select_first path remaining :
  remaining <> [] ->
  (forall q t, In q remaining -> In t path -> (0 <? distance q t)%float = true) ->
  exists sel l1 l2,
    furthest_select path remaining = (Some sel, minDistanceToPath path sel) /\
    remaining = l1 ++ sel :: l2 /\
    (forall q, In q remaining ->
       (minDistanceToPath path sel <? minDistanceToPath path q)%float = false) /\
    (forall q, In q l1 ->
       (minDistanceToPath path q =? minDistanceToPath path sel)%float = false).
Proof.
  intros Hrem Hpos. rewrite furthest_select_firstBest.
  destruct (firstBest_spec (minDistanceToPath path) higher higher_trans
              higher_irrefl higher_eqb remaining None 0%float)
    as [[_ Hnone] | (l1 & a & l2 & Hsplit & Hr & _ & Hall & Hties)].
  - exfalso. destruct remaining as [|q rest]; [contradiction|].
    specialize (Hnone q (or_introl eq_refl)). unfold higher in Hnone.
    destruct (minDistanceToPath_cases path q) as [E | (t & Ht & E)];
      rewrite E in Hnone.
    + discriminate Hnone.
    + rewrite Hpos in Hnone; [discriminate | now left | assumption].
  - exists a, l1, l2. split; [exact Hr|]. split; [assumption|].
    split; [|assumption]. intros q Hq. exact (Hall q Hq).
Qed.

Lemma furthest_position_first path selectedPoint :
  (exists j, j < length path /\
             (edgeCost path selectedPoint j <? Infinity)%float = true) ->
  exists i,
    furthest_position path selectedPoint
    = (edgeCost path selectedPoint i, i + 1) /\
    i < length path /\
    (forall j, j < length path ->
       (edgeCost path selectedPoint j <? edgeCost path selectedPoint i)%float
       = false) /\
    (forall j, j < i ->
       (edgeCost path selectedPoint j =? edgeCost path selectedPoint i)%float
       = false).
Proof.
  intros (j0 & Hj0 & Hfin). rewrite furthest_position_firstBest.
  destruct (firstBest_spec (edgeCost path selectedPoint) lower lower_trans
              lower_irrefl lower_eqb (seq 0 (length path)) None Infinity)
    as [[_ Hnone] | (l1 & a & l2 & Hsplit & Hr & _ & Hall & Hties)].
  - exfalso. specialize (Hnone j0 ltac:(apply in_seq; lia)).
    unfold lower in Hnone. congruence.
  - destruct (seq_split _ _ _ _ Hsplit) as (Ha & Hl1 & Hlt).
    cbv zeta. rewrite Hr. cbn [fst snd].
    exists a. split; [reflexivity|]. split; [assumption|]. split.
    + intros j Hj. apply Hall. apply in_seq. lia.
    + intros j Hj. apply Hties. rewrite Hl1. apply in_seq. lia.
Qed.

(** X10: on a point set on the grid, the two scans of a turn of
    [furthestInsertion] keep the first best candidate.  The point selected
    is one whose least distance to the path is largest among the remaining
    points, and it is the first of these in the array: no point before it
    has the same least distance.  It is inserted after [path[i]], where
    [insertionCost] is least over all edges of the path, and [i] is the
    first such edge: no edge before it has the same cost. *)
Theorem X10_furthestInsertion_breaks_ties_first (pts : list Point) (st : State) :
  NoDup pts -> Forall onGrid pts -> placed pts st ->
  remainingPoints st <> [] ->
  exists selectedPoint i l1 l2 st',
    furthestInsertion_body st = Next st' /\
    path st' = insertAt (i + 1) selectedPoint (path st) /\
    remainingPoints st = l1 ++ selectedPoint :: l2 /\
    (forall q, In q (remainingPoints st) ->
       (minDistanceToPath (path st) selectedPoint
        <? minDistanceToPath (path st) q)%float = false) /\
    (forall q, In q l1 ->
       (minDistanceToPath (path st) q
        =? minDistanceToPath (path st) selectedPoint)%float = false) /\
    i < length (path st) /\
    (forall j, j < length (path st) ->
       (edgeCost (path st) selectedPoint j
        <? edgeCost (path st) selectedPoint i)%float = false) /\
    (forall j, j < i ->
       (edgeCost (path st) selectedPoint j
        =? edgeCost (path st) selectedPoint i)%float = false).
Proof.
  intros Hnd Hgrid Hpl Hrem.
  assert (Hreg := regular_onGrid pts Hgrid).
  assert (Hnd' := placed_NoDup pts st Hnd Hpl).
  destruct (furthest_select_first (path st) (remainingPoints st))
    as (sel & l1 & l2 & Hsel & Hsplit & Hfar & Hties).
  - assumption.
  - intros q t Hq Ht. apply (regular_distance pts); try assumption.
    + now apply (placed_In_remaining pts st).
    + now apply (placed_In_path pts st).
    + intros ->. exact (NoDup_app_disjoint _ _ _ Hnd' Ht Hq).
  - assert (Hin : In sel (remainingPoints st)) by (rewrite Hsplit; apply in_elt).
    destruct (furthest_position_first (path st) sel)
      as (i & Hpos & Hi & Hleast & Hfirst).
    + assert (Hlen : 0 < length (path st)).
      { destruct Hpl as [_ Hne]. destruct (path st); [contradiction | simpl; lia]. }
      exists 0. split; [assumption|]. unfold edgeCost.
      apply (regular_insertion pts); try assumption.
      * apply (placed_In_path pts st _ Hpl). now apply at_In.
      * now apply (placed_In_remaining pts st).
      * apply (placed_In_path pts st _ Hpl). apply at_next_In. apply Hpl.
    + exists sel, i, l1, l2. unfold furthestInsertion_body. rewrite Hsel, Hpos.
      eexists. split; [reflexivity|]. cbn [path].
      split; [reflexivity|]. split; [assumption|]. split; [assumption|].
      split; [assumption|]. split; [assumption|]. split; assumption.
Qed.

Lemma X10_furthestInsertion_breaks_ties_first_witness :
  exists selectedPoint i l1 l2 st',
    furthestInsertion_body
      (mkState [mkPoint 80 15; mkPoint 120 15] [mkPoint 100 30; mkPoint 100 15] [])
    = Next st' /\
    path st' = insertAt (i + 1) selectedPoint [mkPoint 80 15; mkPoint 120 15] /\
    [mkPoint 100 30; mkPoint 100 15] = l1 ++ selectedPoint :: l2 /\
    (forall q, In q [mkPoint 100 30; mkPoint 100 15] ->
       (minDistanceToPath [mkPoint 80 15; mkPoint 120 15] selectedPoint
        <? minDistanceToPath [mkPoint 80 15; mkPoint 120 15] q)%float = false) /\
    (forall q, In q l1 ->
       (minDistanceToPath [mkPoint 80 15; mkPoint 120 15] q
        =? minDistanceToPath [mkPoint 80 15; mkPoint 120 15] selectedPoint)%float
       = false) /\
    i < 2 /\
    (forall j, j < 2 ->
       (edgeCost [mkPoint 80 15; mkPoint 120 15] selectedPoint j
        <? edgeCost [mkPoint 80 15; mkPoint 120 15] selectedPoint i)%float = false) /\
    (forall j, j < i ->
       (edgeCost [mkPoint 80 15; mkPoint 120 15] selectedPoint j
        =? edgeCost [mkPoint 80 15; mkPoint 120 15] selectedPoint i)%float = false).
Proof.
  apply (X10_furthestInsertion_breaks_ties_first
           [mkPoint 80 15; mkPoint 120 15; mkPoint 100 30; mkPoint 100 15]
           (mkState [mkPoint 80 15; mkPoint 120 15]
                    [mkPoint 100 30; mkPoint 100 15] [])).
  - apply distinct_NoDup. vm_compute. reflexivity.
  - apply allOnGrid_onGrid. vm_compute. reflexivity.
  - split; [apply Permutation_refl | discriminate].
  - discriminate.
Defined.

(** ** The shape of the hull *)

Module HullShape.

Import Exact.
Local Open Scope Z_scope.

Section Enclosure.
Variable sigma : Z.
Hypothesis sigma_unit : sigma = 1 \/ sigma = -1.

Lemma before_cases a b : a = b \/ before sigma a b \/ before sigma b a.
Proof.
  destruct (Point_eq_dec a b) as [->|Hne]; [now left|right].
  unfold before. destruct a as [xa ya], b as [xb yb]. cbn [x y].
  destruct (Z.eq_dec xa xb) as [->|Hx].
  - destruct (Z.eq_dec ya yb) as [->|Hy]; [congruence|].
    destruct sigma_unit as [-> | ->]; lia.
  - destruct sigma_unit as [-> | ->]; lia.
Qed.

(* three vectors of the half plane, in the order of their directions *)
Lemma wedge_weak (a b c d e f : Z) :
  (0 < sigma * a \/ (a = 0 /\ 0 < sigma * b)) ->
  (0 < sigma * c \/ (c = 0 /\ 0 < sigma * d)) ->
  (0 < sigma * e \/ (e = 0 /\ 0 < sigma * f)) ->
  0 <= a * d - b * c -> 0 <= c * f - d * e -> 0 <= a * f - b * e.
Proof.
  intros Hu Hv Hw H1 H2.
  assert (E1 : c * (a * f - b * e) = a * (c * f - d * e) + e * (a * d - b * c)) by ring.
  destruct sigma_unit as [-> | ->].
  - destruct Hv as [Hc | [-> Hd]].
    + apply (Z.mul_nonneg_cancel_l c); [lia|]. rewrite E1.
      apply Z.add_nonneg_nonneg; apply Z.mul_nonneg_nonneg; lia.
    + assert (e = 0) by nia. subst e.
      assert (0 <= a * f) by (apply Z.mul_nonneg_nonneg; lia). lia.
  - destruct Hv as [Hc | [-> Hd]].
    + apply (Z.mul_nonneg_cancel_l (- c)); [lia|].
      replace (- c * (a * f - b * e)) with (- (c * (a * f - b * e))) by ring.
      rewrite E1.
      replace (- (a * (c * f - d * e) + e * (a * d - b * c)))
        with ((- a) * (c * f - d * e) + (- e) * (a * d - b * c)) by ring.
      apply Z.add_nonneg_nonneg; apply Z.mul_nonneg_nonneg; lia.
    + assert (e = 0) by nia. subst e.
      assert (0 <= (- a) * (- f)) by (apply Z.mul_nonneg_nonneg; lia). lia.
Qed.

Lemma wedge_back s t p q :
  before sigma s t -> before sigma p t -> before sigma t q ->
  0 <= cross s t p -> 0 < cross s t q -> 0 <= cross t q p.
Proof.
  unfold before, cross. intros Hst Hpt Htq H1 H2.
  pose proof (wedge_weak (x t - x p) (y t - y p) (x t - x s) (y t - y s)
                         (x q - x t) (y q - y t)) as W.
  assert (0 <= (x t - x p) * (y q - y t) - (y t - y p) * (x q - x t)).
  { apply W; lia. }
  lia.
Qed.

Lemma wedge_front t s p q :
  before sigma t s -> before sigma t p -> before sigma t q ->
  cross t s q <= 0 -> 0 <= cross t s p -> 0 <= cross t q p.
Proof.
  unfold before, cross. intros Hts Htp Htq H1 H2.
  pose proof (wedge_weak (x q - x t) (y q - y t) (x s - x t) (y s - y t)
                         (x p - x t) (y p - y t)) as W.
  apply W; lia.
Qed.

Lemma cross_same_end a b : cross a b b = 0.
Proof. unfold cross. lia. Qed.

Lemma cross_same_start a b : cross a b a = 0.
Proof. unfold cross. lia. Qed.

Lemma edges_cons b a rest : edges (b :: a :: rest) = (b, a) :: edges (a :: rest).
Proof. reflexivity. Qed.

Lemma edges_suffix l1 l2 e : In e (edges l2) -> In e (edges (l1 ++ l2)).
Proof.
  induction l1 as [|c l1 IH]; intros H; [assumption|].
  specialize (IH H). destruct (l1 ++ l2) as [|d l] eqn:E.
  - destruct IH.
  - simpl app. rewrite E, edges_cons. now right.
Qed.

Lemma chain_suffix l1 l2 : chain sigma (l1 ++ l2) -> chain sigma l2.
Proof.
  induction l1 as [|c l1 IH]; intros H; [assumption|].
  apply IH. exact (Hull.chain_tail sigma c _ H).
Qed.

Lemma hull_pop_split hull point :
  hull_pop hull point = hull \/
  exists l1 s t rest,
    hull = l1 ++ s :: t :: rest /\ hull_pop hull point = t :: rest /\
    cross t s point <= 0.
Proof.
  induction hull as [|b hull IH]; [now left|].
  cbn [hull_pop]. destruct hull as [|a rest]; [now left|].
  destruct (cross a b point <=? 0) eqn:E; [|now left].
  apply Z.leb_le in E. right.
  destruct IH as [IH | (l1 & s & t & rest' & Hh & Hp & Hc)].
  - exists [], b, a, rest. rewrite IH. now repeat split.
  - exists (b :: l1), s, t, rest'. rewrite Hh at 1. now repeat split.
Qed.

Lemma hull_pop_suffix hull point : exists l1, hull = l1 ++ hull_pop hull point.
Proof.
  destruct (hull_pop_split hull point) as [E | (l1 & s & t & rest & Hh & Hp & _)].
  - exists []. now rewrite E.
  - exists (l1 ++ [s]). rewrite Hp, <- app_assoc. exact Hh.
Qed.

Lemma pairs_edges (R : Point -> Point -> Prop) l b a :
  ForallOrdPairs R l -> In (b, a) (edges l) -> R b a.
Proof.
  induction 1 as [|c l Hc Hl IH]; intros Hin.
  - destruct Hin.
  - destruct l as [|d l']; [destruct Hin|].
    rewrite edges_cons in Hin. destruct Hin as [E|Hin]; [|now apply IH].
    injection E as <- <-. rewrite Forall_forall in Hc. apply Hc. now left.
Qed.

Lemma hull_push_encloses hull seen point :
  encloses sigma hull seen -> Forall (fun p => before sigma p point) seen ->
  encloses sigma (hull_push hull point) (point :: seen).
Proof.
  intros (Hc & Hincl & Hnil & Hleft & Htop & Hbot) Hbefore.
  rewrite Forall_forall in Hbefore.
  assert (Hhb : Forall (fun q => before sigma q point) hull).
  { apply Forall_forall. intros q Hq. apply Hbefore. now apply Hincl. }
  assert (Hc' := Hull.hull_push_chain sigma sigma_unit hull point Hc Hhb).
  assert (Hpc := Hull.hull_pop_chain sigma hull point Hc).
  assert (Hpi := Hull.hull_pop_incl hull point).
  assert (Hpt := Hull.hull_pop_top hull point).
  destruct (hull_pop_suffix hull point) as (l1 & Hsuf).
  unfold hull_push in *.
  split; [assumption|]. split; [|split; [discriminate|split; [|split]]].
  - intros q [<-|Hq]; [now left|]. right. apply Hincl. now apply Hpi.
  - (* every point seen is on the left of every edge *)
    intros p Hp b a Hin.
    destruct (hull_pop hull point) as [|t rest'] eqn:Epop; [destruct Hin|].
    rewrite edges_cons in Hin. destruct Hin as [E|Hin].
    + injection E as <- <-.
      assert (Ht : In t seen) by (apply Hincl, Hpi; now left).
      destruct Hp as [<-|Hp]; [rewrite cross_same_end; lia|].
      destruct (before_cases p t) as [->|[Hpt'|Htp]].
      * rewrite cross_same_start. lia.
      * (* [p] precedes [t]: the edge that arrives at [t] *)
        destruct rest' as [|s rest''].
        -- exfalso.
           assert (El : last hull origin = t).
           { rewrite <- (Hull.hull_pop_last hull point), Epop. reflexivity. }
           destruct (Hbot p Hp) as [E|Hb]; rewrite El in *.
           ++ subst p. exact (Hull.before_irrefl sigma t Hpt').
           ++ exact (Hull.before_irrefl sigma t
                       (Hull.before_trans sigma sigma_unit _ _ _ Hb Hpt')).
        -- apply (wedge_back s t p point).
           ++ destruct Hpc as [Hs _]. apply StronglySorted_inv in Hs.
              destruct Hs as [_ Hs]. rewrite Forall_forall in Hs. apply Hs. now left.
           ++ assumption.
           ++ now apply Hbefore.
           ++ apply (Hleft p Hp). rewrite Hsuf. apply edges_suffix.
              rewrite edges_cons. now left.
           ++ exact Hpt.
      * (* [p] follows [t]: the edge that left [t], popped last *)
        destruct (hull_pop_split hull point)
          as [E | (l2 & s & t' & rest & Hh & Hp' & Hcross)].
        -- exfalso. rewrite Epop in E.
           destruct (Htop p Hp) as [E'|Hb]; rewrite <- E in *; cbn [hd] in *.
           ++ subst p. exact (Hull.before_irrefl sigma t Htp).
           ++ exact (Hull.before_irrefl sigma t
                       (Hull.before_trans sigma sigma_unit _ _ _ Htp Hb)).
        -- rewrite Epop in Hp'. injection Hp' as <- <-.
           apply (wedge_front t s p point).
           ++ rewrite Hh in Hc. apply chain_suffix in Hc. destruct Hc as [Hs _].
              apply StronglySorted_inv in Hs. destruct Hs as [_ Hs].
              rewrite Forall_forall in Hs. apply Hs. now left.
           ++ assumption.
           ++ now apply Hbefore.
           ++ assumption.
           ++ apply (Hleft p Hp). rewrite Hh. apply edges_suffix.
              rewrite edges_cons. now left.
    + destruct Hp as [<-|Hp].
      * destruct Hc' as [_ [Hpairs _]].
        apply Z.lt_le_incl.
        exact (pairs_edges (fun b a => 0 < cross a b point) _ b a Hpairs Hin).
      * apply (Hleft p Hp). rewrite Hsuf. now apply edges_suffix.
  - intros p [<-|Hp]; [now left|]. right. cbn [hd]. now apply Hbefore.
  - intros p Hp.
    destruct hull as [|h hull'].
    + cbn [hull_pop last]. rewrite (Hnil eq_refl) in Hp.
      destruct Hp as [<-|[]]. now left.
    + assert (Hne : h :: hull' <> []) by discriminate.
      rewrite Hull.last_cons by (now apply Hull.hull_pop_nonempty).
      rewrite Hull.hull_pop_last.
      destruct Hp as [<-|Hp]; [|now apply Hbot].
      right. apply Hbefore. apply Hincl. now apply Hull.last_In.
Qed.

Lemma fold_encloses l hull seen :
  encloses sigma hull seen -> StronglySorted (before sigma) l ->
  (forall p, In p seen -> Forall (before sigma p) l) ->
  encloses sigma (fold_left hull_push l hull) (rev l ++ seen).
Proof.
  revert hull seen. induction l as [|point l IH]; intros hull seen Hinv Hs Hb.
  - assumption.
  - apply StronglySorted_inv in Hs. destruct Hs as [Hs Hp].
    cbn [fold_left rev]. rewrite <- app_assoc. cbn [app].
    apply IH; [|assumption|].
    + apply hull_push_encloses; [assumption|].
      apply Forall_forall. intros p Hin. specialize (Hb p Hin). now inversion Hb.
    + intros p [<-|Hin]; [assumption|].
      specialize (Hb p Hin). now inversion Hb.
Qed.

Lemma halfHull_encloses l p :
  StronglySorted (before sigma) l -> In p l ->
  leftOfStack (fold_left hull_push l []) p.
Proof.
  intros Hs Hp.
  destruct (fold_encloses l [] []) as (_ & _ & _ & Hleft & _).
  - split; [split; constructor|]. split; [apply incl_refl|].
    split; [reflexivity|]. repeat split; intros q [].
  - assumption.
  - intros q [].
  - apply Hleft. rewrite app_nil_r. now apply in_rev in Hp.
Qed.

End Enclosure.

Lemma edges_app_mid l1 c l2 :
  edges (l1 ++ c :: l2) = edges (l1 ++ [c]) ++ edges (c :: l2).
Proof.
  induction l1 as [|d l1 IH]; [reflexivity|].
  destruct l1 as [|e l1].
  - reflexivity.
  - cbn [app] in *. rewrite !edges_cons, IH. reflexivity.
Qed.

Lemma edges_rev l a b : In (a, b) (edges (rev l)) -> In (b, a) (edges l).
Proof.
  induction l as [|c l IH]; intros H; [destruct H|].
  destruct l as [|d l]; [destruct H|].
  cbn [rev] in H. rewrite <- app_assoc in H. cbn [app] in H.
  rewrite edges_app_mid in H. apply in_app_or in H.
  rewrite edges_cons. destruct H as [H|H].
  - right. apply IH. exact H.
  - left. destruct H as [H|[]]. now injection H as <- <-.
Qed.

(** The two stacks behind [hullPoints], on a set of at least two points. *)
Lemma hullPoints_halves pts :
  NoDup pts -> (2 <= length pts)%nat ->
  let first := hd origin (sortedPoints pts) in
  let final := last (sortedPoints pts) origin in
  exists lower upper,
    fold_left hull_push (sortedPoints pts) [] = final :: rev (first :: lower) /\
    fold_left hull_push (rev (sortedPoints pts)) [] = first :: rev (final :: upper) /\
    hullPoints pts = (first :: lower) ++ (final :: upper) /\
    chain 1 (final :: rev (first :: lower)) /\
    chain (-1) (first :: rev (final :: upper)) /\
    first <> final.
Proof.
  intros Hnd Hlen first final.
  assert (Hs := Hull.sortedPoints_sorted pts Hnd).
  assert (Hp := Hull.sortedPoints_perm pts).
  assert (Hlen' : (2 <= length (sortedPoints pts))%nat)
    by (now rewrite (Permutation_length Hp)).
  assert (Hne : sortedPoints pts <> []).
  { intros E. rewrite E in Hlen'. simpl in Hlen'. lia. }
  assert (Hdiff : first <> final).
  { unfold first, final. destruct (sortedPoints pts) as [|a [|b l]];
      try (simpl in Hlen'; lia).
    apply StronglySorted_inv in Hs. destruct Hs as [_ Ha].
    rewrite Forall_forall in Ha. cbn [hd]. intros E.
    apply (Hull.before_irrefl 1 a). rewrite E at 2.
    apply Ha. rewrite Hull.last_cons by discriminate. apply Hull.last_In. discriminate. }
  destruct (Hull.halfHull_stack 1 (sortedPoints pts) (or_introl eq_refl) Hs Hne)
    as (lower & El & Hcl & _ & Hbl).
  assert (Hne' : rev (sortedPoints pts) <> []).
  { intros E. apply (f_equal (@rev Point)) in E. rewrite rev_involutive in E.
    contradiction. }
  destruct (Hull.halfHull_stack (-1) (rev (sortedPoints pts)) (or_intror eq_refl)
              (Hull.sorted_rev _ Hs) Hne')
    as (upper & Eu & Hcu & _ & Hbu).
  rewrite Hull.last_rev in Eu, Hcu, Hbu. rewrite Hull.hd_rev in Hbu.
  fold first in El, Eu, Hcl, Hcu, Hbl, Hbu |- *.
  fold final in El, Eu, Hcl, Hcu, Hbl, Hbu |- *.
  assert (Hl : exists lower', lower = rev (first :: lower')).
  { destruct lower as [|c lower] using rev_ind.
    - cbn [last] in Hbl. congruence.
    - clear IHlower. exists (rev lower).
      replace (final :: lower ++ [c]) with ((final :: lower) ++ [c]) in Hbl
        by reflexivity.
      rewrite last_last in Hbl. subst c. cbn [rev]. now rewrite rev_involutive. }
  assert (Hu : exists upper', upper = rev (final :: upper')).
  { destruct upper as [|c upper] using rev_ind.
    - cbn [last] in Hbu. congruence.
    - clear IHupper. exists (rev upper).
      replace (first :: upper ++ [c]) with ((first :: upper) ++ [c]) in Hbu
        by reflexivity.
      rewrite last_last in Hbu. subst c. cbn [rev]. now rewrite rev_involutive. }
  destruct Hl as (lower' & ->). destruct Hu as (upper' & ->).
  exists lower', upper'. split; [assumption|]. split; [assumption|].
  split; [|split; [assumption|split; assumption]].
  unfold hullPoints, lowerHull, upperHull, halfHull.
  rewrite El, Eu, !Hull.removelast_rev_cons, !rev_involutive. reflexivity.
Qed.

Lemma hullPoints_small pts : (length pts < 2)%nat -> hullPoints pts = [].
Proof.
  destruct pts as [|q [|r l]]; intros H; try reflexivity. simpl in H. lia.
Qed.

(** The hull in exact arithmetic encloses the point set. *)
Lemma exact_hull_encloses (pts : list Point) (a b p : Point) :
  NoDup pts -> In (a, b) (edges (closing (hullPoints pts))) -> In p pts ->
  0 <= cross a b p.
Proof.
  intros Hnd Hedge Hp.
  destruct (Nat.lt_ge_cases (length pts) 2) as [Hlen|Hlen].
  { rewrite (hullPoints_small pts Hlen) in Hedge. destruct Hedge. }
  pose proof (hullPoints_halves pts Hnd Hlen) as H. cbv zeta in H.
  destruct H as (lower & upper & El & Eu & Eh & _ & _ & _).
  set (first := hd origin (sortedPoints pts)) in *.
  set (final := last (sortedPoints pts) origin) in *.
  assert (Hs := Hull.sortedPoints_sorted pts Hnd).
  assert (Hperm := Hull.sortedPoints_perm pts).
  assert (Hin : In p (sortedPoints pts))
    by (apply (Permutation_in _ (Permutation_sym Hperm)); assumption).
  rewrite Eh in Hedge. unfold closing in Hedge. cbn [app firstn] in Hedge.
  change (first :: lower ++ final :: upper) with ((first :: lower) ++ final :: upper)
    in Hedge.
  rewrite <- app_assoc in Hedge. cbn [app] in Hedge.
  change (first :: lower ++ final :: upper ++ [first])
    with ((first :: lower) ++ final :: (upper ++ [first])) in Hedge.
  rewrite edges_app_mid in Hedge. apply in_app_or in Hedge.
  destruct Hedge as [Hedge|Hedge].
  - replace ((first :: lower) ++ [final])
      with (rev (final :: rev (first :: lower))) in Hedge
      by (cbn [rev]; now rewrite rev_app_distr, rev_involutive).
    apply edges_rev in Hedge. rewrite <- El in Hedge.
    exact (halfHull_encloses 1 (or_introl eq_refl) _ p Hs Hin b a Hedge).
  - replace (final :: upper ++ [first])
      with (rev (first :: rev (final :: upper))) in Hedge
      by (cbn [rev]; now rewrite rev_app_distr, rev_involutive).
    apply edges_rev in Hedge. rewrite <- Eu in Hedge.
    apply (halfHull_encloses (-1) (or_intror eq_refl) _ p
             (Hull.sorted_rev _ Hs)); [|assumption].
    now apply in_rev in Hin.
Qed.


(** Any three points of a half hull, taken in its order, turn left. *)
Lemma halfHull_turns sigma l l1 a l2 b l3 c l4 :
  sigma = 1 \/ sigma = -1 -> StronglySorted (before sigma) l ->
  halfHull l = l1 ++ a :: l2 ++ b :: l3 ++ c :: l4 ->
  0 < cross a b c.
Proof.
  intros Hsigma Hs E. unfold halfHull in E.
  assert (Hc : chain sigma (fold_left hull_push l [])).
  { apply Hull.fold_hull_chain; try assumption.
    - split; constructor.
    - constructor. }
  apply (f_equal (@rev Point)) in E. rewrite rev_involutive in E.
  rewrite E in Hc.
  rewrite rev_app_distr in Hc. cbn [rev] in Hc.
  rewrite rev_app_distr in Hc. cbn [rev] in Hc.
  rewrite rev_app_distr in Hc. cbn [rev] in Hc.
  rewrite <- !app_assoc in Hc. cbn [app] in Hc.
  apply chain_suffix in Hc. destruct Hc as [_ [Hpairs _]].
  apply Hull.pairs_after in Hpairs. rewrite Forall_forall in Hpairs.
  apply Hpairs. apply in_or_app. right. now left.
Qed.

(** The first point of the sorted array is the least one: leftmost, and
    lowest among the leftmost. *)
Lemma sortedPoints_least pts p :
  NoDup pts -> In p pts ->
  p = hd origin (sortedPoints pts) \/ before 1 (hd origin (sortedPoints pts)) p.
Proof.
  intros Hnd Hp.
  assert (Hs := Hull.sortedPoints_sorted pts Hnd).
  apply (Permutation_in _ (Permutation_sym (Hull.sortedPoints_perm pts))) in Hp.
  destruct (sortedPoints pts) as [|a l]; [destruct Hp|].
  cbn [hd]. destruct Hp as [<-|Hp]; [now left|right].
  apply StronglySorted_inv in Hs. destruct Hs as [_ Ha].
  rewrite Forall_forall in Ha. now apply Ha.
Qed.

Lemma sortedPoints_greatest pts p :
  NoDup pts -> In p pts ->
  p = last (sortedPoints pts) origin \/ before 1 p (last (sortedPoints pts) origin).
Proof.
  intros Hnd Hp.
  assert (Hs := Hull.sorted_rev _ (Hull.sortedPoints_sorted pts Hnd)).
  apply (Permutation_in _ (Permutation_sym (Hull.sortedPoints_perm pts))) in Hp.
  rewrite <- Hull.hd_rev. apply in_rev in Hp.
  destruct (rev (sortedPoints pts)) as [|a l]; [destruct Hp|].
  cbn [hd]. destruct Hp as [<-|Hp]; [now left|right].
  apply StronglySorted_inv in Hs. destruct Hs as [_ Ha].
  rewrite Forall_forall in Ha. apply Hull.before_flip. now apply Ha.
Qed.

Lemma exact_hull_extremes (pts : list Point) :
  NoDup pts -> (2 <= length pts)%nat ->
  exists first final rest,
    hullPoints pts = first :: rest /\ In final rest /\
    first = hd origin (sortedPoints pts) /\
    (forall p, In p pts -> p = first \/ before 1 first p) /\
    (forall p, In p pts -> p = final \/ before 1 p final).
Proof.
  intros Hnd Hlen.
  pose proof (hullPoints_halves pts Hnd Hlen) as H. cbv zeta in H.
  destruct H as (lower & upper & _ & _ & Eh & _ & _ & _).
  exists (hd origin (sortedPoints pts)), (last (sortedPoints pts) origin),
         (lower ++ last (sortedPoints pts) origin :: upper).
  split; [exact Eh|]. split; [apply in_elt|]. split; [reflexivity|]. split.
  - intros p Hp. now apply sortedPoints_least.
  - intros p Hp. now apply sortedPoints_greatest.
Qed.

Lemma exact_hull_collinear (pts : list Point) :
  NoDup pts -> (2 <= length pts)%nat ->
  (forall a b c, In a pts -> In b pts -> In c pts -> cross a b c = 0) ->
  hullPoints pts = [hd origin (sortedPoints pts); last (sortedPoints pts) origin].
Proof.
  intros Hnd Hlen Hline.
  pose proof (hullPoints_halves pts Hnd Hlen) as H. cbv zeta in H.
  destruct H as (lower & upper & _ & _ & Eh & Hcl & Hcu & _).
  assert (Hincl := Hull.exact_hullPoints_incl pts Hnd). rewrite Eh in Hincl.
  set (first := hd origin (sortedPoints pts)) in *.
  set (final := last (sortedPoints pts) origin) in *.
  assert (Hfirst : In first pts) by (apply Hincl; now left).
  assert (Hfinal : In final pts) by (apply Hincl; apply in_elt).
  destruct lower as [|q lower].
  - destruct upper as [|q upper]; [exact Eh|]. exfalso.
    destruct Hcu as [_ [Hpairs _]]. cbn [rev] in Hpairs.
    rewrite <- !app_assoc in Hpairs. cbn [app] in Hpairs.
    apply Hull.pairs_after in Hpairs. rewrite Forall_forall in Hpairs.
    specialize (Hpairs final (or_introl eq_refl)). cbv beta in Hpairs.
    rewrite Hline in Hpairs; [lia | assumption | | assumption].
    apply Hincl. cbn [app]. right. right. now left.
  - exfalso.
    destruct Hcl as [_ [Hpairs _]]. cbn [rev] in Hpairs.
    rewrite <- !app_assoc in Hpairs. cbn [app] in Hpairs.
    apply Hull.pairs_after in Hpairs. rewrite Forall_forall in Hpairs.
    specialize (Hpairs first (or_introl eq_refl)). cbv beta in Hpairs.
    rewrite Hline in Hpairs; [lia | assumption | | assumption].
    apply Hincl. right. now left.
Qed.


End HullShape.

(** X11: on a point set on the grid the polygon [convexHull] shows first,
    the hull followed by its first point, leaves every point of the set on
    its left or on it: no point is strictly to the right of one of its
    edges.  The hull is the one the source computes in binary64; the side is
    told by the exact cross product. *)
Theorem X11_convexHull_encloses_points (pts : list Point) (a b p : Point) :
  NoDup pts -> Forall onGrid pts ->
  In (a, b) (edges (closing (hullPoints pts))) -> In p pts ->
  (0 <= Exact.cross a b p)%Z.
Proof.
  intros Hnd Hgrid Hedge Hp.
  destruct (hullPoints_exact pts Hgrid) as (_ & _ & _ & E).
  rewrite E in Hedge.
  exact (HullShape.exact_hull_encloses pts a b p Hnd Hedge Hp).
Qed.

Lemma X11_convexHull_encloses_points_witness :
  (0 <= Exact.cross (mkPoint 100 90) (mkPoint 20 75) (mkPoint 40 60))%Z.
Proof.
  apply (X11_convexHull_encloses_points scattered).
  - apply distinct_NoDup. vm_compute. reflexivity.
  - apply allOnGrid_onGrid. vm_compute. reflexivity.
  - vm_compute. tauto.
  - vm_compute. tauto.
Defined.

(** X12: on a point set on the grid, in the lower hull and in the upper hull
    any three points, taken in the order of the hull, make a strict left
    turn: the scan keeps no point that is on the segment between two others,
    and no half hull bends to the right. *)
Theorem X12_hull_halves_turn_left (pts l1 l2 l3 l4 : list Point) (a b c : Point) :
  NoDup pts -> Forall onGrid pts ->
  lowerHull pts = l1 ++ a :: l2 ++ b :: l3 ++ c :: l4 \/
  upperHull pts = l1 ++ a :: l2 ++ b :: l3 ++ c :: l4 ->
  (0 < Exact.cross a b c)%Z.
Proof.
  intros Hnd Hgrid Hhalf.
  destruct (hullPoints_exact pts Hgrid) as (_ & El & Eu & _).
  rewrite El, Eu in Hhalf. destruct Hhalf as [E|E].
  - apply (HullShape.halfHull_turns 1 (Exact.sortedPoints pts) l1 a l2 b l3 c l4);
      [now left | now apply Hull.sortedPoints_sorted | exact E].
  - apply (HullShape.halfHull_turns (-1) (rev (Exact.sortedPoints pts))
             l1 a l2 b l3 c l4);
      [now right | apply Hull.sorted_rev; now apply Hull.sortedPoints_sorted
      | exact E].
Qed.

Lemma X12_hull_halves_turn_left_witness :
  (0 < Exact.cross (mkPoint 20 75) (mkPoint 40 45) (mkPoint 100 90))%Z.
Proof.
  apply (X12_hull_halves_turn_left scattered [] [] [] []).
  - apply distinct_NoDup. vm_compute. reflexivity.
  - apply allOnGrid_onGrid. vm_compute. reflexivity.
  - left. vm_compute. reflexivity.
Defined.

(** X13: on a point set on the grid the hull is made of points of the set
    and holds none of them twice; on a set of at least two points it starts
    at the least point of the set (leftmost, lowest among the leftmost) and
    holds the greatest one (rightmost, highest among the rightmost). *)
Theorem X13_hullPoints_extremes (pts : list Point) :
  NoDup pts -> Forall onGrid pts -> 2 <= length pts ->
  NoDup (hullPoints pts) /\ incl (hullPoints pts) pts /\
  exists first final rest,
    hullPoints pts = first :: rest /\ In final rest /\
    (forall p, In p pts -> p = first \/ before 1 first p) /\
    (forall p, In p pts -> p = final \/ before 1 p final).
Proof.
  intros Hnd Hgrid Hlen.
  split; [now apply hullPoints_NoDup|].
  split; [now apply hullPoints_incl|].
  destruct (hullPoints_exact pts Hgrid) as (_ & _ & _ & ->).
  destruct (HullShape.exact_hull_extremes pts Hnd Hlen)
    as (first & final & rest & Eh & Hin & _ & Hleast & Hgreatest).
  exists first, final, rest. repeat split; assumption.
Qed.

Lemma X13_hullPoints_extremes_witness :
  NoDup (hullPoints kite) /\ incl (hullPoints kite) kite /\
  exists first final rest,
    hullPoints kite = first :: rest /\ In final rest /\
    (forall p, In p kite -> p = first \/ before 1 first p) /\
    (forall p, In p kite -> p = final \/ before 1 p final).
Proof.
  apply (X13_hullPoints_extremes kite).
  - apply distinct_NoDup. vm_compute. reflexivity.
  - apply allOnGrid_onGrid. vm_compute. reflexivity.
  - simpl. lia.
Defined.

(** X14: on a point set on the grid, when all the points are on one line
    the hull is the two ends of the set, the least point and the greatest
    one; the insertion loop of [convexHull] then places every other
    point. *)
Theorem X14_hullPoints_collinear (pts : list Point) :
  NoDup pts -> Forall onGrid pts -> 2 <= length pts ->
  (forall a b c, In a pts -> In b pts -> In c pts -> Exact.cross a b c = 0%Z) ->
  hullPoints pts = [hd origin (sortedPoints pts); last (sortedPoints pts) origin].
Proof.
  intros Hnd Hgrid Hlen Hline.
  destruct (hullPoints_exact pts Hgrid) as (-> & _ & _ & ->).
  now apply HullShape.exact_hull_collinear.
Qed.

Lemma X14_hullPoints_collinear_witness :
  hullPoints aligned
  = [hd origin (sortedPoints aligned); last (sortedPoints aligned) origin].
Proof.
  apply (X14_hullPoints_collinear aligned).
  - apply distinct_NoDup. vm_compute. reflexivity.
  - apply allOnGrid_onGrid. vm_compute. reflexivity.
  - simpl. lia.
  - intros a b c [<-|[<-|[<-|[]]]] [<-|[<-|[<-|[]]]] [<-|[<-|[<-|[]]]];
      reflexivity.
Defined.

(** ** Runs, from their initial state *)

Lemma while_preserves body (Inv : State -> Prop) :
  (forall st st', Inv st -> remainingPoints st <> [] -> body st = Next st' ->
                  Inv st') ->
  forall flag fuel awaits st st' n,
    while_ body flag fuel awaits st = Returned (st', n) -> Inv st -> Inv st'.
Proof.
  intros Hbody flag fuel. induction fuel as [|fuel IH]; intros awaits st st' n Hw Hinv;
    simpl in Hw; destruct (remainingPoints st) as [|p rest] eqn:Er;
    try (injection Hw as <- _; assumption);
    destruct (stoppedAfter flag awaits);
    try (injection Hw as <- _; assumption);
    try discriminate Hw.
  destruct (body st) as [st1| | |] eqn:Eb; try discriminate Hw.
  - apply (IH _ _ _ _ Hw). apply (Hbody st); [assumption | | assumption].
    rewrite Er. discriminate.
  - injection Hw as <- _. assumption.
Qed.

(** A run that returns went from its initial state through its loop. *)
Lemma run_initial s k flag fuel pts o :
  pts <> [] -> run s k flag fuel pts = Returned o ->
  exists st0 st awaits,
    initial s k pts = Some st0 /\
    while_ (body_of s) flag fuel (firstTest s) st0 = Returned (st, awaits) /\
    stopped o = stoppedAfter flag awaits /\
    remainingPoints (locals o) = remainingPoints st /\
    currentPath (locals o) = currentPath st /\
    (stopped o = true -> path (locals o) = path st /\ bestPath o = None) /\
    (stopped o = false ->
     bestPath o =
       Some (path st ++ firstn 1 (path match s with
                                       | NearestNeighbor => st0
                                       | _ => st
                                       end)) /\
     (path (locals o) = path st \/ bestPath o = Some (path (locals o)))).
Proof.
  intros Hne. destruct s; cbn [run initial body_of firstTest];
    unfold nearestNeighbor, arbitraryInsertion, nearestInsertion,
           furthestInsertion, convexHull; intros H.
  - destruct (nth_error pts k) as [startPoint|]; [|discriminate].
    destruct (while_ _ _ _ _ _) as [[st awaits]| | |] eqn:Ew; try discriminate.
    eexists; exists st, awaits. split; [reflexivity|]. split; [exact Ew|].
    destruct (stoppedAfter flag awaits); injection H as <-; cbn;
      repeat split; try reflexivity; try discriminate;
      try (now left); now right.
  - destruct (nth_error pts k) as [startPoint|]; [|discriminate].
    destruct (find _ pts) as [second|]; [|discriminate].
    destruct (while_ _ _ _ _ _) as [[st awaits]| | |] eqn:Ew; try discriminate.
    eexists; exists st, awaits. split; [reflexivity|]. split; [exact Ew|].
    destruct (stoppedAfter flag awaits); injection H as <-; cbn;
      repeat split; try reflexivity; try discriminate;
      try (now left); now right.
  - destruct (nth_error pts k) as [startPoint|]; [|discriminate].
    destruct (find _ pts) as [second|]; [|discriminate].
    destruct (while_ _ _ _ _ _) as [[st awaits]| | |] eqn:Ew; try discriminate.
    eexists; exists st, awaits. split; [reflexivity|]. split; [exact Ew|].
    destruct (stoppedAfter flag awaits); injection H as <-; cbn;
      repeat split; try reflexivity; try discriminate;
      try (now left); now right.
  - destruct pts as [|p0 rest]; [contradiction|].
    destruct (while_ _ _ _ _ _) as [[st awaits]| | |] eqn:Ew; try discriminate.
    eexists; exists st, awaits. split; [reflexivity|]. split; [exact Ew|].
    destruct (stoppedAfter flag awaits); injection H as <-; cbn;
      repeat split; try reflexivity; try discriminate;
      try (now left); now right.
  - destruct (while_ _ _ _ _ _) as [[st awaits]| | |] eqn:Ew; try discriminate.
    eexists; exists st, awaits. split; [reflexivity|]. split; [exact Ew|].
    destruct (stoppedAfter flag awaits); injection H as <-; cbn;
      repeat split; try reflexivity; try discriminate;
      try (now left); now right.
Qed.

(** The initial state holds the whole point set, starts at [startOf] and
    has shown one snapshot when the strategy waits before its loop. *)
Lemma initial_placed s k pts :
  NoDup pts -> Forall onGrid pts -> 2 <= length pts -> k < length pts ->
  exists st0 rest,
    initial s k pts = Some st0 /\ placed pts st0 /\
    path st0 = startOf s k pts :: rest /\
    length (currentPath st0) = firstTest s /\
    length (remainingPoints st0) = toPlace s pts.
Proof.
  intros Hnd Hgrid Hlen Hk.
  assert (Hcount : forall st0, placed pts st0 ->
            length (remainingPoints st0) = length pts - length (path st0)).
  { intros st0 Hpl. apply placed_length in Hpl. lia. }
  destruct s; cbn [initial startOf firstTest toPlace].
  - destruct (nth_error pts k) as [startPoint|] eqn:Ek;
      [|apply nth_error_None in Ek; lia].
    rewrite (nth_error_nth _ _ origin Ek).
    assert (Hin : In startPoint pts) by (eapply nth_error_In; eassumption).
    assert (Hpl : placed pts (mkState [startPoint]
                     (filter (fun p => negb (same p startPoint)) pts) [])).
    { split; [|discriminate]. symmetry. now apply filter_other_perm. }
    eexists; exists []. split; [reflexivity|]. split; [exact Hpl|].
    split; [reflexivity|]. split; [reflexivity|]. now rewrite (Hcount _ Hpl).
  - destruct (nth_error pts k) as [startPoint|] eqn:Ek;
      [|apply nth_error_None in Ek; lia].
    rewrite (nth_error_nth _ _ origin Ek).
    assert (Hin : In startPoint pts) by (eapply nth_error_In; eassumption).
    destruct (find_other pts startPoint Hnd Hlen) as (second & -> & Hin2 & Hne).
    assert (Hpl : placed pts (mkState [startPoint; second]
                     (filter (fun p => negb (includes [startPoint; second] p)) pts) [])).
    { split; [|discriminate]. apply filter_excluded_perm; try assumption.
      - constructor; [intros [H|[]]; congruence|]. constructor; [intros []|constructor].
      - intros q [<-|[<-|[]]]; assumption. }
    eexists; exists [second]. split; [reflexivity|]. split; [exact Hpl|].
    split; [reflexivity|]. split; [reflexivity|]. now rewrite (Hcount _ Hpl).
  - destruct (nth_error pts k) as [startPoint|] eqn:Ek;
      [|apply nth_error_None in Ek; lia].
    rewrite (nth_error_nth _ _ origin Ek).
    assert (Hin : In startPoint pts) by (eapply nth_error_In; eassumption).
    destruct (find_other pts startPoint Hnd Hlen) as (second & -> & Hin2 & Hne).
    assert (Hpl : placed pts (mkState [startPoint; second]
                     (filter (fun p => negb (includes [startPoint; second] p)) pts) [])).
    { split; [|discriminate]. apply filter_excluded_perm; try assumption.
      - constructor; [intros [H|[]]; congruence|]. constructor; [intros []|constructor].
      - intros q [<-|[<-|[]]]; assumption. }
    eexists; exists [second]. split; [reflexivity|]. split; [exact Hpl|].
    split; [reflexivity|]. split; [reflexivity|]. now rewrite (Hcount _ Hpl).
  - destruct pts as [|p0 rest]; [simpl in Hlen; lia|]. cbn [hd].
    unfold furthestInsertion_init.
    assert (Hs := sort_perm (fun a b => (0 <? distance p0 b - distance p0 a)%float) rest).
    destruct (sort _ rest) as [|f remaining].
    + apply Permutation_nil in Hs. subst rest. simpl in Hlen. lia.
    + eexists; exists [f]. split; [reflexivity|].
      split; [split; [cbn; now constructor | discriminate]|].
      split; [reflexivity|]. split; [reflexivity|].
      apply Permutation_length in Hs. cbn in *. lia.
  - pose proof (HullShape.hullPoints_halves pts Hnd Hlen) as H. cbv zeta in H.
    destruct H as (lower & upper & _ & _ & Eh & _).
    destruct (hullPoints_exact pts Hgrid) as (Es & _ & _ & E).
    rewrite <- E, <- Es in Eh.
    assert (Hpl : placed pts (mkState (hullPoints pts)
                     (filter (fun p => negb (includes (hullPoints pts) p)) pts)
                     [closing (hullPoints pts)])).
    { split.
      - apply filter_excluded_perm; try assumption.
        + now apply hullPoints_NoDup.
        + now apply hullPoints_incl.
      - now apply hullPoints_nonempty. }
    eexists; eexists. split; [reflexivity|]. split; [exact Hpl|].
    split; [exact Eh|]. split; [reflexivity|]. now rewrite (Hcount _ Hpl).
Qed.

Lemma insertAt_after_first i p a l : insertAt (i + 1) p (a :: l) = a :: insertAt i p l.
Proof. unfold insertAt. rewrite Nat.add_1_r. reflexivity. Qed.

Lemma body_keeps_start s pts st st' start rest :
  s <> ArbitraryInsertion -> NoDup pts -> regular pts = true -> placed pts st ->
  remainingPoints st <> [] -> path st = start :: rest ->
  body_of s st = Next st' -> exists rest', path st' = start :: rest'.
Proof.
  intros Hs Hnd Hreg Hpl Hrem Hpath Hbody. destruct s; cbn [body_of] in Hbody.
  - unfold nearestNeighbor_body in Hbody.
    destruct (sort _ (remainingPoints st)) as [|nextPoint others];
      injection Hbody as <-; cbn [path]; rewrite Hpath; eexists; reflexivity.
  - contradiction.
  - destruct (nearest_scan_spec (path st) (remainingPoints st))
      as (p & i & _ & _ & Hscan & _).
    + apply Hpl.
    + assumption.
    + intros a q b Ha Hq Hb. apply (regular_insertion pts); try assumption;
        [now apply (placed_In_path pts st) | now apply (placed_In_remaining pts st)
        | now apply (placed_In_path pts st)].
    + unfold nearestInsertion_body in Hbody. rewrite Hscan in Hbody.
      injection Hbody as <-. cbn [path]. rewrite Hpath, insertAt_after_first.
      eexists; reflexivity.
  - destruct (furthestInsertion_body_spec pts st Hnd Hreg Hpl Hrem)
      as (sel & i & Hb & _).
    rewrite Hb in Hbody. injection Hbody as <-. cbn [path].
    rewrite Hpath, insertAt_after_first. eexists; reflexivity.
  - destruct (nearest_scan_spec (path st) (remainingPoints st))
      as (p & i & _ & _ & Hscan & _).
    + apply Hpl.
    + assumption.
    + intros a q b Ha Hq Hb. apply (regular_insertion pts); try assumption;
        [now apply (placed_In_path pts st) | now apply (placed_In_remaining pts st)
        | now apply (placed_In_path pts st)].
    + unfold convexHull_body in Hbody. rewrite Hscan in Hbody.
      injection Hbody as <-. cbn [path]. rewrite Hpath, insertAt_after_first.
      eexists; reflexivity.
Qed.

(** No turn of a loop inserts before the start point, except in
    [arbitraryInsertion]. *)
Lemma run_start (s : Strategy) (pts : list Point) (k fuel : nat)
    (flag : nat -> bool) :
  s <> ArbitraryInsertion ->
  NoDup pts -> 2 <= length pts -> Forall onGrid pts ->
  k < length pts -> length pts <= fuel ->
  exists o rest,
    run s k flag fuel pts = Returned o /\
    (stopped o = true -> path (locals o) = startOf s k pts :: rest) /\
    (stopped o = false ->
     bestPath o = Some (startOf s k pts :: rest ++ [startOf s k pts])).
Proof.
  intros Hs Hnd Hlen Hgrid Hk Hfuel.
  assert (Hreg := regular_onGrid pts Hgrid).
  destruct (run_spec s pts k flag fuel Hnd Hlen Hgrid Hk Hfuel) as (st1 & n & Hrun & _).
  assert (Hne : pts <> []) by (intros ->; simpl in Hlen; lia).
  destruct (run_initial s k flag fuel pts _ Hne Hrun)
    as (st0 & st & awaits & Hinit & Hw & _ & _ & _ & Hstop & Hdone).
  destruct (initial_placed s k pts Hnd Hgrid Hlen Hk)
    as (st0' & rest0 & Hinit' & Hpl0 & Hpath0 & _).
  rewrite Hinit in Hinit'. injection Hinit' as <-.
  assert (Hinv : placed pts st /\ exists rest, path st = startOf s k pts :: rest).
  { apply (while_preserves (body_of s)
             (fun st => placed pts st /\ exists rest, path st = startOf s k pts :: rest))
      with (flag := flag) (fuel := fuel) (awaits := firstTest s) (st := st0) (n := awaits).
    - intros sa sb [Hpl (rest & Hpath)] Hrem Hbody. split.
      + destruct (body_moves_one s pts sa Hnd Hreg Hpl Hrem) as (sb' & Hb & Hmove & _).
        rewrite Hb in Hbody. injection Hbody as <-.
        now apply (moves_one_placed pts sa).
      + now apply (body_keeps_start s pts sa sb (startOf s k pts) rest).
    - exact Hw.
    - split; [assumption|]. now exists rest0. }
  destruct Hinv as [_ (rest & Hpath)].
  eexists; exists rest. split; [exact Hrun|]. split.
  - intros Hst. now rewrite (proj1 (Hstop Hst)).
  - intros Hst. rewrite (proj1 (Hdone Hst)), Hpath.
    destruct s; rewrite ?Hpath0, ?Hpath; reflexivity.
Qed.


(** X15: on a point set on the grid, except in [arbitraryInsertion], which
    may put a point in front of it, the point a strategy starts from stays
    the first point of its path: no turn of the loop inserts before it.  The
    published tour leaves from that point and returns to it: the point
    drawn for [nearestNeighbor] and
    [nearestInsertion], the first point of the array for
    [furthestInsertion], the least point of the set (the first one of the
    hull) for [convexHull]. *)
Theorem X15_run_keeps_start (s : Strategy) (pts : list Point) (k fuel : nat)
    (flag : nat -> bool) :
  s <> ArbitraryInsertion ->
  NoDup pts -> 2 <= length pts -> Forall onGrid pts ->
  k < length pts -> length pts <= fuel ->
  exists o rest,
    run s k flag fuel pts = Returned o /\
    (stopped o = true -> path (locals o) = startOf s k pts :: rest) /\
    (stopped o = false ->
     bestPath o = Some (startOf s k pts :: rest ++ [startOf s k pts])).
Proof.
  intros Hs Hnd Hlen Hgrid Hk Hfuel.
  assert (Hreg := regular_onGrid pts Hgrid).
  destruct (run_start s pts k fuel flag Hs Hnd Hlen Hgrid Hk Hfuel)
    as (o & rest & Hrun & Hstopped & Hdone).
  exists o, rest. split; [exact Hrun|]. split; assumption.
Qed.

Lemma X15_run_keeps_start_witness :
  exists o rest,
    run ConvexHull 0 neverStopped 5 scattered = Returned o /\
    (stopped o = true ->
     path (locals o) = startOf ConvexHull 0 scattered :: rest) /\
    (stopped o = false ->
     bestPath o = Some (startOf ConvexHull 0 scattered :: rest
                        ++ [startOf ConvexHull 0 scattered])).
Proof.
  apply (X15_run_keeps_start ConvexHull scattered 0 5 neverStopped).
  - discriminate.
  - apply distinct_NoDup. vm_compute. reflexivity.
  - simpl. lia.
  - apply allOnGrid_onGrid. vm_compute. reflexivity.
  - simpl. lia.
  - simpl. lia.
Defined.

(** ** C5: determinism *)

(** The tour [nearestInsertion] publishes begins at the point it drew. *)
Lemma nearestInsertion_tour pts k flag fuel :
  NoDup pts -> 2 <= length pts -> Forall onGrid pts ->
  k < length pts -> (forall n, flag n = false) -> length pts <= fuel ->
  exists o tour,
    run NearestInsertion k flag fuel pts = Returned o /\
    bestPath o = Some tour /\ hd_error tour = nth_error pts k.
Proof.
  intros Hnd Hlen Hgrid Hk Hflag Hfuel.
  destruct (run_start NearestInsertion pts k fuel flag ltac:(discriminate)
              Hnd Hlen Hgrid Hk Hfuel) as (o & rest & Hrun & _ & Hdone).
  destruct (run_complete NearestInsertion pts k flag fuel Hnd Hlen Hgrid Hk Hflag Hfuel)
    as (o' & _ & _ & Hrun' & Hst & _).
  rewrite Hrun in Hrun'. injection Hrun' as <-.
  eexists; eexists. split; [exact Hrun|]. split; [exact (Hdone Hst)|].
  cbn [hd_error startOf]. symmetry. now apply nth_error_nth'.
Qed.

(** C5, as the code has it, on a point set on the grid and with the flag
    never set.  [nearestInsertion] publishes a tour that begins at the point
    it drew with [Math.random]: two runs publish the same tour exactly when
    they drew the same index.  [convexHull] draws nothing: its tour begins
    at the least point of the set whatever a random source gives. *)
Theorem C5_deterministic_up_to_start (pts : list Point) (flag : nat -> bool)
    (fuel k1 k2 : nat) :
  NoDup pts -> 2 <= length pts -> Forall onGrid pts ->
  k1 < length pts -> k2 < length pts ->
  (forall n, flag n = false) -> length pts <= fuel ->
  exists o1 o2 oc tour1 tour2 tourc,
    run NearestInsertion k1 flag fuel pts = Returned o1 /\
    run NearestInsertion k2 flag fuel pts = Returned o2 /\
    bestPath o1 = Some tour1 /\ bestPath o2 = Some tour2 /\
    hd_error tour1 = nth_error pts k1 /\ hd_error tour2 = nth_error pts k2 /\
    (tour1 = tour2 <-> k1 = k2) /\
    run ConvexHull k1 flag fuel pts = Returned oc /\
    run ConvexHull k2 flag fuel pts = Returned oc /\
    bestPath oc = Some tourc /\
    hd_error tourc = Some (hd origin (sortedPoints pts)).
Proof.
  intros Hnd Hlen Hgrid Hk1 Hk2 Hflag Hfuel.
  assert (Hreg := regular_onGrid pts Hgrid).
  destruct (nearestInsertion_tour pts k1 flag fuel Hnd Hlen Hgrid Hk1 Hflag Hfuel)
    as (o1 & tour1 & Hrun1 & Hbest1 & Hhd1).
  destruct (nearestInsertion_tour pts k2 flag fuel Hnd Hlen Hgrid Hk2 Hflag Hfuel)
    as (o2 & tour2 & Hrun2 & Hbest2 & Hhd2).
  destruct (run_start ConvexHull pts k1 fuel flag ltac:(discriminate)
              Hnd Hlen Hgrid Hk1 Hfuel) as (oc & rest & Hrunc & _ & Hdone).
  destruct (run_complete ConvexHull pts k1 flag fuel Hnd Hlen Hgrid Hk1 Hflag Hfuel)
    as (oc' & _ & _ & Hrunc' & Hst & _).
  rewrite Hrunc in Hrunc'. injection Hrunc' as <-.
  exists o1, o2, oc, tour1, tour2. eexists.
  split; [exact Hrun1|]. split; [exact Hrun2|].
  split; [exact Hbest1|]. split; [exact Hbest2|].
  split; [exact Hhd1|]. split; [exact Hhd2|]. split.
  - split.
    + intros E. rewrite E in Hhd1. rewrite Hhd1 in Hhd2.
      now apply (proj1 (NoDup_nth_error pts) Hnd).
    + intros E. subst k2. rewrite Hrun1 in Hrun2. injection Hrun2 as <-.
      rewrite Hbest1 in Hbest2. now injection Hbest2.
  - split; [exact Hrunc|]. split; [exact Hrunc|].
    split; [exact (Hdone Hst)|]. reflexivity.
Qed.

Lemma C5_deterministic_witness :
  exists o1 o2 oc tour1 tour2 tourc,
    run NearestInsertion 0 neverStopped 5 scattered = Returned o1 /\
    run NearestInsertion 1 neverStopped 5 scattered = Returned o2 /\
    bestPath o1 = Some tour1 /\ bestPath o2 = Some tour2 /\
    hd_error tour1 = nth_error scattered 0 /\
    hd_error tour2 = nth_error scattered 1 /\
    (tour1 = tour2 <-> 0 = 1) /\
    run ConvexHull 0 neverStopped 5 scattered = Returned oc /\
    run ConvexHull 1 neverStopped 5 scattered = Returned oc /\
    bestPath oc = Some tourc /\
    hd_error tourc = Some (hd origin (sortedPoints scattered)).
Proof.
  apply (C5_deterministic_up_to_start scattered neverStopped 5 0 1).
  - apply distinct_NoDup. vm_compute. reflexivity.
  - simpl. lia.
  - apply allOnGrid_onGrid. vm_compute. reflexivity.
  - simpl. lia.
  - simpl. lia.
  - reflexivity.
  - simpl. lia.
Defined.

(** X16: on a point set on the grid a run shows one snapshot for every
    point its loop places, and one more before the loop in
    [furthestInsertion] and [convexHull]: on [n] points a run that is not
    stopped shows [n - 1] snapshots in
    [nearestNeighbor] and [furthestInsertion], [n - 2] in
    [arbitraryInsertion] and [nearestInsertion], and [n - h + 1] in
    [convexHull] when the hull has [h] points. *)
Theorem X16_run_snapshot_count (s : Strategy) (pts : list Point) (k fuel : nat)
    (flag : nat -> bool) :
  NoDup pts -> 2 <= length pts -> Forall onGrid pts ->
  k < length pts -> length pts <= fuel ->
  exists o,
    run s k flag fuel pts = Returned o /\
    length (currentPath (locals o)) + length (remainingPoints (locals o))
    = firstTest s + toPlace s pts.
Proof.
  intros Hnd Hlen Hgrid Hk Hfuel.
  assert (Hreg := regular_onGrid pts Hgrid).
  destruct (run_spec s pts k flag fuel Hnd Hlen Hgrid Hk Hfuel) as (st1 & n & Hrun & _).
  assert (Hne : pts <> []) by (intros ->; simpl in Hlen; lia).
  destruct (run_initial s k flag fuel pts _ Hne Hrun)
    as (st0 & st & awaits & Hinit & Hw & _ & Hrem & Hshown & _).
  destruct (initial_placed s k pts Hnd Hgrid Hlen Hk)
    as (st0' & rest0 & Hinit' & Hpl0 & _ & Hshown0 & Hrem0).
  rewrite Hinit in Hinit'. injection Hinit' as <-.
  assert (Hinv : placed pts st /\
                 length (currentPath st) + length (remainingPoints st)
                 = firstTest s + toPlace s pts).
  { apply (while_preserves (body_of s)
             (fun st => placed pts st /\
                        length (currentPath st) + length (remainingPoints st)
                        = firstTest s + toPlace s pts))
      with (flag := flag) (fuel := fuel) (awaits := firstTest s) (st := st0) (n := awaits).
    - intros sa sb [Hpl Hcount] Hr Hbody.
      destruct (body_moves_one s pts sa Hnd Hreg Hpl Hr)
        as (sb' & Hb & Hmove & Hsnap & _).
      rewrite Hb in Hbody. injection Hbody as <-.
      split; [now apply (moves_one_placed pts sa)|].
      apply moves_one_length in Hmove. rewrite Hsnap. cbn [length]. lia.
    - exact Hw.
    - split; [assumption | lia]. }
  eexists. split; [exact Hrun|]. rewrite Hrem, Hshown. apply Hinv.
Qed.

Lemma X16_run_snapshot_count_witness :
  exists o,
    run FurthestInsertion 0 neverStopped 5 scattered = Returned o /\
    length (currentPath (locals o)) + length (remainingPoints (locals o))
    = firstTest FurthestInsertion + toPlace FurthestInsertion scattered.
Proof.
  apply (X16_run_snapshot_count FurthestInsertion scattered 0 5 neverStopped).
  - apply distinct_NoDup. vm_compute. reflexivity.
  - simpl. lia.
  - apply allOnGrid_onGrid. vm_compute. reflexivity.
  - simpl. lia.
  - simpl. lia.
Defined.

(** X17: the flag is also read after the loop.  On a point set on the grid,
    when it goes up during the wait that follows the last placement, the
    loop ends with nothing left to place, but the closing block is
    skipped: the run is stopped, no tour is
    published and no final cost is reported, although the path holds every
    point of the set. *)
Theorem X17_stop_during_last_wait (s : Strategy) (pts : list Point) (k fuel : nat)
    (flag : nat -> bool) :
  NoDup pts -> 2 <= length pts -> Forall onGrid pts ->
  k < length pts -> length pts <= fuel ->
  (forall m, m < toPlace s pts -> stoppedAfter flag (firstTest s + m) = false) ->
  stoppedAfter flag (firstTest s + toPlace s pts) = true ->
  exists o,
    run s k flag fuel pts = Returned o /\
    stopped o = true /\ bestPath o = None /\ finalCost o = None /\
    remainingPoints (locals o) = [] /\ Permutation (path (locals o)) pts.
Proof.
  intros Hnd Hlen Hgrid Hk Hfuel Hdown Hup.
  assert (Hreg := regular_onGrid pts Hgrid).
  destruct (run_spec s pts k flag fuel Hnd Hlen Hgrid Hk Hfuel)
    as (st & n & Hrun & [Hperm _] & _ & Hcount & Hexit & Hbefore).
  assert (Hn : n = toPlace s pts).
  { destruct (Nat.eq_dec n (toPlace s pts)) as [E|Hneq]; [assumption|].
    assert (Hlt : n < toPlace s pts) by lia.
    destruct Hexit as [Hexit|Hexit].
    - rewrite Hexit in Hcount. simpl in Hcount. lia.
    - rewrite (Hdown n Hlt) in Hexit. discriminate. }
  assert (Hrem : remainingPoints st = []).
  { destruct (remainingPoints st); [reflexivity | simpl in Hcount; lia]. }
  exists (finish s flag pts st n). split; [assumption|].
  unfold finish. rewrite Hn, Hup. cbn [stopped bestPath finalCost locals].
  repeat split; try assumption.
  now rewrite Hrem, app_nil_r in Hperm.
Qed.

Lemma X17_stop_during_last_wait_witness :
  exists o,
    run NearestNeighbor 0 stoppedInFourthWait 5 scattered = Returned o /\
    stopped o = true /\ bestPath o = None /\ finalCost o = None /\
    remainingPoints (locals o) = [] /\ Permutation (path (locals o)) scattered.
Proof.
  apply (X17_stop_during_last_wait NearestNeighbor scattered 0 5 stoppedInFourthWait).
  - apply distinct_NoDup. vm_compute. reflexivity.
  - simpl. lia.
  - apply allOnGrid_onGrid. vm_compute. reflexivity.
  - simpl. lia.
  - simpl. lia.
  - intros m Hm. cbn in Hm.
    destruct m as [|[|[|[|m]]]]; try reflexivity. lia.
  - reflexivity.
Defined.

(** ** The order of the points placed *)

Lemma Subsequence_refl l : Subsequence l l.
Proof. induction l; constructor; assumption. Qed.

Lemma Subsequence_trans l1 l2 l3 :
  Subsequence l1 l2 -> Subsequence l2 l3 -> Subsequence l1 l3.
Proof.
  intros H12 H23. revert l1 H12.
  induction H23 as [l | a l2 l3 H IH | b l2 l3 H IH]; intros l1 H12.
  - inversion H12; subst. constructor.
  - inversion H12; subst.
    + constructor.
    + constructor. now apply IH.
    + apply Subsequence_skip. now apply IH.
  - apply Subsequence_skip. now apply IH.
Qed.

Lemma Subsequence_app_r l r : Subsequence l (l ++ r).
Proof. induction l; simpl; constructor; assumption. Qed.

Lemma Subsequence_insertAt i p l : Subsequence l (insertAt i p l).
Proof.
  unfold insertAt. revert i. induction l as [|a l IH]; intros i.
  - constructor.
  - destruct i as [|i]; cbn [firstn skipn app].
    + apply Subsequence_skip, Subsequence_refl.
    + apply Subsequence_keep, IH.
Qed.

Lemma body_keeps_order s st st' :
  body_of s st = Next st' -> Subsequence (path st) (path st').
Proof.
  destruct s; cbn [body_of]; intros H.
  - unfold nearestNeighbor_body in H.
    destruct (sort _ (remainingPoints st)); injection H as <-; cbn [path].
    + apply Subsequence_refl.
    + apply Subsequence_app_r.
  - unfold arbitraryInsertion_body in H.
    destruct (remainingPoints st); [discriminate|].
    destruct (arbitraryInsertion_scan _ _). injection H as <-.
    apply Subsequence_insertAt.
  - unfold nearestInsertion_body in H.
    destruct (nearest_scan _ _) as [[[p|] d] pos]; [|discriminate].
    injection H as <-. apply Subsequence_insertAt.
  - unfold furthestInsertion_body in H.
    destruct (furthest_select _ _) as [[p|] d]; [|discriminate].
    destruct (furthest_position _ _). injection H as <-.
    apply Subsequence_insertAt.
  - unfold convexHull_body in H.
    destruct (nearest_scan _ _) as [[[p|] d] pos]; [|discriminate].
    injection H as <-. apply Subsequence_insertAt.
Qed.

(** X19: on a point set on the grid a strategy never moves a point it has
    placed: every turn of a loop puts one point into the path and leaves the
    others in the order they had.  So the points of the initial path, for
    [convexHull] the hull, are
    met in the same order in the path the run ends with and in the tour it
    publishes. *)
Theorem X19_run_keeps_order (s : Strategy) (pts : list Point) (k fuel : nat)
    (flag : nat -> bool) :
  NoDup pts -> 2 <= length pts -> Forall onGrid pts ->
  k < length pts -> length pts <= fuel ->
  exists o st0,
    run s k flag fuel pts = Returned o /\ initial s k pts = Some st0 /\
    Subsequence (path st0) (path (locals o)) /\
    (forall tour, bestPath o = Some tour -> Subsequence (path st0) tour).
Proof.
  intros Hnd Hlen Hgrid Hk Hfuel.
  assert (Hreg := regular_onGrid pts Hgrid).
  destruct (run_spec s pts k flag fuel Hnd Hlen Hgrid Hk Hfuel)
    as (st1 & n & Hrun & _).
  assert (Hne : pts <> []) by (intros ->; simpl in Hlen; lia).
  destruct (run_initial s k flag fuel pts _ Hne Hrun)
    as (st0 & st & awaits & Hinit & Hw & _ & _ & _ & Hstop & Hdone).
  assert (Hinv : Subsequence (path st0) (path st)).
  { apply (while_preserves (body_of s) (fun st => Subsequence (path st0) (path st)))
      with (flag := flag) (fuel := fuel) (awaits := firstTest s) (st := st0) (n := awaits).
    - intros sa sb Hsa _ Hbody.
      exact (Subsequence_trans _ _ _ Hsa (body_keeps_order s sa sb Hbody)).
    - exact Hw.
    - apply Subsequence_refl. }
  assert (Hclosed : forall l, Subsequence (path st0) (path st ++ l)).
  { intros l. exact (Subsequence_trans _ _ _ Hinv (Subsequence_app_r _ l)). }
  eexists; exists st0. split; [exact Hrun|]. split; [assumption|].
  destruct (stopped (finish s flag pts st1 n)) eqn:Est.
  - destruct (Hstop eq_refl) as [Hp Hb]. rewrite Hp, Hb.
    split; [assumption | discriminate].
  - destruct (Hdone eq_refl) as [Hbest Hlocal]. split.
    + destruct Hlocal as [-> | Hlocal]; [assumption|].
      rewrite Hbest in Hlocal. injection Hlocal as <-. apply Hclosed.
    + intros tour Ht. rewrite Hbest in Ht. injection Ht as <-. apply Hclosed.
Qed.

Lemma X19_run_keeps_order_witness :
  exists o st0,
    run ConvexHull 0 neverStopped 5 scattered = Returned o /\
    initial ConvexHull 0 scattered = Some st0 /\
    Subsequence (path st0) (path (locals o)) /\
    (forall tour, bestPath o = Some tour -> Subsequence (path st0) tour).
Proof.
  apply (X19_run_keeps_order ConvexHull scattered 0 5 neverStopped).
  - apply distinct_NoDup. vm_compute. reflexivity.
  - simpl. lia.
  - apply allOnGrid_onGrid. vm_compute. reflexivity.
  - simpl. lia.
  - simpl. lia.
Defined.

(** ** The older untyped copy *)

Lemma fold_left_invariant {X B : Type} (P : X -> Prop) (f : X -> B -> X) l x :
  P x -> (forall x b, In b l -> P x -> P (f x b)) -> P (fold_left f l x).
Proof.
  revert x. induction l as [|b l IH]; intros x Hx Hstep; simpl.
  - assumption.
  - apply IH.
    + apply Hstep; [now left | assumption].
    + intros y c Hc Hy. apply Hstep; [now right | assumption].
Qed.

Lemma Jsx_scan_position path nextPoint :
  path <> [] -> fst (Jsx.arbitraryInsertion_scan path nextPoint) < length path.
Proof.
  intros Hne. unfold Jsx.arbitraryInsertion_scan.
  apply (fold_left_invariant (fun best : nat * number => fst best < length path)).
  - destruct path; [contradiction | simpl; lia].
  - intros [pos c] i Hi Hpos. apply in_seq in Hi.
    destruct (_ <? c)%float; cbn [fst] in *; lia.
Qed.

Lemma insertAt_before_last i p l z :
  i <= length l -> insertAt i p (l ++ [z]) = insertAt i p l ++ [z].
Proof.
  intros Hi. unfold insertAt.
  rewrite firstn_app, skipn_app.
  replace (i - length l) with 0 by lia. cbn [firstn skipn].
  rewrite app_nil_r, <- app_assoc. reflexivity.
Qed.

Lemma insertAt_nonempty i p l : insertAt i p l <> [].
Proof. unfold insertAt. destruct (firstn i l); discriminate. Qed.

(** X20: in the older copy of the component the scan of [arbitraryInsertion]
    stops before the position that follows the last point, so a point is
    never placed at the end of the path: the second point of the initial
    pair stays the last point of the path for the whole run, and is the one
    the published tour visits last before it returns to its start. *)
Theorem X20_Jsx_arbitraryInsertion_keeps_last (pts : list Point) (k fuel : nat)
    (flag : nat -> bool) (startPoint second : Point) :
  nth_error pts k = Some startPoint ->
  find (fun p => negb (same p startPoint)) pts = Some second ->
  length pts <= fuel ->
  exists o first l,
    Jsx.arbitraryInsertion k flag fuel pts = Returned o /\
    (stopped o = true -> path (locals o) = first :: l ++ [second]) /\
    (stopped o = false -> bestPath o = Some (first :: l ++ [second; first])).
Proof.
  intros Hk Hfind Hfuel. unfold Jsx.arbitraryInsertion. rewrite Hk, Hfind.
  set (st0 := mkState [startPoint; second] _ []).
  destruct (while_returns Jsx.arbitraryInsertion_body
              (fun st => exists first l, path st = first :: l ++ [second]))
    with (flag := flag) (fuel := fuel) (awaits := 0) (st := st0)
    as (st & n & Hw & (first & l & Hpath) & _).
  - intros st (first & l & Hpath) Hrem.
    unfold Jsx.arbitraryInsertion_body.
    destruct (remainingPoints st) as [|nextPoint rest] eqn:Er; [contradiction|].
    assert (Hpos := Jsx_scan_position (path st) nextPoint).
    destruct (Jsx.arbitraryInsertion_scan (path st) nextPoint) as [pos cost].
    cbn [fst] in Hpos.
    eexists. split; [reflexivity|]. cbn [path remainingPoints]. split; [|reflexivity].
    rewrite Hpath in *.
    assert (Hle : pos <= length (first :: l)).
    { specialize (Hpos ltac:(discriminate)).
      change (first :: l ++ [second]) with ((first :: l) ++ [second]) in Hpos.
      rewrite length_app in Hpos. cbn [length] in *. lia. }
    change (first :: l ++ [second]) with ((first :: l) ++ [second]).
    rewrite insertAt_before_last by assumption.
    destruct (insertAt pos nextPoint (first :: l)) as [|first' l'] eqn:Ei.
    + now apply insertAt_nonempty in Ei.
    + exists first', l'. reflexivity.
  - exists startPoint, []. reflexivity.
  - unfold st0. cbn [remainingPoints].
    etransitivity; [apply filter_length_le | assumption].
  - cbn [Nat.add] in Hw. rewrite Hw.
    destruct (stoppedAfter flag n); eexists; exists first, l;
      (split; [reflexivity|]); cbn [stopped locals bestPath path]; split;
      try discriminate; intros _.
    + exact Hpath.
    + rewrite Hpath. unfold closing. cbn [firstn app].
      rewrite <- app_assoc. reflexivity.
Qed.

Lemma X20_Jsx_arbitraryInsertion_keeps_last_witness :
  exists o first l,
    Jsx.arbitraryInsertion 0 neverStopped 4 kite = Returned o /\
    (stopped o = true -> path (locals o) = first :: l ++ [mkPoint 100 30]) /\
    (stopped o = false ->
     bestPath o = Some (first :: l ++ [mkPoint 100 30; first])).
Proof.
  apply (X20_Jsx_arbitraryInsertion_keeps_last kite 0 4 neverStopped (mkPoint 80 15)).
  - reflexivity.
  - reflexivity.
  - simpl. lia.
Defined.

(** ** Generated point sets are ordinary *)

(** X21: a point set made of positions of the grid, which is all that
    [randomizeVertices] produces, is one on which the costs are ordinary
    numbers: two different points are a positive distance apart, no
    insertion cost reaches [Infinity], every distance is a number, and the
    differences that the comparators of [nearestNeighbor] and
    [furthestInsertion] return have the sign of the comparison of the two
    distances. *)
Theorem X21_grid_point_sets_are_ordinary (pts : list Point) :
  Forall onGrid pts ->
  regular pts = true /\
  forall p rest, In p pts -> incl rest pts ->
    signsAgree p rest = true /\ comparable p rest = true.
Proof.
  intros Hg. split; [now apply regular_onGrid|].
  intros p rest Hp Hrest.
  assert (H0 : onGrid p) by (rewrite Forall_forall in Hg; auto).
  assert (Hr : Forall onGrid rest).
  { rewrite Forall_forall in *. intros q Hq. apply Hg, Hrest, Hq. }
  split; [now apply signsAgree_onGrid | now apply comparable_onGrid].
Qed.

Lemma X21_grid_point_sets_are_ordinary_witness :
  regular [mkPoint 20 15; mkPoint 760 570] = true /\
  forall p rest, In p [mkPoint 20 15; mkPoint 760 570] ->
    incl rest [mkPoint 20 15; mkPoint 760 570] ->
    signsAgree p rest = true /\ comparable p rest = true.
Proof.
  apply (X21_grid_point_sets_are_ordinary [mkPoint 20 15; mkPoint 760 570]).
  repeat constructor.
  - exists 1%Z, 1%Z. cbn. lia.
  - exists 38%Z, 38%Z. cbn. lia.
Defined.

(** ** The cost on display *)

Lemma pathCost_from_below V cost path :
  Forall onGrid path -> below V (Prim2SF cost) -> (10 <= V)%Z ->
  (V + 2 * Z.of_nat (length path) <= 971)%Z ->
  below (V + 2 * Z.of_nat (length path)) (Prim2SF (pathCost_from cost path)).
Proof.
  revert V cost. induction path as [|a path IH]; intros V cost Hg Hc HV Hmax.
  - simpl. apply (NumberSize.below_le V); [simpl; lia | assumption].
  - destruct path as [|b path].
    + simpl. apply (NumberSize.below_le V); [simpl; lia | assumption].
    + change (pathCost_from cost (a :: b :: path))
        with (pathCost_from (cost + distance a b)%float (b :: path)).
      inversion Hg as [|? ? Ha Hg']; subst.
      assert (Hb : onGrid b) by (now inversion Hg').
      replace (V + 2 * Z.of_nat (length (a :: b :: path)))%Z
        with ((V + 2) + 2 * Z.of_nat (length (b :: path)))%Z
        by (cbn [length]; lia).
      cbn [length] in Hmax.
      apply IH; try assumption; try (cbn [length]; lia).
      apply add_below; try lia; try assumption.
      apply (NumberSize.below_le 10); [lia | now apply distance_grid_small].
Qed.

(** X22: the cost that the metrics show is a number below [Infinity]
    (so neither [Infinity] nor [NaN]) for every path over positions of the
    grid with up to 400 points, closed or not; the slider allows 100
    vertices. *)
Theorem X22_pathCost_on_grid_is_finite (path : list Point) :
  Forall onGrid path -> length path <= 400 ->
  (pathCost path <? Infinity)%float = true /\
  (pathCost (closing path) <? Infinity)%float = true.
Proof.
  intros Hg Hlen.
  assert (Hc : Forall onGrid (closing path)).
  { unfold closing. apply Forall_app. split; [assumption|].
    destruct path; [constructor|]. cbn [firstn]. inversion Hg; subst.
    repeat constructor. assumption. }
  assert (Hlc : length (closing path) <= 401).
  { unfold closing. rewrite length_app, length_firstn. lia. }
  split; unfold pathCost, Infinity.
  - apply (NumberSize.below_ltb_infinity (10 + 2 * Z.of_nat (length path))).
    apply pathCost_from_below; try assumption; try lia. exact I.
  - apply (NumberSize.below_ltb_infinity (10 + 2 * Z.of_nat (length (closing path)))).
    apply pathCost_from_below; try assumption; try lia. exact I.
Qed.

Lemma X22_pathCost_on_grid_is_finite_witness :
  (pathCost [mkPoint 20 15; mkPoint 760 570] <? Infinity)%float = true /\
  (pathCost (closing [mkPoint 20 15; mkPoint 760 570]) <? Infinity)%float = true.
Proof.
  apply (X22_pathCost_on_grid_is_finite [mkPoint 20 15; mkPoint 760 570]).
  - repeat constructor.
    + exists 1%Z, 1%Z. cbn. lia.
    + exists 38%Z, 38%Z. cbn. lia.
  - simpl. lia.
Defined.

(** ** From the generator to the tour *)

(** X23: the generator and a strategy in sequence.  On the point set that
    [randomizeVertices] installs (at least two vertices), every strategy,
    from every start index and when never stopped, returns and publishes a
    closed tour whose other elements are the generated points, each exactly
    once; no condition on the costs is left, since the generated positions
    are on the grid. *)
Theorem X23_generated_set_is_toured (vertices : nat) (draw : nat -> Z)
    (fuel : nat) (s : Strategy) (k runFuel : nat) (flag : nat -> bool) :
  (forall n, n < 2 * fuel -> (1 <= draw n <= 38)%Z) ->
  vertices <= length (nodup Point_eq_dec (map (drawn draw) (seq 0 fuel))) ->
  2 <= vertices -> k < vertices -> (forall n, flag n = false) ->
  vertices <= runFuel ->
  exists pts o first mid,
    randomizeVertices vertices draw fuel
    = Returned (pts, randomizeVertices_metrics vertices) /\
    run s k flag runFuel pts = Returned o /\
    stopped o = false /\
    bestPath o = Some (first :: mid ++ [first]) /\
    Permutation (first :: mid) pts.
Proof.
  intros Hrange Hdistinct Hv Hk Hflag Hfuel.
  destruct (preimages (drawn draw) (seq 0 fuel)
              (nodup Point_eq_dec (map (drawn draw) (seq 0 fuel))))
    as (ts & Ets & Hts).
  { intros p Hp. now apply nodup_In in Hp. }
  destruct (randomizeVertices_loop_returns vertices draw fuel 0 [] ts)
    as (pts & Hloop & Hlen & Hnd & Hin).
  - constructor.
  - rewrite Ets. apply NoDup_nodup.
  - intros t Ht. apply Hts, in_seq in Ht. lia.
  - intros t _ [].
  - rewrite <- Ets, length_map in Hdistinct. simpl. lia.
  - simpl. lia.
  - assert (Hg : Forall onGrid pts).
    { apply Forall_forall. intros p Hp.
      destruct (Hin p Hp) as [[] | (t & Ht & ->)].
      apply drawn_onGrid; apply Hrange; lia. }
    destruct (run_complete s pts k flag runFuel Hnd) as (o & first & mid & H);
      try assumption; try lia.
    exists pts, o, first, mid. unfold randomizeVertices.
    cbn [map] in Hloop. rewrite Hloop. split; [reflexivity|].
    destruct H as (H1 & H2 & _ & H4 & H5). repeat split; assumption.
Qed.

Lemma X23_generated_set_is_toured_witness :
  exists pts o first mid,
    randomizeVertices 3 eightDraws 4
    = Returned (pts, randomizeVertices_metrics 3) /\
    run FurthestInsertion 0 neverStopped 3 pts = Returned o /\
    stopped o = false /\
    bestPath o = Some (first :: mid ++ [first]) /\
    Permutation (first :: mid) pts.
Proof.
  apply (X23_generated_set_is_toured 3 eightDraws 4 FurthestInsertion 0 3 neverStopped).
  - intros n Hn.
    do 8 (destruct n as [|n]; [vm_compute; split; discriminate|]). lia.
  - vm_compute. lia.
  - lia.
  - lia.
  - reflexivity.
  - lia.
Defined.
